(** * The narration (text-to-speech) audio manager of Imposter Syndrome Defeato

    A shallow embedding of the Polly client module (the module that declares
    [pollyClient], [ttsErrorCount], [activeAudioElements], [audioQueue], ...)
    and the properties of its circuit breaker, admission control, request
    queue, stream assembler and autoplay recovery.

    The module is single-threaded JavaScript: every function runs until its
    next [await], and the browser decides which pending promise, timer or DOM
    event is delivered next.  The embedding therefore has two layers:

    - the synchronous segments of the source functions, written as state
      transformers over the module-level variables (same names as the source);
    - a transition function [step] that delivers one browser event (a call
      from the game, a settled promise, a timer, a media event) and runs the
      segment that the source attaches to it.

    Finite numbers are rationals ([Q]); a number that the caller supplies (a
    setting, a volume) is a JavaScript number, which can also be [NaN] or
    infinite; time stamps are integers in milliseconds; JavaScript strings
    are lists of UTF-16 code units. *)

From Stdlib Require Import ZArith NArith QArith Qminmax String Ascii Strings.Byte Lia.
From stdpp Require Import base option list gmap.

Open Scope string_scope.
Open Scope list_scope.

(** ** JavaScript strings *)

(** A JavaScript string is a sequence of UTF-16 code units. *)
Definition jsstring : Type := list N.

(** A string literal of the development, as code units. *)
Definition str (s : string) : jsstring :=
  map N_of_ascii (list_ascii_of_string s).

(** White space and line terminators of ECMAScript, the characters that
    [String.prototype.trim] strips. *)
Definition isWhiteSpace (c : N) : bool :=
  ((9 <=? c) && (c <=? 13))%N
  || (c =? 32)%N || (c =? 160)%N || (c =? 5760)%N
  || ((8192 <=? c) && (c <=? 8202))%N
  || (c =? 8232)%N || (c =? 8233)%N || (c =? 8239)%N
  || (c =? 8287)%N || (c =? 12288)%N || (c =? 65279)%N.

Fixpoint trimStart (s : jsstring) : jsstring :=
  match s with
  | [] => []
  | c :: s' => if isWhiteSpace c then trimStart s' else s
  end.

Definition trimEnd (s : jsstring) : jsstring := reverse (trimStart (reverse s)).

(** [text.trim()] *)
Definition trim (s : jsstring) : jsstring := trimEnd (trimStart s).

(** [text.substring(0, n)] *)
Definition substring0 (n : nat) (s : jsstring) : jsstring := take n s.

(** The argument of [speakText]: a string, or any other JavaScript value
    ([undefined], [null], a number, an object). *)
Inductive JsValue :=
| JString (s : jsstring)
| JOther.

(** ** Errors and the console *)

(** An error object as the handlers inspect it: [name], [message], [code]
    ([None] when the property is undefined). *)
Record JsError := mkError {
  err_name : string;
  err_message : string;
  err_code : option string
}.

(** [new Error(message)] *)
Definition new_Error (message : string) : JsError :=
  {| err_name := "Error"; err_message := message; err_code := None |}.

(** The TypeError of calling [pollyClient.send] on a null client. *)
Definition null_client_TypeError : JsError :=
  {| err_name := "TypeError";
     err_message := "Cannot read properties of null (reading 'send')";
     err_code := None |}.

Definition code_is (e : JsError) (c : string) : bool :=
  match err_code e with
  | Some c' => String.eqb c' c
  | None => false
  end.

Inductive Level := LOG | WARN | ERROR.

(** A console line: its level and the constant prefix of its message
    ([console.debug] lines are not recorded). *)
Definition LogEntry : Type := Level * string.

(** ** JavaScript numbers *)

(** A JavaScript number: not-a-number, an infinity, or a finite number. *)
Inductive JsNumber :=
| NaN
| NegInfinity
| Num (q : Q)
| Infinity.

Coercion Num : Q >-> JsNumber.

(** A value found where the module computes with a number: a number, or any
    other value ([undefined], [null], a string, an object) together with the
    number that the conversion ToNumber makes of it. *)
Inductive JsArg :=
| ANumber (n : JsNumber)
| AOther (toNumber : JsNumber).

Definition ToNumber (v : JsArg) : JsNumber :=
  match v with
  | ANumber n => n
  | AOther n => n
  end.


(** [Math.min(a, b)] and [Math.max(a, b)] on numbers: [NaN] when an
    argument is [NaN]. *)
Definition Math_min (a b : JsNumber) : JsNumber :=
  match a, b with
  | NaN, _ | _, NaN => NaN
  | NegInfinity, _ | _, NegInfinity => NegInfinity
  | Infinity, x | x, Infinity => x
  | Num p, Num q => Num (Qmin p q)
  end.

Definition Math_max (a b : JsNumber) : JsNumber :=
  match a, b with
  | NaN, _ | _, NaN => NaN
  | Infinity, _ | _, Infinity => Infinity
  | NegInfinity, x | x, NegInfinity => x
  | Num p, Num q => Num (Qmax p q)
  end.

(** [Math.max(lo, Math.min(hi, x))] *)
Definition clamp (lo hi : Q) (x : JsNumber) : JsNumber :=
  Math_max (Num lo) (Math_min (Num hi) x).

(** [size >= limit] for the size of a set. *)
Definition size_ge (size : nat) (limit : JsNumber) : bool :=
  match limit with
  | Num q => Qle_bool q (inject_Z (Z.of_nat size))
  | NegInfinity => true
  | NaN | Infinity => false
  end.

(** The setter of [audioElement.volume]: it stores a finite number between 0
    and 1, throws a TypeError for a number that is not finite and an
    IndexSizeError for one outside the range (the numeric [code] of that
    exception is not a string, so no test of the module matches it). *)
Definition volume_setter (x : JsNumber) : JsError + Q :=
  match x with
  | Num q =>
      if Qle_bool 0 q && Qle_bool q 1 then inr q
      else inl (mkError "IndexSizeError"
                  "Failed to set the 'volume' property on 'HTMLMediaElement': The volume provided is outside the range [0, 1]."
                  None)
  | _ =>
      inl (mkError "TypeError"
             "Failed to set the 'volume' property on 'HTMLMediaElement': The provided double value is non-finite."
             None)
  end.

(** ** Audio settings *)

(** [audioSettings].  The three validated fields always hold a number (the
    result of [Math.max]); [queueProcessingDelay] holds whatever was
    written. *)
Record AudioSettings := mkSettings {
  maxConcurrentAudio : JsNumber;
  defaultVolume : JsNumber;
  fadeOutDuration : JsNumber;
  queueProcessingDelay : JsArg
}.

(** The object passed to [configureAudioSettings]: every key may be absent
    ([None]), and a key that is present may hold any value. *)
Record PartialSettings := mkPartial {
  p_maxConcurrentAudio : option JsArg;
  p_defaultVolume : option JsArg;
  p_fadeOutDuration : option JsArg;
  p_queueProcessingDelay : option JsArg
}.

Definition no_settings : PartialSettings := mkPartial None None None None.

(** One key of [{...audioSettings, ...settings}]: the value of [settings]
    when the key is present there, the current one otherwise. *)
Definition spread (current : JsArg) (given : option JsArg) : JsArg :=
  default current given.

(** The settings that [configureAudioSettings(settings)] leaves in
    [audioSettings]: the spread, then the three validations. *)
Definition configured (a : AudioSettings) (p : PartialSettings) : AudioSettings :=
  {| maxConcurrentAudio :=
       clamp 1 10 (ToNumber (spread (ANumber (maxConcurrentAudio a)) (p_maxConcurrentAudio p)));
     defaultVolume :=
       clamp 0 1 (ToNumber (spread (ANumber (defaultVolume a)) (p_defaultVolume p)));
     fadeOutDuration :=
       clamp 0 5000 (ToNumber (spread (ANumber (fadeOutDuration a)) (p_fadeOutDuration p)));
     queueProcessingDelay := spread (queueProcessingDelay a) (p_queueProcessingDelay p) |}.

(** ** The stream assembler *)

(** What one [reader.read()] gives: a chunk ([value] may be undefined), the
    end of the stream, or a rejection. *)
Inductive ReadResult :=
| ReadChunk (value : option (list byte))
| ReadDone
| ReadThrows (message : string).

(** A response stream: the result of its i-th read. *)
Definition Stream : Type := nat -> ReadResult.

Definition maxReads : nat := 1000.

Record ReadLoop := mkReadLoop {
  rl_readCount : nat;
  rl_chunks : list (list byte);
  rl_logs : list LogEntry;
  rl_thrown : option JsError
}.

(** The [while (readCount < maxReads)] loop; [fuel] is [maxReads - readCount]. *)
Fixpoint read_loop (stream : Stream) (fuel readCount : nat)
    (chunks : list (list byte)) : ReadLoop :=
  match fuel with
  | O => mkReadLoop readCount chunks [] None
  | S fuel' =>
      match stream readCount with
      | ReadThrows m =>
          mkReadLoop readCount chunks
            [(ERROR, "TTS_STREAM_ERROR: Error reading from stream:")]
            (Some (new_Error (String.append "STREAM_READ_ERROR: " m)))
      | ReadDone =>
          mkReadLoop (S readCount) chunks
            [(LOG, "TTS_STREAM_SUCCESS: Stream processing completed")] None
      | ReadChunk value =>
          let chunks' :=
            match value with
            | Some v => if (0 <? length v)%nat then chunks ++ [v] else chunks
            | None => chunks
            end in
          read_loop stream fuel' (S readCount) chunks'
      end
  end.

Record Assembled := mkAssembled {
  as_logs : list LogEntry;
  as_released : bool;               (* reader.releaseLock() was called *)
  as_result : JsError + list byte   (* thrown error, or the Uint8Array *)
}.

(** [streamToUint8Array(stream)] for a stream that is present and gives a
    reader. *)
Definition streamToUint8Array (stream : Stream) : Assembled :=
  let r := read_loop stream maxReads 0 [] in
  match rl_thrown r with
  | Some e =>
      mkAssembled
        (rl_logs r ++ [(ERROR, "TTS_STREAM_ERROR: Stream processing failed:")])
        true (inl e)
  | None =>
      let logs1 :=
        rl_logs r ++
        (if (maxReads <=? rl_readCount r)%nat
         then [(WARN, "TTS_STREAM_WARNING: Maximum read attempts reached, stream may be incomplete")]
         else []) in
      if (length (rl_chunks r) =? 0)%nat then
        mkAssembled logs1 true
          (inl (new_Error "STREAM_ERROR: No data chunks received from stream"))
      else
        let totalLength := foldl (fun acc chunk => acc + length chunk)%nat 0%nat (rl_chunks r) in
        if (totalLength =? 0)%nat then
          mkAssembled
            (logs1 ++ [(ERROR, "TTS_STREAM_ERROR: Failed to combine stream chunks:")])
            true
            (inl (new_Error "STREAM_COMBINE_ERROR: STREAM_ERROR: Total stream length is zero"))
        else
          mkAssembled
            (logs1 ++ [(LOG, "TTS_STREAM_SUCCESS: Processing chunks")])
            true
            (inr (concat (rl_chunks r)))
  end.

(** ** Heap objects, suspended calls and the module state *)

(** An [HTMLAudioElement] as the module reads it.  Every element's [src] is
    the blob URL created for it, so the element's id also names that URL. *)
Record AudioElement := mkAudio {
  volume : Q;
  paused : bool;
  ended : bool;
  error : bool      (* [audioElement.error] is not null *)
}.

(** Who awaits a call of [synthesizeAndPlayAudio]: [speakText] itself, or
    [processAudioRequest] inside the drain loop. *)
Inductive Origin := Direct | FromQueue.

Inductive Completion := Resolved | Rejected (e : JsError).

(** Where a call of [synthesizeAndPlayAudio] is suspended. *)
Inductive Phase :=
| AwaitRace                               (* [await Promise.race([...])] *)
| AwaitPlay                               (* first [await audioElement.play()] *)
| AwaitQuietPlay (originalVolume : Q)     (* second [play()], at volume 0.1 *)
| Settled (c : Completion).

Record Task := mkTask {
  t_text : jsstring;      (* [text], after truncation *)
  t_start : Z;            (* [requestStartTime] *)
  t_origin : Origin;
  t_phase : Phase
}.

(** An entry of [audioQueue]; its [resolve]/[reject] pair belongs to the
    promise that [speakText] returned. *)
Record QueueItem := mkItem { q_text : jsstring }.

Record Metrics := mkMetrics {
  totalRequests : nat;
  successfulRequests : nat;
  averageResponseTime : Q;
  lastRequestTime : Z;
  queuedRequests : Z
}.

(** A running fade-out interval of [fadeOutAudio]. *)
Record Fade := mkFade {
  f_element : nat;
  f_originalVolume : Q;
  f_currentStep : nat
}.

(** The module-level variables of the source (first eight fields, same
    names), then the browser side: heap, event loop, document, console and
    network. *)
Record State := mkState {
  pollyClient : bool;   (* [pollyClient !== null] *)
  ttsErrorCount : nat;
  lastErrorTime : option Z;   (* [null] is [None] *)
  activeAudioElements : list nat;   (* a [Set], in insertion order *)
  audioQueue : list QueueItem;
  isProcessingQueue : bool;
  audioSettings : AudioSettings;
  performanceMetrics : Metrics;
  elements : gmap nat AudioElement;   (* the [Audio] objects created so far *)
  tasks : list Task;   (* the calls of [synthesizeAndPlayAudio] *)
  queueTimers : nat;   (* pending [setTimeout(() => processAudioQueue(), ...)] *)
  loopDelays : nat;   (* drain loops waiting on their pacing delay *)
  fades : list Fade;   (* running [fadeInterval]s *)
  listeners : list nat;   (* elements whose [playOnInteraction] is attached *)
  expiries : list nat;   (* pending 30 s timers of [handleAutoplayBlocked] *)
  retries : list nat;   (* pending [play()] promises of [playOnInteraction] *)
  volumeRestores : list (nat * Q);   (* pending 100 ms volume restores *)
  hidden : bool;   (* [document.visibilityState === 'hidden'] *)
  console : list LogEntry;   (* console output, oldest first *)
  sent : list (nat * jsstring);   (* [Text] of every command sent to Polly, with its task *)
  revoked : list nat   (* [URL.revokeObjectURL] calls, by element *)
}.

(** Field updates. *)
Definition set_pollyClient (v : bool) (s : State) : State :=
  mkState v (ttsErrorCount s) (lastErrorTime s) (activeAudioElements s)
    (audioQueue s) (isProcessingQueue s) (audioSettings s) (performanceMetrics s)
    (elements s) (tasks s) (queueTimers s) (loopDelays s) (fades s) (listeners s)
    (expiries s) (retries s) (volumeRestores s) (hidden s) (console s) (sent s)
    (revoked s).
Definition set_ttsErrorCount (v : nat) (s : State) : State :=
  mkState (pollyClient s) v (lastErrorTime s) (activeAudioElements s) (audioQueue s)
    (isProcessingQueue s) (audioSettings s) (performanceMetrics s) (elements s)
    (tasks s) (queueTimers s) (loopDelays s) (fades s) (listeners s) (expiries s)
    (retries s) (volumeRestores s) (hidden s) (console s) (sent s) (revoked s).
Definition set_lastErrorTime (v : option Z) (s : State) : State :=
  mkState (pollyClient s) (ttsErrorCount s) v (activeAudioElements s) (audioQueue s)
    (isProcessingQueue s) (audioSettings s) (performanceMetrics s) (elements s)
    (tasks s) (queueTimers s) (loopDelays s) (fades s) (listeners s) (expiries s)
    (retries s) (volumeRestores s) (hidden s) (console s) (sent s) (revoked s).
Definition set_activeAudioElements (v : list nat) (s : State) : State :=
  mkState (pollyClient s) (ttsErrorCount s) (lastErrorTime s) v (audioQueue s)
    (isProcessingQueue s) (audioSettings s) (performanceMetrics s) (elements s)
    (tasks s) (queueTimers s) (loopDelays s) (fades s) (listeners s) (expiries s)
    (retries s) (volumeRestores s) (hidden s) (console s) (sent s) (revoked s).
Definition set_audioQueue (v : list QueueItem) (s : State) : State :=
  mkState (pollyClient s) (ttsErrorCount s) (lastErrorTime s) (activeAudioElements s)
    v (isProcessingQueue s) (audioSettings s) (performanceMetrics s) (elements s)
    (tasks s) (queueTimers s) (loopDelays s) (fades s) (listeners s) (expiries s)
    (retries s) (volumeRestores s) (hidden s) (console s) (sent s) (revoked s).
Definition set_isProcessingQueue (v : bool) (s : State) : State :=
  mkState (pollyClient s) (ttsErrorCount s) (lastErrorTime s) (activeAudioElements s)
    (audioQueue s) v (audioSettings s) (performanceMetrics s) (elements s) (tasks s)
    (queueTimers s) (loopDelays s) (fades s) (listeners s) (expiries s) (retries s)
    (volumeRestores s) (hidden s) (console s) (sent s) (revoked s).
Definition set_audioSettings (v : AudioSettings) (s : State) : State :=
  mkState (pollyClient s) (ttsErrorCount s) (lastErrorTime s) (activeAudioElements s)
    (audioQueue s) (isProcessingQueue s) v (performanceMetrics s) (elements s)
    (tasks s) (queueTimers s) (loopDelays s) (fades s) (listeners s) (expiries s)
    (retries s) (volumeRestores s) (hidden s) (console s) (sent s) (revoked s).
Definition set_performanceMetrics (v : Metrics) (s : State) : State :=
  mkState (pollyClient s) (ttsErrorCount s) (lastErrorTime s) (activeAudioElements s)
    (audioQueue s) (isProcessingQueue s) (audioSettings s) v (elements s) (tasks s)
    (queueTimers s) (loopDelays s) (fades s) (listeners s) (expiries s) (retries s)
    (volumeRestores s) (hidden s) (console s) (sent s) (revoked s).
Definition set_elements (v : gmap nat AudioElement) (s : State) : State :=
  mkState (pollyClient s) (ttsErrorCount s) (lastErrorTime s) (activeAudioElements s)
    (audioQueue s) (isProcessingQueue s) (audioSettings s) (performanceMetrics s) v
    (tasks s) (queueTimers s) (loopDelays s) (fades s) (listeners s) (expiries s)
    (retries s) (volumeRestores s) (hidden s) (console s) (sent s) (revoked s).
Definition set_tasks (v : list Task) (s : State) : State :=
  mkState (pollyClient s) (ttsErrorCount s) (lastErrorTime s) (activeAudioElements s)
    (audioQueue s) (isProcessingQueue s) (audioSettings s) (performanceMetrics s)
    (elements s) v (queueTimers s) (loopDelays s) (fades s) (listeners s)
    (expiries s) (retries s) (volumeRestores s) (hidden s) (console s) (sent s)
    (revoked s).
Definition set_queueTimers (v : nat) (s : State) : State :=
  mkState (pollyClient s) (ttsErrorCount s) (lastErrorTime s) (activeAudioElements s)
    (audioQueue s) (isProcessingQueue s) (audioSettings s) (performanceMetrics s)
    (elements s) (tasks s) v (loopDelays s) (fades s) (listeners s) (expiries s)
    (retries s) (volumeRestores s) (hidden s) (console s) (sent s) (revoked s).
Definition set_loopDelays (v : nat) (s : State) : State :=
  mkState (pollyClient s) (ttsErrorCount s) (lastErrorTime s) (activeAudioElements s)
    (audioQueue s) (isProcessingQueue s) (audioSettings s) (performanceMetrics s)
    (elements s) (tasks s) (queueTimers s) v (fades s) (listeners s) (expiries s)
    (retries s) (volumeRestores s) (hidden s) (console s) (sent s) (revoked s).
Definition set_fades (v : list Fade) (s : State) : State :=
  mkState (pollyClient s) (ttsErrorCount s) (lastErrorTime s) (activeAudioElements s)
    (audioQueue s) (isProcessingQueue s) (audioSettings s) (performanceMetrics s)
    (elements s) (tasks s) (queueTimers s) (loopDelays s) v (listeners s)
    (expiries s) (retries s) (volumeRestores s) (hidden s) (console s) (sent s)
    (revoked s).
Definition set_listeners (v : list nat) (s : State) : State :=
  mkState (pollyClient s) (ttsErrorCount s) (lastErrorTime s) (activeAudioElements s)
    (audioQueue s) (isProcessingQueue s) (audioSettings s) (performanceMetrics s)
    (elements s) (tasks s) (queueTimers s) (loopDelays s) (fades s) v (expiries s)
    (retries s) (volumeRestores s) (hidden s) (console s) (sent s) (revoked s).
Definition set_expiries (v : list nat) (s : State) : State :=
  mkState (pollyClient s) (ttsErrorCount s) (lastErrorTime s) (activeAudioElements s)
    (audioQueue s) (isProcessingQueue s) (audioSettings s) (performanceMetrics s)
    (elements s) (tasks s) (queueTimers s) (loopDelays s) (fades s) (listeners s) v
    (retries s) (volumeRestores s) (hidden s) (console s) (sent s) (revoked s).
Definition set_retries (v : list nat) (s : State) : State :=
  mkState (pollyClient s) (ttsErrorCount s) (lastErrorTime s) (activeAudioElements s)
    (audioQueue s) (isProcessingQueue s) (audioSettings s) (performanceMetrics s)
    (elements s) (tasks s) (queueTimers s) (loopDelays s) (fades s) (listeners s)
    (expiries s) v (volumeRestores s) (hidden s) (console s) (sent s) (revoked s).
Definition set_volumeRestores (v : list (nat * Q)) (s : State) : State :=
  mkState (pollyClient s) (ttsErrorCount s) (lastErrorTime s) (activeAudioElements s)
    (audioQueue s) (isProcessingQueue s) (audioSettings s) (performanceMetrics s)
    (elements s) (tasks s) (queueTimers s) (loopDelays s) (fades s) (listeners s)
    (expiries s) (retries s) v (hidden s) (console s) (sent s) (revoked s).
Definition set_hidden (v : bool) (s : State) : State :=
  mkState (pollyClient s) (ttsErrorCount s) (lastErrorTime s) (activeAudioElements s)
    (audioQueue s) (isProcessingQueue s) (audioSettings s) (performanceMetrics s)
    (elements s) (tasks s) (queueTimers s) (loopDelays s) (fades s) (listeners s)
    (expiries s) (retries s) (volumeRestores s) v (console s) (sent s) (revoked s).
Definition set_console (v : list LogEntry) (s : State) : State :=
  mkState (pollyClient s) (ttsErrorCount s) (lastErrorTime s) (activeAudioElements s)
    (audioQueue s) (isProcessingQueue s) (audioSettings s) (performanceMetrics s)
    (elements s) (tasks s) (queueTimers s) (loopDelays s) (fades s) (listeners s)
    (expiries s) (retries s) (volumeRestores s) (hidden s) v (sent s) (revoked s).
Definition set_sent (v : list (nat * jsstring)) (s : State) : State :=
  mkState (pollyClient s) (ttsErrorCount s) (lastErrorTime s) (activeAudioElements s)
    (audioQueue s) (isProcessingQueue s) (audioSettings s) (performanceMetrics s)
    (elements s) (tasks s) (queueTimers s) (loopDelays s) (fades s) (listeners s)
    (expiries s) (retries s) (volumeRestores s) (hidden s) (console s) v (revoked s).
Definition set_revoked (v : list nat) (s : State) : State :=
  mkState (pollyClient s) (ttsErrorCount s) (lastErrorTime s) (activeAudioElements s)
    (audioQueue s) (isProcessingQueue s) (audioSettings s) (performanceMetrics s)
    (elements s) (tasks s) (queueTimers s) (loopDelays s) (fades s) (listeners s)
    (expiries s) (retries s) (volumeRestores s) (hidden s) (console s) (sent s) v.

(** Sequencing of state transformers, in source order. *)
Notation "s |> f" := (f s) (at level 45, left associativity, only parsing).

Definition log (l : Level) (m : string) (s : State) : State :=
  set_console (console s ++ [(l, m)]) s.

Definition logs (ls : list LogEntry) (s : State) : State :=
  set_console (console s ++ ls) s.

(** [URL.revokeObjectURL] on the blob URL of element [e]. *)
Definition revokeObjectURL (e : nat) (s : State) : State :=
  set_revoked (revoked s ++ [e]) s.

(** [activeAudioElements.add] and [.delete]. *)
Definition set_add (e : nat) (l : list nat) : list nat :=
  if bool_decide (e ∈ l) then l else l ++ [e].

Definition set_delete (e : nat) (l : list nat) : list nat :=
  filter (λ x, x ≠ e) l.

Definition active_add (e : nat) (s : State) : State :=
  set_activeAudioElements (set_add e (activeAudioElements s)) s.

Definition active_delete (e : nat) (s : State) : State :=
  set_activeAudioElements (set_delete e (activeAudioElements s)) s.

Definition update_element (e : nat) (f : AudioElement -> AudioElement) (s : State) : State :=
  set_elements (alter f e (elements s)) s.

Definition with_volume (v : Q) (a : AudioElement) : AudioElement :=
  mkAudio v (paused a) (ended a) (error a).
Definition with_paused (b : bool) (a : AudioElement) : AudioElement :=
  mkAudio (volume a) b (ended a) (error a).
Definition with_ended (b : bool) (a : AudioElement) : AudioElement :=
  mkAudio (volume a) (paused a) b (error a).
Definition with_error (b : bool) (a : AudioElement) : AudioElement :=
  mkAudio (volume a) (paused a) (ended a) b.

(** [setTimeout(() => processAudioQueue(), ...)] *)
Definition schedule_processAudioQueue (s : State) : State :=
  set_queueTimers (S (queueTimers s)) s.

(** [activeAudioElements.size >= audioSettings.maxConcurrentAudio] *)
Definition at_capacity (s : State) : bool :=
  size_ge (length (activeAudioElements s)) (maxConcurrentAudio (audioSettings s)).

(** ** The circuit breaker *)

Definition MAX_ERROR_COUNT : nat := 5.
Definition ERROR_RESET_TIME : Z := 300000.

(** [isTtsTemporarilyDisabled()] at time [now]: the answer and the state it
    leaves.  A time stamp is truthy when it is not 0. *)
Definition isTtsTemporarilyDisabled (now : Z) (s : State) : bool * State :=
  if (ttsErrorCount s <? MAX_ERROR_COUNT)%nat then (false, s)
  else
    match lastErrorTime s with
    | Some t =>
        if negb (t =? 0)%Z && (ERROR_RESET_TIME <? now - t)%Z then
          (false,
           s |> log LOG "TTS_RECOVERY: Error count reset after timeout, re-enabling TTS"
             |> set_ttsErrorCount 0%nat
             |> set_lastErrorTime None)
        else (true, s)
    | None => (true, s)
    end.

(** [recordTtsError(errorType)] at time [now]. *)
Definition recordTtsError (errorType : string) (now : Z) (s : State) : State :=
  let s1 :=
    s |> set_ttsErrorCount (S (ttsErrorCount s))
      |> set_lastErrorTime (Some now)
      |> log WARN "TTS_ERROR_TRACKING: Error count increased" in
  if (MAX_ERROR_COUNT <=? ttsErrorCount s1)%nat then
    s1 |> log WARN "TTS_CIRCUIT_BREAKER: TTS temporarily disabled due to repeated errors."
  else s1.

(** The object that [getTtsStatus()] returns (the two fields read from the
    configuration module are left out). *)
Record TtsStatus := mkStatus {
  clientInitialized : bool;
  errorCount : nat;
  st_lastErrorTime : option Z;
  temporarilyDisabled : bool
}.

(** [getTtsStatus()]: the properties are evaluated in order, so [errorCount]
    and [lastErrorTime] are read before [isTtsTemporarilyDisabled()] runs. *)
Definition getTtsStatus (now : Z) (s : State) : TtsStatus * State :=
  let (d, s') := isTtsTemporarilyDisabled now s in
  (mkStatus (pollyClient s) (ttsErrorCount s) (lastErrorTime s) d, s').

(** [isPollyAvailable()] *)
Definition isPollyAvailable (now : Z) (s : State) : bool * State :=
  if pollyClient s then
    let (d, s') := isTtsTemporarilyDisabled now s in (negb d, s')
  else (false, s).

(** [resetTtsErrors()] *)
Definition resetTtsErrors (s : State) : State :=
  s |> set_ttsErrorCount 0%nat
    |> set_lastErrorTime None
    |> log LOG "TTS_RECOVERY: Error tracking manually reset".

(** ** Client and settings *)

Record AwsConfig := mkConfig {
  accessKeyId : option jsstring;
  secretAccessKey : option jsstring;
  region : option jsstring
}.

(** [!x || x.trim() === ''] *)
Definition blank (x : option jsstring) : bool :=
  match x with
  | Some v => match trim v with [] => true | _ :: _ => false end
  | None => true
  end.

(** [initializePollyClient()] when the client constructor does not throw. *)
Definition initializePollyClient (cfg : AwsConfig) (s : State) : State :=
  if blank (accessKeyId cfg) then
    s |> log WARN "TTS_INIT_ERROR: AWS Access Key ID not found or empty. TTS functionality will be disabled."
  else if blank (secretAccessKey cfg) then
    s |> log WARN "TTS_INIT_ERROR: AWS Secret Access Key not found or empty. TTS functionality will be disabled."
  else
    let s1 :=
      if blank (region cfg) then
        s |> log WARN "TTS_INIT_ERROR: AWS region not configured. Using default us-east-1."
      else s in
    s1 |> set_pollyClient true
       |> log LOG "TTS_SUCCESS: AWS Polly client initialized successfully".

(** [configureAudioSettings(settings)] *)
Definition configureAudioSettings (p : PartialSettings) (s : State) : State :=
  s |> set_audioSettings (configured (audioSettings s) p)
    |> log LOG "TTS_AUDIO_CONFIG: Audio settings updated:".

Definition with_defaultVolume (v : JsNumber) (a : AudioSettings) : AudioSettings :=
  mkSettings (maxConcurrentAudio a) v (fadeOutDuration a) (queueProcessingDelay a).

(** [setAudioVolume(volume)]: the error it throws, if any, and the state it
    leaves.  The normalized volume is stored first; the write to the first
    active element throws when it is [NaN], which ends the call before the
    log line. *)
Definition setAudioVolume (volume : JsArg) (s : State) : option JsError * State :=
  let normalizedVolume := clamp 0 1 (ToNumber volume) in
  let s1 := set_audioSettings (with_defaultVolume normalizedVolume (audioSettings s)) s in
  match volume_setter normalizedVolume with
  | inr w =>
      (None,
       foldl (λ acc e, update_element e (with_volume w) acc) s1 (activeAudioElements s)
       |> log LOG "TTS_AUDIO_CONTROL: Volume set to")
  | inl thrown =>
      match activeAudioElements s with
      | [] => (None, s1 |> log LOG "TTS_AUDIO_CONTROL: Volume set to")
      | _ :: _ => (Some thrown, s1)
      end
  end.

(** [stopAllAudio()] *)
Definition stopAllAudio (s : State) : State :=
  let s1 := s |> log LOG "TTS_AUDIO_CONTROL: Stopping all active audio" in
  foldl (λ acc e, acc |> update_element e (with_paused true) |> revokeObjectURL e) s1
        (activeAudioElements s)
  |> set_activeAudioElements []
  |> set_audioQueue []
  |> set_isProcessingQueue false
  |> log LOG "TTS_AUDIO_SUCCESS: All audio stopped and queue cleared".

(** ** Admission: cleaning the active set and fading out the oldest *)

Definition fadeSteps : nat := 20.

(** [fadeOutAudio(audioElement)]: starts the interval. *)
Definition fadeOutAudio (e : nat) (s : State) : State :=
  match elements s !! e with
  | Some a =>
      if paused a then s
      else set_fades (fades s ++ [mkFade e (volume a) 0]) s
  | None => s
  end.

(** One tick of fade interval number [i]. *)
Definition fade_tick (i : nat) (s : State) : option State :=
  f ← fades s !! i;
  let currentStep := S (f_currentStep f) in
  let volumeStep := (f_originalVolume f / inject_Z (Z.of_nat fadeSteps))%Q in
  let v := Qmax 0 (f_originalVolume f - volumeStep * inject_Z (Z.of_nat currentStep))%Q in
  let s1 := update_element (f_element f) (with_volume v) s in
  if (fadeSteps <=? currentStep)%nat || Qle_bool v 0 then
    Some (s1 |> set_fades (delete i (fades s))
             |> update_element (f_element f) (with_paused true)
             |> active_delete (f_element f)
             |> revokeObjectURL (f_element f))
  else
    Some (s1 |> set_fades (<[i := mkFade (f_element f) (f_originalVolume f) currentStep]> (fades s))).

(** [audioElement.ended || audioElement.error || audioElement.paused] *)
Definition finished (s : State) (e : nat) : bool :=
  match elements s !! e with
  | Some a => ended a || error a || paused a
  | None => false
  end.

(** [manageAudioConcurrency()] *)
Definition manageAudioConcurrency (s : State) : State :=
  let elementsToRemove := filter (λ e, finished s e = true) (activeAudioElements s) in
  let s1 :=
    foldl (λ acc e, acc |> active_delete e |> revokeObjectURL e) s elementsToRemove in
  if at_capacity s1 then
    match activeAudioElements s1 with
    | oldestElement :: _ => fadeOutAudio oldestElement s1
    | [] => s1
    end
  else s1.

(** ** The drain loop of [processAudioQueue] *)

(** Leaving the [while] loop: the flag is cleared and, when entries remain,
    another attempt is scheduled. *)
Definition queue_loop_exit (s : State) : State :=
  let s1 := set_isProcessingQueue false s in
  match audioQueue s1 with
  | [] => s1
  | _ :: _ => schedule_processAudioQueue s1
  end.

(** After [await processAudioRequest(queueItem)]: with entries left the loop
    waits [queueProcessingDelay]; with none, the loop condition fails. *)
Definition after_queue_item (s : State) : State :=
  match audioQueue s with
  | [] => queue_loop_exit s
  | _ :: _ => set_loopDelays (S (loopDelays s)) s
  end.

Definition with_phase (p : Phase) (t : Task) : Task :=
  mkTask (t_text t) (t_start t) (t_origin t) p.

Definition set_phase (rid : nat) (p : Phase) (s : State) : State :=
  set_tasks (alter (with_phase p) rid (tasks s)) s.

(** The promise of call [rid] of [synthesizeAndPlayAudio] settles, and the
    function that awaits it goes on: [speakText] rethrows a rejection after a
    warning; [processAudioRequest] calls [resolve] or [reject] and hands
    control back to the drain loop. *)
Definition settle (rid : nat) (c : Completion) (s : State) : State :=
  match tasks s !! rid with
  | Some t =>
      let s1 := set_phase rid (Settled c) s in
      match t_origin t with
      | Direct =>
          match c with
          | Resolved => s1
          | Rejected _ => s1 |> log WARN "TTS_DIRECT_ERROR: Failed to process audio directly:"
          end
      | FromQueue => after_queue_item s1
      end
  | None => s
  end.

(** ** [synthesizeAndPlayAudio] *)

Definition maxTextLength : nat := 3000.

Arguments maxTextLength : simpl never.
Arguments substring0 : simpl never.
Arguments maxReads : simpl never.

(** The [catch (error)] block of [synthesizeAndPlayAudio]: the error type it
    assigns and the state it leaves. *)
Definition classify_and_record (e : JsError) (now : Z) (s : State) : string * State :=
  if String.eqb (err_message e) "API_TIMEOUT" then
    ("TIMEOUT",
     s |> log WARN "TTS_TIMEOUT_ERROR: AWS Polly API request timed out"
       |> recordTtsError "TIMEOUT" now)
  else if String.eqb (err_name e) "CredentialsProviderError" || code_is e "CredentialsError" then
    ("CREDENTIALS",
     s |> log ERROR "TTS_CREDENTIALS_ERROR: AWS credentials are invalid or expired"
       |> set_pollyClient false
       |> recordTtsError "CREDENTIALS" now)
  else if String.eqb (err_name e) "NetworkingError" || code_is e "NetworkingError" then
    ("NETWORK",
     s |> log WARN "TTS_NETWORK_ERROR: Network connectivity issue during TTS request"
       |> recordTtsError "NETWORK" now)
  else if code_is e "Throttling" || code_is e "ThrottlingException" then
    ("RATE_LIMIT",
     s |> log WARN "TTS_RATE_LIMIT_ERROR: AWS Polly API rate limit exceeded"
       |> recordTtsError "RATE_LIMIT" now)
  else if code_is e "InvalidParameterValue" || code_is e "ValidationException" then
    ("PARAMETER",
     s |> log ERROR "TTS_PARAMETER_ERROR: Invalid parameters sent to Polly API")
  else if code_is e "ServiceUnavailable" || code_is e "InternalFailure" then
    ("SERVICE",
     s |> log WARN "TTS_SERVICE_ERROR: AWS Polly service temporarily unavailable"
       |> recordTtsError "SERVICE" now)
  else
    ("UNKNOWN",
     s |> log WARN "TTS_UNKNOWN_ERROR: Unexpected error during text-to-speech:"
       |> recordTtsError "UNKNOWN" now).

(** The catch block, followed by the normal return of the function. *)
Definition catch_synthesis (e : JsError) (rid : nat) (now : Z) (s : State) : State :=
  settle rid Resolved (snd (classify_and_record e now s)).

(** From the call to the first [await]: truncation, the command, the log line
    and [pollyClient.send(command)]. *)
Definition synthesizeAndPlayAudio (text : jsstring) (requestStartTime : Z)
    (origin : Origin) (now : Z) (s : State) : State :=
  let rid := length (tasks s) in
  let too_long := (maxTextLength <? length text)%nat in
  let text1 := if too_long then substring0 maxTextLength text else text in
  let s1 :=
    if too_long then s |> log WARN "TTS_INPUT_ERROR: Text too long. Truncating." else s in
  let s2 :=
    s1 |> log LOG "TTS_REQUEST: Synthesizing speech for text:"
       |> set_tasks (tasks s1 ++ [mkTask text1 requestStartTime origin AwaitRace]) in
  if pollyClient s2 then s2 |> set_sent (sent s2 ++ [(rid, trim text1)])
  else s2 |> catch_synthesis null_client_TypeError rid now.

(** [handleAutoplayBlocked(audioElement, audioUrl)]: the three one-shot
    listeners and the 30 s timer. *)
Definition handleAutoplayBlocked (e : nat) (s : State) : State :=
  s |> set_listeners (listeners s ++ [e])
    |> set_expiries (expiries s ++ [e]).

(** The [catch (playError)] block, then the normal return. *)
Definition play_catch (rid : nat) (playError : JsError) (s : State) : State :=
  let s1 := active_delete rid s in
  let s2 :=
    if String.eqb (err_name playError) "NotAllowedError" then
      s1 |> log WARN "TTS_AUDIO_POLICY: Audio autoplay blocked by browser policy"
         |> handleAutoplayBlocked rid
    else if String.eqb (err_name playError) "NotSupportedError" then
      s1 |> log WARN "TTS_AUDIO_ERROR: Audio format not supported by browser"
    else
      s1 |> log WARN "TTS_AUDIO_ERROR: Audio playback failed:" in
  s2 |> revokeObjectURL rid
     |> schedule_processAudioQueue
     |> settle rid Resolved.

(** The statements after [await handleAutoplayOptimization(audioElement)]
    when it returns: the success line and the metrics. *)
Definition play_started (rid : nat) (now : Z) (s : State) : State :=
  match tasks s !! rid with
  | Some t =>
      let m := performanceMetrics s in
      let responseTime := (now - t_start t)%Z in
      let n := S (successfulRequests m) in
      let avg :=
        ((averageResponseTime m * inject_Z (Z.of_nat n - 1) + inject_Z responseTime)
         / inject_Z (Z.of_nat n))%Q in
      s |> log LOG "TTS_AUDIO_SUCCESS: Audio playback started successfully"
        |> set_performanceMetrics
             (mkMetrics (totalRequests m) n avg responseTime (queuedRequests m))
        |> settle rid Resolved
  | None => s
  end.

(** [handleAutoplayOptimization(audioElement)] up to its first [await]: on a
    hidden page it throws [new Error('NotAllowedError: Page not visible')],
    which the caller's [catch (playError)] receives; otherwise it calls
    [play()], which unpauses the element, and waits. *)
Definition handleAutoplayOptimization (rid : nat) (s : State) : State :=
  if hidden s then
    play_catch rid (new_Error "NotAllowedError: Page not visible") s
  else
    s |> update_element rid (with_paused false)
      |> set_phase rid AwaitPlay.

(** What the awaited race gives. *)
Inductive Response :=
| NoAudioStream                   (* falsy response, or no [AudioStream] *)
| AudioStream (stream : Stream).

Inductive RaceOutcome :=
| RaceRejected (e : JsError)      (* [send] failed, or the 10 s timer won *)
| RaceFulfilled (r : Response).

(** The error of the timeout promise. *)
Definition API_TIMEOUT : JsError := new_Error "API_TIMEOUT".

(** From the settled race to the next [await] (the reads of the stream touch
    no module variable, so they are taken together with what follows).  The
    write of [audioSettings.defaultVolume] to the new element is inside the
    outer [try]: when the setter throws, the catch block classifies the error
    and the element is never added. *)
Definition on_race (rid : nat) (o : RaceOutcome) (now : Z) (s : State) : State :=
  match o with
  | RaceRejected e => catch_synthesis e rid now s
  | RaceFulfilled NoAudioStream =>
      s |> log WARN "TTS_API_ERROR: No audio stream received from Polly API"
        |> settle rid Resolved
  | RaceFulfilled (AudioStream stream) =>
      let a := streamToUint8Array stream in
      let s1 := logs (as_logs a) s in
      match as_result a with
      | inl streamError =>
          s1 |> log ERROR "TTS_STREAM_ERROR: Failed to process audio stream:"
             |> settle rid Resolved
      | inr audioBytes =>
          if (length audioBytes =? 0)%nat then
            s1 |> log WARN "TTS_STREAM_ERROR: Empty audio data received"
               |> settle rid Resolved
          else
            match volume_setter (defaultVolume (audioSettings s1)) with
            | inl thrown => catch_synthesis thrown rid now s1
            | inr volume =>
                s1 |> set_elements
                        (<[rid := mkAudio volume true false false]> (elements s1))
                   |> active_add rid
                   |> handleAutoplayOptimization rid
            end
      end
  end.

(** A settled [play()] promise of [handleAutoplayOptimization]: [None] when
    playback started, the rejection otherwise. *)
Definition on_play (rid : nat) (o : option JsError) (now : Z) (s : State) : option State :=
  t ← tasks s !! rid;
  match t_phase t, o with
  | AwaitPlay, None => Some (play_started rid now s)
  | AwaitPlay, Some e =>
      if String.eqb (err_name e) "NotAllowedError" then
        a ← elements s !! rid;
        Some (s |> update_element rid (with_volume (1 # 10))
                |> set_phase rid (AwaitQuietPlay (volume a)))
      else Some (play_catch rid e s)
  | AwaitQuietPlay originalVolume, None =>
      Some (s |> set_volumeRestores (volumeRestores s ++ [(rid, originalVolume)])
              |> play_started rid now)
  | AwaitQuietPlay originalVolume, Some secondError =>
      Some (s |> update_element rid (with_volume originalVolume)
              |> play_catch rid secondError)
  | _, _ => None
  end.

(** The [while] loop of [processAudioQueue], from its condition to the next
    [await]. *)
Definition queue_loop (now : Z) (s : State) : State :=
  match audioQueue s with
  | queueItem :: rest =>
      if at_capacity s then queue_loop_exit s
      else
        let m := performanceMetrics s in
        s |> set_audioQueue rest
          |> set_performanceMetrics
               (mkMetrics (totalRequests m) (successfulRequests m)
                  (averageResponseTime m) (lastRequestTime m) (queuedRequests m - 1))
          |> synthesizeAndPlayAudio (q_text queueItem) now FromQueue now
  | [] => queue_loop_exit s
  end.

(** [processAudioQueue()] *)
Definition processAudioQueue (now : Z) (s : State) : State :=
  if isProcessingQueue s then s
  else
    match audioQueue s with
    | [] => s
    | _ :: _ => s |> set_isProcessingQueue true |> queue_loop now
    end.

(** ** [speakText] *)

(** [!text || typeof text !== 'string' || text.trim().length === 0] *)
Definition invalid_text (text : JsValue) : bool :=
  match text with
  | JString t => match trim t with [] => true | _ :: _ => false end
  | JOther => true
  end.

Definition count_request (s : State) : State :=
  let m := performanceMetrics s in
  set_performanceMetrics
    (mkMetrics (S (totalRequests m)) (successfulRequests m)
       (averageResponseTime m) (lastRequestTime m) (queuedRequests m)) s.

Definition count_queued (s : State) : State :=
  let m := performanceMetrics s in
  set_performanceMetrics
    (mkMetrics (totalRequests m) (successfulRequests m)
       (averageResponseTime m) (lastRequestTime m) (queuedRequests m + 1)) s.

(** How a call of [speakText] leaves its synchronous part. *)
Inductive SpeakResult :=
| Returned            (* the promise is already resolved *)
| Queued              (* the promise waits in [audioQueue] *)
| Awaiting (rid : nat). (* the promise follows call [rid] of [synthesizeAndPlayAudio] *)

(** [speakText(text)] at time [now], up to its first [await]. *)
Definition speakText (text : JsValue) (now : Z) (s : State) : SpeakResult * State :=
  let s0 := count_request s in
  match text with
  | JOther =>
      (Returned, s0 |> log WARN "TTS_INPUT_ERROR: Invalid or empty text provided to speakText")
  | JString t =>
      if invalid_text text then
        (Returned, s0 |> log WARN "TTS_INPUT_ERROR: Invalid or empty text provided to speakText")
      else if negb (pollyClient s0) then
        (Returned, s0 |> log WARN "TTS_CLIENT_ERROR: Polly client not available, skipping TTS")
      else
        let (disabled, s1) := isTtsTemporarilyDisabled now s0 in
        if disabled then
          (Returned,
           s1 |> log WARN "TTS_CIRCUIT_BREAKER: TTS temporarily disabled due to repeated errors, skipping request")
        else
          let s2 := manageAudioConcurrency s1 in
          if at_capacity s2 then
            (Queued,
             s2 |> log LOG "TTS_QUEUE: Audio at capacity, queuing request"
                |> count_queued
                |> set_audioQueue (audioQueue s2 ++ [mkItem t])
                |> schedule_processAudioQueue)
          else
            (Awaiting (length (tasks s2)), synthesizeAndPlayAudio t now Direct now s2)
  end.

(** ** Autoplay recovery and media events *)

(** [playOnInteraction] of element [e]: the retry, and the removal of its
    three listeners. *)
Definition playOnInteraction (e : nat) (s : State) : State :=
  s |> update_element e (with_paused false)
    |> set_retries (retries s ++ [e])
    |> set_listeners (set_delete e (listeners s)).

(** A click, key press or touch on the document: every attached
    [playOnInteraction] runs. *)
Definition gesture (s : State) : State :=
  foldl (λ acc e, playOnInteraction e acc) s (listeners s).

(** The retried [play()] settles: [.then] or [.catch] of [playOnInteraction]. *)
Definition on_retry (e : nat) (started : bool) (s : State) : State :=
  let s1 := set_retries (set_delete e (retries s)) s in
  if started then
    s1 |> log LOG "TTS_AUDIO_SUCCESS: Delayed audio playback after user interaction"
       |> active_add e
  else
    s1 |> revokeObjectURL e.

(** The 30 s timer of [handleAutoplayBlocked]. *)
Definition on_expire (e : nat) (s : State) : State :=
  s |> set_expiries (set_delete e (expiries s))
    |> set_listeners (set_delete e (listeners s))
    |> revokeObjectURL e.

(** The ['ended'] listener. *)
Definition on_ended (e : nat) (s : State) : State :=
  s |> update_element e (with_ended true)
    |> log LOG "TTS_AUDIO_SUCCESS: Audio playback completed"
    |> active_delete e
    |> revokeObjectURL e
    |> schedule_processAudioQueue.

(** The ['error'] listener. *)
Definition on_error (e : nat) (s : State) : State :=
  s |> update_element e (with_error true)
    |> log WARN "TTS_AUDIO_ERROR: Audio playback error occurred"
    |> active_delete e
    |> revokeObjectURL e
    |> schedule_processAudioQueue.

(** The ['pause'] listener; [currentTimeZero] is [audioElement.currentTime === 0]. *)
Definition on_pause (e : nat) (currentTimeZero : bool) (s : State) : State :=
  let s1 := update_element e (with_paused true) s in
  if currentTimeZero || from_option ended false (elements s1 !! e) then
    s1 |> active_delete e
       |> revokeObjectURL e
       |> schedule_processAudioQueue
  else s1.

(** The 100 ms timer that restores the volume after a quiet start. *)
Definition on_volume_restore (i : nat) (s : State) : option State :=
  r ← volumeRestores s !! i;
  Some (s |> update_element (fst r) (with_volume (snd r))
          |> set_volumeRestores (delete i (volumeRestores s))).

(** ** The event loop *)

Inductive Event :=
(* calls from the game or the console *)
| EvInitialize (cfg : AwsConfig)
| EvSpeak (text : JsValue)
| EvGetStatus
| EvIsAvailable
| EvResetErrors
| EvConfigure (p : PartialSettings)
| EvSetVolume (volume : JsArg)
| EvStopAll
(* settled promises *)
| EvRace (rid : nat) (o : RaceOutcome)
| EvPlay (rid : nat) (o : option JsError)
| EvRetry (e : nat) (started : bool)
(* timers *)
| EvQueueTimer
| EvLoopDelay
| EvFadeTick (i : nat)
| EvVolumeRestore (i : nat)
| EvExpire (e : nat)
(* document and media events *)
| EvGesture
| EvVisibility (isHidden : bool)
| EvEnded (e : nat)
| EvMediaError (e : nat)
| EvPaused (e : nat) (currentTimeZero : bool).

(** One turn of the event loop at time [now]; [None] when the event cannot
    occur in this state (no such pending promise, timer or element). *)
Definition step (now : Z) (ev : Event) (s : State) : option State :=
  match ev with
  | EvInitialize cfg => Some (initializePollyClient cfg s)
  | EvSpeak text => Some (snd (speakText text now s))
  | EvGetStatus => Some (snd (getTtsStatus now s))
  | EvIsAvailable => Some (snd (isPollyAvailable now s))
  | EvResetErrors => Some (resetTtsErrors s)
  | EvConfigure p => Some (configureAudioSettings p s)
  | EvSetVolume volume => Some (snd (setAudioVolume volume s))
  | EvStopAll => Some (stopAllAudio s)
  | EvRace rid o =>
      t ← tasks s !! rid;
      match t_phase t with
      | AwaitRace => Some (on_race rid o now s)
      | _ => None
      end
  | EvPlay rid o => _ ← elements s !! rid; on_play rid o now s
  | EvRetry e started =>
      if bool_decide (e ∈ retries s) then Some (on_retry e started s) else None
  | EvQueueTimer =>
      match queueTimers s with
      | S n => Some (s |> set_queueTimers n |> processAudioQueue now)
      | O => None
      end
  | EvLoopDelay =>
      match loopDelays s with
      | S n => Some (s |> set_loopDelays n |> queue_loop now)
      | O => None
      end
  | EvFadeTick i => fade_tick i s
  | EvVolumeRestore i => on_volume_restore i s
  | EvExpire e =>
      if bool_decide (e ∈ expiries s) then Some (on_expire e s) else None
  | EvGesture => Some (gesture s)
  | EvVisibility h => Some (set_hidden h s)
  | EvEnded e => _ ← elements s !! e; Some (on_ended e s)
  | EvMediaError e => _ ← elements s !! e; Some (on_error e s)
  | EvPaused e z => _ ← elements s !! e; Some (on_pause e z s)
  end.

(** A run: events with their times, delivered in order. *)
Fixpoint run (trace : list (Z * Event)) (s : State) : option State :=
  match trace with
  | [] => Some s
  | (now, ev) :: rest => s' ← step now ev s; run rest s'
  end.

(** The module right after it is loaded. *)
Definition initial : State :=
  {| pollyClient := false;
     ttsErrorCount := 0;
     lastErrorTime := None;
     activeAudioElements := [];
     audioQueue := [];
     isProcessingQueue := false;
     audioSettings := mkSettings (Num 3) (Num (7 # 10)) (Num 500) (ANumber (Num 100));
     performanceMetrics := mkMetrics 0 0 0 0 0;
     elements := ∅;
     tasks := [];
     queueTimers := 0;
     loopDelays := 0;
     fades := [];
     listeners := [];
     expiries := [];
     retries := [];
     volumeRestores := [];
     hidden := false;
     console := [];
     sent := [];
     revoked := [] |}.

(** The configuration of the game: placeholder credentials are not blank, and
    the game asks for two concurrent streams. *)
Definition game_config : AwsConfig :=
  mkConfig (Some (str "YOUR_AWS_ACCESS_KEY_ID"))
           (Some (str "YOUR_AWS_SECRET_ACCESS_KEY"))
           (Some (str "us-east-1")).

Definition game_settings : PartialSettings :=
  mkPartial (Some (ANumber (Num 2))) (Some (ANumber (Num (6 # 10))))
            (Some (ANumber (Num 300))) (Some (ANumber (Num 50))).

(** A well-formed MP3 answer: one chunk, then the end of the stream. *)
Definition one_chunk : Stream :=
  λ i, match i with O => ReadChunk (Some [x49; x44; x33]) | _ => ReadDone end.

(** The game after start-up. *)
Definition started : option State :=
  run [(0, EvInitialize game_config); (0, EvConfigure game_settings)]%Z initial.

(** The game once it has started: client ready, two concurrent streams. *)
Definition ready : State :=
  initial |> initializePollyClient game_config
          |> configureAudioSettings game_settings.

(** ** Reference notions used in the statements *)

(** A finite number between two bounds. *)
Definition between (lo hi : Q) (x : JsNumber) : Prop :=
  match x with
  | Num q => (lo <= q)%Q ∧ (q <= hi)%Q
  | _ => False
  end.



(** The stream is still incomplete after [n] reads: each of them gave a
    chunk. *)
Definition incomplete_after (n : nat) (stream : Stream) : Prop :=
  ∀ i, (i < n)%nat → ∃ value, stream i = ReadChunk value.

(** The non-empty chunks among reads [from .. from + n - 1]. *)
Fixpoint kept_chunks (stream : Stream) (from n : nat) : list (list byte) :=
  match n with
  | O => []
  | S n' =>
      match stream from with
      | ReadChunk (Some v) =>
          if (0 <? length v)%nat then v :: kept_chunks stream (S from) n'
          else kept_chunks stream (S from) n'
      | _ => kept_chunks stream (S from) n'
      end
  end.

(** A stream that never delivers a byte. *)
Definition zero_bytes (stream : Stream) : Prop :=
  ∀ i v, stream i = ReadChunk (Some v) → v = [].

(** A stream that never ends: one byte per read. *)
Definition endless : Stream := λ _, ReadChunk (Some [x00]).


(** The catch block run on a failure observed at a given time. *)
Definition fail (s : State) (f : JsError * Z) : State :=
  snd (classify_and_record (fst f) (snd f) s).

(** A call of [speakText] at a given time, keeping only the state. *)
Definition call (s : State) (c : JsValue * Z) : State :=
  snd (speakText (fst c) (snd c) s).

(** The breaker part of the state. *)
Definition breaker (s : State) : nat * option Z := (ttsErrorCount s, lastErrorTime s).

(** Five timeouts, one per second, and the game after them. *)
Definition five_timeouts : list (JsError * Z) :=
  [(API_TIMEOUT, 1000); (API_TIMEOUT, 2000); (API_TIMEOUT, 3000);
   (API_TIMEOUT, 4000); (API_TIMEOUT, 5000)]%Z.

Definition broken : State := foldl fail ready five_timeouts.


(** Some texts and answers for the scenarios below. *)
Definition say (text : string) : Event := EvSpeak (JString (str text)).
Definition mp3 (rid : nat) : Event := EvRace rid (RaceFulfilled (AudioStream one_chunk)).
Definition NotAllowedError : JsError :=
  mkError "NotAllowedError" "play() failed because the user didn't interact with the document first." None.

(** Three calls back to back: all three are made before any answer arrives. *)
Definition three_calls_back_to_back : list (Z * Event) :=
  [(10, say "A"); (11, say "B"); (12, say "C");
   (200, mp3 0); (210, EvPlay 0 None);
   (220, mp3 1); (230, EvPlay 1 None);
   (240, mp3 2); (250, EvPlay 2 None)]%Z.

(** No gesture yet: the autoplay policy refuses A, B and C (both attempts
    each) and the three elements wait; then the user clicks and the three
    retried [play()] calls succeed. *)
Definition blocked_then_clicked : list (Z * Event) :=
  [(10, say "A"); (200, mp3 0);
   (210, EvPlay 0 (Some NotAllowedError)); (220, EvPlay 0 (Some NotAllowedError));
   (1000, say "B"); (1200, mp3 1);
   (1210, EvPlay 1 (Some NotAllowedError)); (1220, EvPlay 1 (Some NotAllowedError));
   (2000, say "C"); (2200, mp3 2);
   (2210, EvPlay 2 (Some NotAllowedError)); (2220, EvPlay 2 (Some NotAllowedError));
   (3000, EvGesture);
   (3010, EvRetry 0 true); (3011, EvRetry 1 true); (3012, EvRetry 2 true)]%Z.

(** A and B are playing when C is called; A ends; D is called before the
    queue timer fires. *)
Definition two_playing_then_C : list (Z * Event) :=
  [(10, say "A"); (200, mp3 0); (210, EvPlay 0 None);
   (1000, say "B"); (1200, mp3 1); (1210, EvPlay 1 None);
   (2000, say "C")]%Z.

Definition A_ends_then_D : list (Z * Event) :=
  two_playing_then_C ++ [(2100, EvEnded 0); (2110, say "D")]%Z.

Definition A_ends_then_drain : list (Z * Event) :=
  two_playing_then_C ++ [(2100, EvEnded 0); (2150, EvQueueTimer)]%Z.

(** The page is hidden when the answer arrives. *)
Definition hidden_when_answered : list (Z * Event) :=
  [(10, say "hello"); (20, EvVisibility true); (200, mp3 0)]%Z.

(** The page is visible and the browser refuses both [play()] attempts. *)
Definition refused_when_answered : list (Z * Event) :=
  [(10, say "hello"); (200, mp3 0);
   (210, EvPlay 0 (Some NotAllowedError)); (220, EvPlay 0 (Some NotAllowedError))]%Z.

(** ** The invariant behind "never enters the active set" *)

(** Every member of the active set, every element waiting for a gesture and
    every element being retried is an element that was created; an element
    exists only for a call that is past its race and is not in [dead]; and
    the calls in [dead] are settled.  With [dead] empty this holds of every
    reachable state; with [dead] a call that settled without an element, it
    says that the call never gets one. *)
Record Inv (dead : nat → Prop) (s : State) : Prop := mkInv {
  inv_sets : ∀ e,
    e ∈ activeAudioElements s ∨ e ∈ listeners s ∨ e ∈ retries s → e ∈ dom (elements s);
  inv_elements : ∀ e,
    e ∈ dom (elements s) → ¬ dead e ∧ ∃ t, tasks s !! e = Some t ∧ t_phase t ≠ AwaitRace;
  inv_dead : ∀ e, dead e → ∃ t c, tasks s !! e = Some t ∧ t_phase t = Settled c
}.

(** The part of the state the invariant reads, apart from the active set. *)
Definition core (s : State) : list Task * gset nat * list nat * list nat :=
  (tasks s, dom (elements s), listeners s, retries s).

(** A handler that changes none of it and only removes from the active set. *)
Definition quiet (s s' : State) : Prop :=
  core s' = core s ∧ activeAudioElements s' ⊆ activeAudioElements s.

(** What the other handlers leave of the queue, the tasks and the requests
    sent. *)
Definition traffic (s : State) : list QueueItem * list Task * list (nat * jsstring) :=
  (audioQueue s, tasks s, sent s).

(** The stream of an empty answer: the end at the first read. *)
Definition empty_stream : Stream := λ _, ReadDone.

(** A text of 3501 units: a space, then 3500 letters. *)
Definition padded_text : jsstring := 32%N :: replicate 3500 97%N.

(** A text of 4000 letters. *)
Definition long_text : jsstring := replicate 4000 97%N.

(** ** Further notions for the properties of the whole module *)

(** The stream that delivers the chunks of a list in order, then ends. *)
Definition stream_of (chunks : list (list byte)) : Stream :=
  λ i, match chunks !! i with
       | Some c => ReadChunk (Some c)
       | None => ReadDone
       end.

(** Two numbers of equal value (a rational has several representations). *)
Definition number_eq (x y : JsNumber) : Prop :=
  match x, y with
  | Num p, Num q => (p == q)%Q
  | _, _ => x = y
  end.

(** Two settings records with equal numbers. *)
Definition settings_eq (a b : AudioSettings) : Prop :=
  number_eq (maxConcurrentAudio a) (maxConcurrentAudio b) ∧
  number_eq (defaultVolume a) (defaultVolume b) ∧
  number_eq (fadeOutDuration a) (fadeOutDuration b) ∧
  queueProcessingDelay a = queueProcessingDelay b.

(** Settings whose three validated fields are inside their ranges. *)
Definition in_range (a : AudioSettings) : Prop :=
  between 1 10 (maxConcurrentAudio a) ∧
  between 0 1 (defaultVolume a) ∧
  between 0 5000 (fadeOutDuration a).

(** The object literal that names all four settings. *)
Definition all_of (a : AudioSettings) : PartialSettings :=
  mkPartial (Some (ANumber (maxConcurrentAudio a))) (Some (ANumber (defaultVolume a)))
            (Some (ANumber (fadeOutDuration a))) (Some (queueProcessingDelay a)).

(** A string made of white space only. *)
Definition all_white (t : jsstring) : Prop := Forall (λ c, isWhiteSpace c = true) t.

(** A string that neither starts nor ends with white space. *)
Definition trimmed (t : jsstring) : Prop :=
  (∀ c, head t = Some c → isWhiteSpace c = false) ∧
  (∀ c, last t = Some c → isWhiteSpace c = false).

(** A valid text whose first 3000 units are all spaces. *)
Definition spaces_then_letter : jsstring := replicate 3000 32%N ++ [97%N].

(** ** The rest of the module and its callers in the game *)

(** [getPollyClient() !== null] *)
Definition getPollyClient (s : State) : bool := pollyClient s.

(** The object that [getAudioStatus()] returns. *)
Record AudioStatus := mkAudioStatus {
  as_settings : AudioSettings;
  activeAudioCount : nat;
  queuedAudioCount : nat;
  as_isProcessingQueue : bool;
  as_performanceMetrics : Metrics
}.

(** [getAudioStatus()] *)
Definition getAudioStatus (s : State) : AudioStatus :=
  mkAudioStatus (audioSettings s) (length (activeAudioElements s))
                (length (audioQueue s)) (isProcessingQueue s) (performanceMetrics s).

(** Whether [initializePollyClient()] returns a client ([null] otherwise). *)
Definition initializePollyClient_returns (cfg : AwsConfig) : bool :=
  negb (blank (accessKeyId cfg)) && negb (blank (secretAccessKey cfg)).

(** The start of the game module: the client is initialized and, when that
    gave a client, the game's audio settings are written.  The result is the
    game's [pollyInitialized]. *)
Definition game_start (cfg : AwsConfig) (s : State) : bool * State :=
  let s1 := initializePollyClient cfg s in
  let pollyInitialized := initializePollyClient_returns cfg in
  (pollyInitialized,
   if pollyInitialized then configureAudioSettings game_settings s1 else s1).

(** The narration part of [spawnThought(isPositive)]: [speakText(message)] is
    called when [isPositive && pollyInitialized && isPollyAvailable()]; the
    [else if] that follows evaluates [isPollyAvailable()] once more.  Each of
    these calls reads the clock: [now] is the reading of the first
    [isPollyAvailable()], [later] the reading of the call that comes next.
    The result is what the call of [speakText] did, if it was made. *)
Definition spawnThought_speech (isPositive pollyInitialized : bool) (message : JsValue)
    (now later : Z) (s : State) : option SpeakResult * State :=
  if isPositive && pollyInitialized then
    let (available, s1) := isPollyAvailable now s in
    if available then
      let (r, s2) := speakText message later s1 in (Some r, s2)
    else (None, snd (isPollyAvailable later s1))
  else (None, s).

(** An error that the catch block classifies as a credentials failure. *)
Definition CredentialsProviderError : JsError :=
  mkError "CredentialsProviderError" "Could not load credentials from any providers" None.




(** [n] ticks in a row of fade interval number [i]. *)
Fixpoint fade_ticks (n i : nat) (s : State) : option State :=
  match n with
  | O => Some s
  | S n' => s' ← fade_tick i s; fade_ticks n' i s'
  end.

(** Between two states: no revocation is forgotten, and whatever newly waits
    for a gesture or for its retry has been revoked. *)
Definition revokes_what_waits (s s' : State) : Prop :=
  (∀ e, e ∈ revoked s → e ∈ revoked s') ∧
  (∀ e, e ∈ listeners s' ∨ e ∈ retries s' →
        (e ∈ listeners s ∨ e ∈ retries s) ∨ e ∈ revoked s').

(** The two views of the backlog that [getAudioStatus] reports:
    [performanceMetrics.queuedRequests] and the queue itself. *)
Definition backlog (s : State) : Z * list QueueItem :=
  (queuedRequests (performanceMetrics s), audioQueue s).

(** How far the counter is ahead of the queue. *)
Definition queue_gap (s : State) : Z :=
  (queuedRequests (performanceMetrics s) - Z.of_nat (length (audioQueue s)))%Z.

(** The entries that the calls of [stopAllAudio] in a run drop from the
    queue. *)
Fixpoint dropped (trace : list (Z * Event)) (s : State) : Z :=
  match trace with
  | [] => 0
  | (now, ev) :: rest =>
      match step now ev s with
      | Some s' =>
          ((match ev with EvStopAll => Z.of_nat (length (audioQueue s)) | _ => 0 end)
           + dropped rest s')%Z
      | None => 0
      end
  end.

(** A call of [synthesizeAndPlayAudio] that has not returned yet. *)
Definition unsettled (t : Task) : bool :=
  match t_phase t with
  | Settled _ => false
  | _ => true
  end.

Definition in_flight (l : list Task) : nat :=
  length (filter (λ t, unsettled t = true) l).

Arguments in_flight : simpl never.

(** What the counters, the calls and the queue have in common. *)
Definition books (s : State) : Metrics * list Task * list QueueItem :=
  (performanceMetrics s, tasks s, audioQueue s).

(** The requests counted by [totalRequests] that are neither counted as
    successful, nor in flight, nor waiting in the queue. *)
Definition unsuccessful (s : State) : Z :=
  (Z.of_nat (totalRequests (performanceMetrics s))
   - Z.of_nat (successfulRequests (performanceMetrics s))
   - Z.of_nat (in_flight (tasks s))
   - Z.of_nat (length (audioQueue s)))%Z.

(** ** The failure kinds of the catch block *)

(** The marks that tell the kind of a failure of the request: the message of
    the timeout timer, and the names and codes that the service client puts
    on its errors. *)
Definition timed_out (e : JsError) : Prop :=
  err_message e = "API_TIMEOUT".
Definition bad_credentials (e : JsError) : Prop :=
  err_name e = "CredentialsProviderError" ∨ err_code e = Some "CredentialsError".
Definition network_down (e : JsError) : Prop :=
  err_name e = "NetworkingError" ∨ err_code e = Some "NetworkingError".
Definition rate_limited (e : JsError) : Prop :=
  err_code e = Some "Throttling" ∨ err_code e = Some "ThrottlingException".
Definition invalid_parameter (e : JsError) : Prop :=
  err_code e = Some "InvalidParameterValue" ∨ err_code e = Some "ValidationException".
Definition service_unavailable (e : JsError) : Prop :=
  err_code e = Some "ServiceUnavailable" ∨ err_code e = Some "InternalFailure".

(** A failure that is an invalid parameter and nothing else: it bears no
    mark of a timeout, of credentials, of the network or of throttling. *)
Definition only_invalid_parameter (e : JsError) : Prop :=
  invalid_parameter e ∧
  ¬ timed_out e ∧ ¬ bad_credentials e ∧ ¬ network_down e ∧ ¬ rate_limited e.

(** * Properties *)

(** ** Settings *)

Lemma clamp_number (lo hi q : Q) : clamp lo hi (Num q) = Num (Qmax lo (Qmin hi q)).
Proof. reflexivity. Qed.


Lemma clamp_bounds (lo hi : Q) (x : JsNumber) :
  (lo <= hi)%Q → x ≠ NaN → between lo hi (clamp lo hi x).
Proof.
  intros Hle Hx.
  assert (Hq : ∀ q, (lo <= Qmax lo q)%Q ∧ ((q <= hi)%Q → (Qmax lo q <= hi)%Q)).
  { intros q. split; [apply Q.le_max_l|]. intros Hq. by apply Q.max_lub. }
  destruct x as [| |q|]; cbn; [done | | |].
  - split; [apply Qle_refl | exact Hle].
  - destruct (Hq (Qmin hi q)) as [H1 H2]. split; [exact H1 | apply H2, Q.le_min_l].
  - destruct (Hq hi) as [H1 H2]. split; [exact H1 | apply H2, Qle_refl].
Qed.

Lemma clamp_inside (lo hi : Q) (x : JsNumber) :
  between lo hi x → number_eq (clamp lo hi x) x.
Proof.
  destruct x as [| |q|]; cbn; try done. intros [H1 H2].
  rewrite (Q.min_r hi q) by exact H2. apply Q.max_r, H1.
Qed.

(** Clamping twice is clamping once. *)
Lemma clamp_clamp (lo hi : Q) (x : JsNumber) :
  (lo <= hi)%Q → number_eq (clamp lo hi (clamp lo hi x)) (clamp lo hi x).
Proof.
  intros Hle. destruct x as [| |q|] eqn:Hx; [done | | |];
    (apply clamp_inside; by apply clamp_bounds).
Qed.



(** ** The stream assembler *)

Lemma read_loop_incomplete (stream : Stream) (fuel from : nat) (chunks : list (list byte)) :
  (∀ i, (from ≤ i < from + fuel)%nat → ∃ value, stream i = ReadChunk value) →
  read_loop stream fuel from chunks =
    mkReadLoop (from + fuel) (chunks ++ kept_chunks stream from fuel) [] None.
Proof.
  revert from chunks. induction fuel as [|fuel IH]; intros from chunks Hinc.
  - cbn. by rewrite Nat.add_0_r, app_nil_r.
  - cbn. destruct (Hinc from) as [value Hv]; [lia|]. rewrite Hv.
    rewrite IH by (intros i Hi; apply Hinc; lia).
    replace (S from + fuel)%nat with (from + S fuel)%nat by lia.
    destruct value as [[|b v]|]; cbn; [done| |done].
    by rewrite <- app_assoc.
Qed.

Lemma kept_chunks_nonempty (stream : Stream) (from n : nat) :
  Forall (λ c, (0 < length c)%nat) (kept_chunks stream from n).
Proof.
  revert from. induction n as [|n IH]; intros from; cbn; [constructor|].
  destruct (stream from) as [[[|b v]|]| |]; cbn; try apply IH.
  constructor; [cbn; lia | apply IH].
Qed.

Lemma totalLength_concat (chunks : list (list byte)) (acc : nat) :
  foldl (λ acc chunk, acc + length chunk)%nat acc chunks = (acc + length (concat chunks))%nat.
Proof.
  revert acc. induction chunks as [|c chunks IH]; intros acc; cbn; [lia|].
  rewrite IH, length_app. lia.
Qed.

Lemma concat_nonempty (chunks : list (list byte)) :
  chunks ≠ [] → Forall (λ c, (0 < length c)%nat) chunks → (0 < length (concat chunks))%nat.
Proof.
  destruct chunks as [|c chunks]; [done|]. intros _ Hall.
  inversion Hall; subst. cbn. rewrite length_app. lia.
Qed.

(** C8, as amended: when the bound of 1000 reads is reached and the stream is
    still incomplete, the assembler logs the warning, releases the reader and
    returns the concatenation of the non-empty chunks read so far; it fails
    (with the "no data chunks" stream error) only when no non-empty chunk
    was read. *)
Theorem bound_reached_returns_partial_buffer (stream : Stream) :
  incomplete_after maxReads stream →
  let a := streamToUint8Array stream in
  let chunks := kept_chunks stream 0 maxReads in
  as_logs a !! 0%nat =
    Some (WARN, "TTS_STREAM_WARNING: Maximum read attempts reached, stream may be incomplete") ∧
  as_released a = true ∧
  as_result a =
    match chunks with
    | [] => inl (new_Error "STREAM_ERROR: No data chunks received from stream")
    | _ :: _ => inr (concat chunks)
    end.
Proof.
  intros Hinc a chunks. subst a. unfold streamToUint8Array.
  rewrite read_loop_incomplete by (intros i Hi; apply Hinc; lia).
  cbn [rl_thrown rl_logs rl_readCount rl_chunks Nat.add app].
  rewrite Nat.leb_refl. fold chunks.
  pose proof (kept_chunks_nonempty stream 0 maxReads) as Hne. fold chunks in Hne.
  destruct chunks as [|c cs] eqn:Hc; [done|].
  cbn [length Nat.eqb]. rewrite totalLength_concat.
  pose proof (concat_nonempty (c :: cs) ltac:(done) Hne) as Hpos.
  destruct (0 + length (concat (c :: cs)) =? 0)%nat eqn:Hz.
  - apply Nat.eqb_eq in Hz. lia.
  - done.
Qed.

(** On the endless stream the buffer is the first 1000 bytes. *)
Lemma bound_reached_returns_partial_buffer_witness :
  incomplete_after maxReads endless ∧
  as_result (streamToUint8Array endless) = inr (replicate 1000 x00).
Proof.
  assert (H : incomplete_after maxReads endless) by (intros i _; by eexists).
  split; [exact H|].
  destruct (bound_reached_returns_partial_buffer endless H) as (_ & _ & ->).
  vm_compute. reflexivity.
Defined.

(** C8, as stated, fails: on a stream that is still delivering after 1000
    reads the assembler succeeds with the bytes read so far, and the request
    goes on to create an audio element that enters the active set. *)
Lemma bound_reached_still_plays :
  incomplete_after maxReads endless ∧
  (∃ bytes, as_result (streamToUint8Array endless) = inr bytes ∧ length bytes = 1000%nat) ∧
  (∃ s, run [(10, EvSpeak (JString (str "hello")));
             (500, EvRace 0 (RaceFulfilled (AudioStream endless)))]%Z ready = Some s ∧
        activeAudioElements s = [0%nat]).
Proof.
  split; [intros i _; by eexists|]. split.
  - eexists. split; vm_compute; reflexivity.
  - eexists. split; vm_compute; reflexivity.
Qed.

(** ** The circuit breaker and the catch block *)

Lemma recordTtsError_breaker (errorType : string) (now : Z) (s : State) :
  breaker (recordTtsError errorType now s) = (S (ttsErrorCount s), Some now).
Proof. unfold recordTtsError. by case_match. Qed.

Lemma queue_loop_exit_breaker (s : State) : breaker (queue_loop_exit s) = breaker s.
Proof. unfold queue_loop_exit. by case_match. Qed.

Lemma after_queue_item_breaker (s : State) : breaker (after_queue_item s) = breaker s.
Proof. unfold after_queue_item. case_match; [apply queue_loop_exit_breaker | done]. Qed.

Lemma settle_breaker (rid : nat) (c : Completion) (s : State) :
  breaker (settle rid c s) = breaker s.
Proof.
  unfold settle. repeat case_match; try done.
  by rewrite after_queue_item_breaker.
Qed.


Lemma classify_and_record_breaker (e : JsError) (now : Z) (s : State) :
  breaker (snd (classify_and_record e now s)) =
    if String.eqb (fst (classify_and_record e now s)) "PARAMETER"
    then breaker s
    else (S (ttsErrorCount s), Some now).
Proof.
  unfold classify_and_record.
  repeat case_match; cbn [fst snd String.eqb Ascii.eqb Bool.eqb];
    rewrite ?recordTtsError_breaker; done.
Qed.

Lemma errorType_classes (e : JsError) (now : Z) (s : State) :
  fst (classify_and_record e now s) ∈
    ["TIMEOUT"; "CREDENTIALS"; "NETWORK"; "RATE_LIMIT"; "PARAMETER"; "SERVICE"; "UNKNOWN"].
Proof.
  unfold classify_and_record.
  repeat case_match; cbn [fst]; repeat first [apply list_elem_of_here | apply list_elem_of_further].
Qed.

Lemma string_eqb_neq (a b : string) : a ≠ b → String.eqb a b = false.
Proof. intros H. by apply String.eqb_neq. Qed.

Lemma code_is_spec (e : JsError) (c : string) : code_is e c = true ↔ err_code e = Some c.
Proof.
  unfold code_is. destruct (err_code e) as [c'|]; [|done].
  rewrite String.eqb_eq. split; [by intros -> | by intros [= ->]].
Qed.

Lemma name_or_code (e : JsError) (n c : string) :
  String.eqb (err_name e) n || code_is e c = true ↔ err_name e = n ∨ err_code e = Some c.
Proof. by rewrite orb_true_iff, String.eqb_eq, code_is_spec. Qed.

Lemma code_or_code (e : JsError) (c1 c2 : string) :
  code_is e c1 || code_is e c2 = true ↔ err_code e = Some c1 ∨ err_code e = Some c2.
Proof. by rewrite orb_true_iff, !code_is_spec. Qed.

(** The catch block gives the label PARAMETER exactly to a failure that is
    an invalid parameter and nothing else. *)
Lemma parameter_label (e : JsError) (now : Z) (s : State) :
  fst (classify_and_record e now s) = "PARAMETER" ↔ only_invalid_parameter e.
Proof.
  unfold only_invalid_parameter, timed_out, bad_credentials, network_down, rate_limited,
    invalid_parameter, classify_and_record.
  rewrite <- (String.eqb_eq (err_message e) "API_TIMEOUT").
  rewrite <- (name_or_code e "CredentialsProviderError" "CredentialsError").
  rewrite <- (name_or_code e "NetworkingError" "NetworkingError").
  rewrite <- (code_or_code e "Throttling" "ThrottlingException").
  rewrite <- (code_or_code e "InvalidParameterValue" "ValidationException").
  destruct (String.eqb (err_message e) "API_TIMEOUT");
    [|destruct (_ || _); [|destruct (_ || _); [|destruct (_ || _); [|destruct (_ || _);
       [|destruct (_ || _)]]]]];
    cbn [fst];
    (split;
     [ intros H; first [discriminate H | repeat split; first [done | discriminate]]
     | intros (H0 & H1 & H2 & H3 & H4);
       first [done | by destruct H1 | by destruct H2 | by destruct H3 | by destruct H4
             | discriminate H0] ]).
Qed.

(** C3: in the catch block of a synthesis attempt the failure counter is
    incremented and the failure time stamped exactly when the failure is not
    an invalid parameter and nothing else, that is, exactly when the assigned
    class is not PARAMETER.  In particular a timeout, a credentials failure,
    a network failure, throttling, an unavailable service and a failure that
    bears none of the marks (unknown) are counted.  A failure of the stream
    assembly and an invalid input to [speakText] leave both untouched. *)
Theorem failure_counted_unless_parameter (e : JsError) (rid : nat) (now : Z) (s : State) :
  let errorType := fst (classify_and_record e now s) in
  let s' := on_race rid (RaceRejected e) now s in
  let counted := ttsErrorCount s' = S (ttsErrorCount s) ∧ lastErrorTime s' = Some now in
  errorType ∈
    ["TIMEOUT"; "CREDENTIALS"; "NETWORK"; "RATE_LIMIT"; "PARAMETER"; "SERVICE"; "UNKNOWN"] ∧
  (counted ↔ errorType ≠ "PARAMETER") ∧
  (errorType = "PARAMETER" →
     ttsErrorCount s' = ttsErrorCount s ∧ lastErrorTime s' = lastErrorTime s) ∧
  (errorType = "PARAMETER" ↔ only_invalid_parameter e) ∧
  (counted ↔ ¬ only_invalid_parameter e) ∧
  (timed_out e → counted) ∧
  (bad_credentials e → counted) ∧
  (network_down e → counted) ∧
  (rate_limited e → counted) ∧
  (service_unavailable e → counted) ∧
  (¬ timed_out e → ¬ bad_credentials e → ¬ network_down e → ¬ rate_limited e →
   ¬ invalid_parameter e → ¬ service_unavailable e → counted) ∧
  (∀ stream streamError,
     as_result (streamToUint8Array stream) = inl streamError →
     breaker (on_race rid (RaceFulfilled (AudioStream stream)) now s) = breaker s) ∧
  (∀ text, invalid_text text = true →
     fst (speakText text now s) = Returned ∧
     breaker (snd (speakText text now s)) = breaker s).
Proof.
  intros errorType s' counted. subst s' counted. cbn [on_race].
  assert (Hb : breaker (catch_synthesis e rid now s) =
               if String.eqb errorType "PARAMETER" then breaker s
               else (S (ttsErrorCount s), Some now)).
  { subst errorType. unfold catch_synthesis.
    rewrite settle_breaker. apply classify_and_record_breaker. }
  unfold breaker in Hb.
  pose proof (parameter_label e now s) as Hlabel. fold errorType in Hlabel.
  assert (Hcount : ttsErrorCount (catch_synthesis e rid now s) = S (ttsErrorCount s) ∧
                   lastErrorTime (catch_synthesis e rid now s) = Some now
                   ↔ errorType ≠ "PARAMETER").
  { split.
    - intros [Hc _] Heq. rewrite Heq in Hb. cbn in Hb.
      injection Hb as Hb _. lia.
    - intros Hne. rewrite (string_eqb_neq _ _ Hne) in Hb.
      injection Hb as Hc Hl. done. }
  assert (Hkind : ttsErrorCount (catch_synthesis e rid now s) = S (ttsErrorCount s) ∧
                  lastErrorTime (catch_synthesis e rid now s) = Some now
                  ↔ ¬ only_invalid_parameter e).
  { rewrite Hcount. by rewrite Hlabel. }
  split; [apply errorType_classes|].
  split; [exact Hcount|].
  split; [intros Heq; rewrite Heq in Hb; cbn in Hb; by injection Hb as Hc Hl|].
  split; [exact Hlabel|].
  split; [exact Hkind|].
  unfold only_invalid_parameter in Hkind.
  split; [intros H; apply Hkind; tauto|].
  split; [intros H; apply Hkind; tauto|].
  split; [intros H; apply Hkind; tauto|].
  split; [intros H; apply Hkind; tauto|].
  split.
  { intros [H|H]; apply Hkind; intros ([H'|H'] & _); congruence. }
  split; [intros _ _ _ _ H _; apply Hkind; tauto|].
  split.
  - intros stream streamError Hres. cbn [on_race]. rewrite Hres.
    by rewrite settle_breaker.
  - intros text Hinv. unfold speakText.
    destruct text as [t|]; [|done]. by rewrite Hinv.
Qed.

(** The seven classes of the catch block, each on an error that produces it. *)
Example errorType_examples :
  map (λ e, fst (classify_and_record e 0 initial))
    [ API_TIMEOUT;
      mkError "CredentialsProviderError" "Could not load credentials" None;
      mkError "Error" "fetch failed" (Some "NetworkingError");
      mkError "Error" "Rate exceeded" (Some "ThrottlingException");
      mkError "Error" "Invalid SSML" (Some "ValidationException");
      mkError "Error" "Service down" (Some "ServiceUnavailable");
      null_client_TypeError ]
  = ["TIMEOUT"; "CREDENTIALS"; "NETWORK"; "RATE_LIMIT"; "PARAMETER"; "SERVICE"; "UNKNOWN"].
Proof. reflexivity. Qed.

(** [isTtsTemporarilyDisabled] once the cooldown has passed: the reset. *)
Lemma breaker_resets_after_cooldown (s : State) (now t : Z) :
  (MAX_ERROR_COUNT ≤ ttsErrorCount s)%nat →
  lastErrorTime s = Some t → t ≠ 0%Z → (ERROR_RESET_TIME < now - t)%Z →
  isTtsTemporarilyDisabled now s =
    (false,
     s |> log LOG "TTS_RECOVERY: Error count reset after timeout, re-enabling TTS"
       |> set_ttsErrorCount 0%nat
       |> set_lastErrorTime None).
Proof.
  intros Hc Hl Ht Hnow. unfold isTtsTemporarilyDisabled.
  destruct (Nat.ltb_spec (ttsErrorCount s) MAX_ERROR_COUNT); [lia|].
  rewrite Hl.
  destruct (Z.eqb_spec t 0); [done|].
  destruct (Z.ltb_spec ERROR_RESET_TIME (now - t)); [done | lia].
Qed.


Lemma breaker_closed (s : State) (now : Z) :
  (ttsErrorCount s < MAX_ERROR_COUNT)%nat → isTtsTemporarilyDisabled now s = (false, s).
Proof.
  intros Hc. unfold isTtsTemporarilyDisabled.
  by destruct (Nat.ltb_spec (ttsErrorCount s) MAX_ERROR_COUNT); [|lia].
Qed.

(** C10: [getTtsStatus()] is not read-only.  When the failure counter has
    reached the threshold and more than the cooldown has passed since the
    stamped last failure (a [Date.now()] value, hence not 0), reading the
    status sets the counter to 0 and clears the stamp; no request is made or
    counted, and the breaker then lets every later call through.  The object
    returned still shows the old counter. *)
Theorem status_read_resets_breaker (s : State) (now t : Z) :
  (MAX_ERROR_COUNT ≤ ttsErrorCount s)%nat →
  lastErrorTime s = Some t → t ≠ 0%Z → (ERROR_RESET_TIME < now - t)%Z →
  let status := fst (getTtsStatus now s) in
  let s' := snd (getTtsStatus now s) in
  ttsErrorCount s' = 0%nat ∧ lastErrorTime s' = None ∧
  temporarilyDisabled status = false ∧ errorCount status = ttsErrorCount s ∧
  sent s' = sent s ∧ tasks s' = tasks s ∧ audioQueue s' = audioQueue s ∧
  performanceMetrics s' = performanceMetrics s ∧
  ∀ now', isTtsTemporarilyDisabled now' s' = (false, s').
Proof.
  intros Hc Hl Ht Hnow. unfold getTtsStatus.
  rewrite (breaker_resets_after_cooldown s now t Hc Hl Ht Hnow). cbn.
  repeat split.
Qed.

(** After five timeouts, a status read at 400000 closes the breaker. *)
Lemma status_read_resets_breaker_witness :
  ttsErrorCount broken = 5%nat ∧
  ttsErrorCount (snd (getTtsStatus 400000 broken)) = 0%nat ∧
  lastErrorTime (snd (getTtsStatus 400000 broken)) = None ∧
  errorCount (fst (getTtsStatus 400000 broken)) = 5%nat.
Proof.
  assert (H1 : (MAX_ERROR_COUNT ≤ ttsErrorCount broken)%nat) by (vm_compute; lia).
  assert (H2 : lastErrorTime broken = Some 5000%Z) by reflexivity.
  assert (H3 : 5000%Z ≠ 0%Z) by lia.
  assert (H4 : (ERROR_RESET_TIME < 400000 - 5000)%Z) by (vm_compute; reflexivity).
  destruct (status_read_resets_breaker broken 400000 5000 H1 H2 H3 H4)
    as (Hc & Hl & _ & He & _).
  split; [reflexivity|]. split; [exact Hc|]. split; [exact Hl|]. exact He.
Defined.






(** With a client, the first segment of [synthesizeAndPlayAudio] sends the
    command and suspends; it records no failure. *)
Lemma synthesize_with_client (text : jsstring) (start now : Z) (origin : Origin) (s : State) :
  pollyClient s = true →
  synthesizeAndPlayAudio text start origin now s =
    let too_long := (maxTextLength <? length text)%nat in
    let text1 := if too_long then substring0 maxTextLength text else text in
    let s1 :=
      if too_long then s |> log WARN "TTS_INPUT_ERROR: Text too long. Truncating." else s in
    s1 |> log LOG "TTS_REQUEST: Synthesizing speech for text:"
       |> set_tasks (tasks s ++ [mkTask text1 start origin AwaitRace])
       |> set_sent (sent s ++ [(length (tasks s), trim text1)]).
Proof.
  intros Hclient. unfold synthesizeAndPlayAudio. cbv zeta.
  destruct (maxTextLength <? length text)%nat;
    cbn [pollyClient set_tasks log set_console]; rewrite Hclient; reflexivity.
Qed.

Lemma synthesize_breaker_with_client (text : jsstring) (start now : Z) (origin : Origin)
    (s : State) :
  pollyClient s = true →
  breaker (synthesizeAndPlayAudio text start origin now s) = breaker s.
Proof.
  intros Hclient. rewrite (synthesize_with_client _ _ _ _ _ Hclient). cbv zeta.
  by destruct (maxTextLength <? length text)%nat.
Qed.




(** ** Truncation *)

Lemma trimStart_id (s : jsstring) :
  (∀ c, head s = Some c → isWhiteSpace c = false) → trimStart s = s.
Proof.
  destruct s as [|c s]; [done|]. intros H. cbn. by rewrite (H c eq_refl).
Qed.

Lemma trim_id (s : jsstring) :
  (∀ c, head s = Some c → isWhiteSpace c = false) →
  (∀ c, last s = Some c → isWhiteSpace c = false) →
  trim s = s.
Proof.
  intros Hh Hl. unfold trim, trimEnd. rewrite (trimStart_id s Hh).
  rewrite trimStart_id; [apply reverse_involutive|].
  intros c. rewrite head_reverse. apply Hl.
Qed.

(** C5, as amended: when [synthesizeAndPlayAudio] is given a text longer than
    3000 units (directly or from the queue) and the client is there, the
    request is not rejected: a truncation notice is logged and the text sent
    to the service is the first 3000 units with leading and trailing white
    space removed; it is exactly the first 3000 units when these neither
    start nor end with white space. *)
Theorem long_text_truncated_then_trimmed (text : jsstring) (start now : Z)
    (origin : Origin) (s : State) :
  (maxTextLength < length text)%nat → pollyClient s = true →
  let s' := synthesizeAndPlayAudio text start origin now s in
  let first3000 := substring0 maxTextLength text in
  length first3000 = 3000%nat ∧
  sent s' = sent s ++ [(length (tasks s), trim first3000)] ∧
  tasks s' = tasks s ++ [mkTask first3000 start origin AwaitRace] ∧
  console s' = console s ++ [(WARN, "TTS_INPUT_ERROR: Text too long. Truncating.");
                             (LOG, "TTS_REQUEST: Synthesizing speech for text:")] ∧
  ((∀ c, head first3000 = Some c → isWhiteSpace c = false) →
   (∀ c, last first3000 = Some c → isWhiteSpace c = false) →
   sent s' = sent s ++ [(length (tasks s), first3000)]).
Proof.
  intros Hlen Hclient s' first3000. subst s'.
  rewrite (synthesize_with_client _ _ _ _ _ Hclient). cbv zeta.
  destruct (Nat.ltb_spec maxTextLength (length text)) as [_|]; [|lia].
  fold first3000.
  cbn [sent tasks console set_sent set_tasks log set_console].
  split; [|split; [|split; [|split]]]; try done.
  - subst first3000. unfold substring0. rewrite length_take. unfold maxTextLength in *. lia.
  - by rewrite <- app_assoc.
  - intros Hh Hl. by rewrite (trim_id first3000 Hh Hl).
Qed.

(** ** Scenarios of the running game *)

(** C1: the active set can exceed [maxConcurrentAudio].  With the limit at 2,
    three calls made before the first answer arrives all pass the capacity
    check of [speakText] (the set is still empty) and all three elements are
    added; and elements refused by the autoplay policy are added by
    [playOnInteraction] after the click without any capacity check.  In both
    runs the set ends with three members. *)
Theorem active_set_exceeds_limit :
  (∃ s, run three_calls_back_to_back ready = Some s ∧
        maxConcurrentAudio (audioSettings s) = 2%Q ∧
        activeAudioElements s = [0; 1; 2]%nat ∧ audioQueue s = []) ∧
  (∃ s, run blocked_then_clicked ready = Some s ∧
        maxConcurrentAudio (audioSettings s) = 2%Q ∧
        activeAudioElements s = [0; 1; 2]%nat ∧ listeners s = []).
Proof.
  split; eexists; (split; [vm_compute; reflexivity|]); repeat split.
Qed.

(** On a hidden page [handleAutoplayOptimization] throws an [Error] whose
    name is "Error": the catch block of the caller takes its last branch and
    [handleAutoplayBlocked] is not called. *)
Lemma hidden_page_attaches_nothing (rid : nat) (s : State) :
  hidden s = true →
  listeners (handleAutoplayOptimization rid s) = listeners s ∧
  expiries (handleAutoplayOptimization rid s) = expiries s ∧
  retries (handleAutoplayOptimization rid s) = retries s.
Proof.
  intros Hh. unfold handleAutoplayOptimization. rewrite Hh.
  unfold play_catch, settle, after_queue_item, queue_loop_exit.
  cbn [err_name new_Error String.eqb Ascii.eqb Bool.eqb].
  repeat case_match; done.
Qed.

(** C7 on the code: the answer arrives while the page is hidden.  The request
    ends in the ordinary playback-error branch: no listener and no 30 s timer
    are set up, the blob URL is revoked, and a later click retries nothing.
    With a visible page and a refusal by the browser, the same request is
    kept for the next gesture. *)
Theorem hidden_page_not_recovered :
  (∃ s, run hidden_when_answered ready = Some s ∧
        listeners s = [] ∧ expiries s = [] ∧ revoked s = [0%nat] ∧
        activeAudioElements s = [] ∧
        last (console s) = Some (WARN, "TTS_AUDIO_ERROR: Audio playback failed:")) ∧
  (∃ s, run (hidden_when_answered ++ [(300, EvVisibility false); (400, EvGesture)]%Z) ready
          = Some s ∧
        retries s = [] ∧ activeAudioElements s = []) ∧
  (∃ s, run refused_when_answered ready = Some s ∧
        listeners s = [0%nat] ∧ expiries s = [0%nat] ∧
        last (console s) =
          Some (WARN, "TTS_AUDIO_POLICY: Audio autoplay blocked by browser policy")).
Proof.
  repeat split; eexists; (split; [vm_compute; reflexivity|]); repeat split.
Qed.

(** C4, as stated, fails twice.  Called back to back, C finds the active set
    still empty and is sent at once, not queued.  And with A and B playing
    and C queued, a call D that arrives after A has ended and before the
    queue timer fires is sent while C still waits. *)
Lemma later_call_overtakes_queue :
  (∃ s, run [(10, say "A"); (11, say "B"); (12, say "C")]%Z ready = Some s ∧
        audioQueue s = [] ∧
        sent s = [(0%nat, str "A"); (1%nat, str "B"); (2%nat, str "C")]) ∧
  (∃ s, run two_playing_then_C ready = Some s ∧
        activeAudioElements s = [0; 1]%nat ∧ audioQueue s = [mkItem (str "C")]) ∧
  (∃ s, run A_ends_then_D ready = Some s ∧
        audioQueue s = [mkItem (str "C")] ∧
        sent s = [(0%nat, str "A"); (1%nat, str "B"); (2%nat, str "D")]).
Proof.
  repeat split; eexists; (split; [vm_compute; reflexivity|]); repeat split.
Qed.

(** ** What each segment leaves alone *)

Lemma foldl_preserves {A B : Type} (p : State → B) (f : State → A → State)
    (l : list A) (s : State) :
  (∀ a x, p (f a x) = p a) → p (foldl f s l) = p s.
Proof.
  intros Hf. revert s. induction l as [|x l IH]; intros s; cbn [foldl]; [done|].
  by rewrite IH, Hf.
Qed.

(** Whatever the log, the settings and the attributes of the elements do not
    show is left alone by [setAudioVolume]. *)
Lemma setAudioVolume_preserves {B : Type} (p : State → B) (volume : JsArg) (s : State) :
  (∀ x l m, p (log l m x) = p x) →
  (∀ x a, p (set_audioSettings a x) = p x) →
  (∀ x e f, p (update_element e f x) = p x) →
  p (snd (setAudioVolume volume s)) = p s.
Proof.
  intros Hlog Hset Hupd. unfold setAudioVolume. cbv zeta.
  destruct (volume_setter _) as [thrown|w].
  - destruct (activeAudioElements s); cbn [snd]; by rewrite ?Hlog, Hset.
  - cbn [snd]. rewrite Hlog, (foldl_preserves p); [apply Hset|].
    intros a x. apply Hupd.
Qed.

Lemma fadeOutAudio_traffic (e : nat) (s : State) : traffic (fadeOutAudio e s) = traffic s.
Proof. unfold fadeOutAudio. by repeat case_match. Qed.

Lemma manageAudioConcurrency_traffic (s : State) :
  traffic (manageAudioConcurrency s) = traffic s.
Proof.
  unfold manageAudioConcurrency.
  set (s1 := foldl _ _ _).
  assert (H1 : traffic s1 = traffic s) by (subst s1; by apply foldl_preserves).
  repeat case_match; rewrite ?fadeOutAudio_traffic; done.
Qed.

Lemma isTtsTemporarilyDisabled_traffic (now : Z) (s : State) :
  traffic (snd (isTtsTemporarilyDisabled now s)) = traffic s.
Proof. unfold isTtsTemporarilyDisabled. by repeat case_match. Qed.

Lemma recordTtsError_traffic (ty : string) (now : Z) (s : State) :
  traffic (recordTtsError ty now s) = traffic s.
Proof. unfold recordTtsError. by case_match. Qed.

Lemma classify_and_record_traffic (e : JsError) (now : Z) (s : State) :
  traffic (snd (classify_and_record e now s)) = traffic s.
Proof.
  unfold classify_and_record.
  repeat case_match; cbn [snd]; rewrite ?recordTtsError_traffic; done.
Qed.

Lemma alter_absent {A : Type} (f : A → A) (l : list A) (i : nat) :
  l !! i = None → alter f i l = l.
Proof.
  revert i. induction l as [|x l IH]; intros [|i] H; try done.
  cbn. f_equal. by apply IH.
Qed.

Lemma alter_last {A : Type} (f : A → A) (l : list A) (x : A) :
  alter f (length l) (l ++ [x]) = l ++ [f x].
Proof. induction l as [|y l IH]; [done|]. cbn. by f_equal. Qed.

Lemma settle_queue (rid : nat) (c : Completion) (s : State) :
  audioQueue (settle rid c s) = audioQueue s.
Proof. unfold settle, after_queue_item, queue_loop_exit. by repeat case_match. Qed.

Lemma settle_tasks (rid : nat) (c : Completion) (s : State) :
  tasks (settle rid c s) = alter (with_phase (Settled c)) rid (tasks s).
Proof.
  unfold settle, after_queue_item, queue_loop_exit.
  repeat case_match; try done.
  symmetry. by apply alter_absent.
Qed.

Lemma classify_and_record_queue (e : JsError) (now : Z) (s : State) :
  audioQueue (snd (classify_and_record e now s)) = audioQueue s.
Proof. exact (f_equal (λ x, fst (fst x)) (classify_and_record_traffic e now s)). Qed.

Lemma classify_and_record_tasks (e : JsError) (now : Z) (s : State) :
  tasks (snd (classify_and_record e now s)) = tasks s.
Proof. exact (f_equal (λ x, snd (fst x)) (classify_and_record_traffic e now s)). Qed.

(** The text that a call of [synthesizeAndPlayAudio] works on. *)
Lemma synthesize_appends_task (text : jsstring) (start now : Z) (origin : Origin) (s : State) :
  audioQueue (synthesizeAndPlayAudio text start origin now s) = audioQueue s ∧
  ∃ phase,
    tasks (synthesizeAndPlayAudio text start origin now s) =
      tasks s ++ [mkTask (if (maxTextLength <? length text)%nat
                          then substring0 maxTextLength text else text)
                         start origin phase].
Proof.
  unfold synthesizeAndPlayAudio. cbv zeta.
  destruct (maxTextLength <? length text)%nat;
    cbn [pollyClient set_tasks log set_console tasks];
    (destruct (pollyClient s);
     [ split; [done | by eexists]
     | unfold catch_synthesis;
       rewrite settle_queue, settle_tasks, classify_and_record_queue, classify_and_record_tasks;
       cbn [tasks audioQueue set_tasks log set_console];
       split; [done | rewrite alter_last; by eexists] ]).
Qed.

(** A call of [speakText] leaves the queue alone, or appends its text to it
    without starting anything. *)
Lemma speakText_queue (text : JsValue) (now : Z) (s : State) :
  audioQueue (snd (speakText text now s)) = audioQueue s ∨
  ∃ t, text = JString t ∧
       audioQueue (snd (speakText text now s)) = audioQueue s ++ [mkItem t] ∧
       tasks (snd (speakText text now s)) = tasks s ∧
       sent (snd (speakText text now s)) = sent s.
Proof.
  unfold speakText. destruct text as [t|]; [|by left].
  destruct (invalid_text (JString t)); [by left|].
  destruct (negb _); [by left|].
  destruct (isTtsTemporarilyDisabled now (count_request s)) as [d s1] eqn:Hd.
  pose proof (isTtsTemporarilyDisabled_traffic now (count_request s)) as H1.
  rewrite Hd in H1. cbn [snd] in H1.
  destruct d; [left; by injection H1|].
  pose proof (manageAudioConcurrency_traffic s1) as H2. rewrite H1 in H2.
  unfold traffic in H2. cbn [audioQueue tasks sent count_request set_performanceMetrics] in H2.
  injection H2 as Hq Ht Hs.
  destruct (at_capacity _); cbn [snd].
  - right. exists t. cbn. by rewrite Hq, Ht, Hs.
  - left. destruct (synthesize_appends_task t now now Direct (manageAudioConcurrency s1)) as [-> _].
    done.
Qed.

(** The drain loop leaves the queue alone, or takes its head and starts the
    synthesis of exactly that entry. *)
Lemma queue_loop_takes_head (now : Z) (s : State) :
  audioQueue (queue_loop now s) = audioQueue s ∨
  ∃ item phase,
    audioQueue s = item :: audioQueue (queue_loop now s) ∧
    tasks (queue_loop now s) =
      tasks s ++ [mkTask (if (maxTextLength <? length (q_text item))%nat
                          then substring0 maxTextLength (q_text item) else q_text item)
                         now FromQueue phase].
Proof.
  assert (Hexit : audioQueue (queue_loop_exit s) = audioQueue s).
  { unfold queue_loop_exit. by case_match. }
  unfold queue_loop.
  destruct (audioQueue s) as [|item rest] eqn:Hq; [by left|].
  destruct (at_capacity s); [by left|].
  right. exists item.
  match goal with |- context [synthesizeAndPlayAudio ?t ?a ?o ?n ?s0] =>
    destruct (synthesize_appends_task t a n o s0) as [Hq2 [phase Ht2]] end.
  exists phase. rewrite Hq2, Ht2. done.
Qed.

Lemma play_catch_queue (rid : nat) (e : JsError) (s : State) :
  audioQueue (play_catch rid e s) = audioQueue s.
Proof. unfold play_catch. rewrite settle_queue. by repeat case_match. Qed.

Lemma play_started_queue (rid : nat) (now : Z) (s : State) :
  audioQueue (play_started rid now s) = audioQueue s.
Proof. unfold play_started. case_match; [|done]. by rewrite settle_queue. Qed.

Lemma on_race_queue (rid : nat) (o : RaceOutcome) (now : Z) (s : State) :
  audioQueue (on_race rid o now s) = audioQueue s.
Proof.
  unfold on_race, catch_synthesis, handleAutoplayOptimization.
  repeat case_match;
    rewrite ?settle_queue, ?play_catch_queue, ?classify_and_record_queue; done.
Qed.

Lemma on_play_queue (rid : nat) (o : option JsError) (now : Z) (s s' : State) :
  on_play rid o now s = Some s' → audioQueue s' = audioQueue s.
Proof.
  unfold on_play. intros H.
  destruct (tasks s !! rid) as [t|]; [|done]. cbn in H.
  destruct (t_phase t), o as [e|]; try done.
  - destruct (String.eqb _ _).
    + destruct (elements s !! rid); by simplify_eq/=.
    + simplify_eq. apply play_catch_queue.
  - simplify_eq. apply play_started_queue.
  - simplify_eq. by rewrite play_catch_queue.
  - simplify_eq. by rewrite play_started_queue.
Qed.

Lemma fade_tick_queue (i : nat) (s s' : State) :
  fade_tick i s = Some s' → audioQueue s' = audioQueue s.
Proof.
  unfold fade_tick. intros H.
  destruct (fades s !! i) as [f|]; [|done]. cbn [mbind option_bind] in H.
  destruct (_ || _) in H; by simplify_eq.
Qed.

(** ** Elements, tasks and the active set *)

Lemma set_delete_subseteq (e : nat) (l : list nat) : set_delete e l ⊆ l.
Proof. intros x. unfold set_delete. rewrite list_elem_of_filter. tauto. Qed.

Lemma elem_of_set_add (x e : nat) (l : list nat) : x ∈ set_add e l ↔ x = e ∨ x ∈ l.
Proof.
  unfold set_add. case_bool_decide as H.
  - split; [tauto | intros [->|]; done].
  - rewrite elem_of_app, list_elem_of_singleton. tauto.
Qed.

Lemma elem_of_set_delete (x e : nat) (l : list nat) : x ∈ set_delete e l ↔ x ≠ e ∧ x ∈ l.
Proof. unfold set_delete. by rewrite list_elem_of_filter. Qed.

Lemma quiet_refl (s : State) : quiet s s.
Proof. by split. Qed.

Lemma quiet_trans (s1 s2 s3 : State) : quiet s1 s2 → quiet s2 s3 → quiet s1 s3.
Proof.
  intros [H1 H2] [H3 H4]. split; [congruence|].
  intros x Hx. by apply H2, H4.
Qed.

(** The general step of the invariant: one call changes phase (not back to
    the race, and a dead call only to a settled phase), elements are only
    added, a new element belongs to that call, and whatever enters one of
    the three sets is an element. *)
Lemma inv_footprint (dead : nat → Prop) (s s' : State) (rid : nat) (p : Phase) :
  Inv dead s →
  tasks s' = alter (with_phase p) rid (tasks s) →
  p ≠ AwaitRace →
  (¬ dead rid ∨ ∃ c, p = Settled c) →
  dom (elements s) ⊆ dom (elements s') →
  (∀ e, e ∈ dom (elements s') →
        e ∈ dom (elements s) ∨ (e = rid ∧ ¬ dead rid ∧ is_Some (tasks s !! rid))) →
  (∀ e, e ∈ activeAudioElements s' ∨ e ∈ listeners s' ∨ e ∈ retries s' →
        (e ∈ activeAudioElements s ∨ e ∈ listeners s ∨ e ∈ retries s) ∨
        e ∈ dom (elements s')) →
  Inv dead s'.
Proof.
  intros [Hsets Helem Hdead] Htasks Hp Hd Hmono Hnew Hin.
  assert (Hphase : ∀ e t, tasks s !! e = Some t →
            ∃ t', tasks s' !! e = Some t' ∧
                  (e ≠ rid → t' = t) ∧ (e = rid → t_phase t' = p)).
  { intros e t Ht. rewrite Htasks. destruct (decide (e = rid)) as [->|Hne].
    - rewrite list_lookup_alter_eq, Ht. cbn. eexists; split; [done|]. by split.
    - rewrite list_lookup_alter_ne by done. eexists; split; [done|]. by split. }
  split.
  - intros e He. destruct (Hin e He) as [Hold|]; [|done]. apply Hmono, Hsets, Hold.
  - intros e He. destruct (Hnew e He) as [Hold|(-> & Hnd & [t Ht])].
    + destruct (Helem e Hold) as (Hnd & t & Ht & Hph). split; [done|].
      destruct (Hphase e t Ht) as (t' & Ht' & Hne & Heq). exists t'. split; [done|].
      destruct (decide (e = rid)) as [->|Hner]; [by rewrite Heq | by rewrite Hne].
    + split; [done|]. destruct (Hphase rid t Ht) as (t' & Ht' & _ & Heq).
      exists t'. split; [done|]. by rewrite Heq.
  - intros e He. destruct (Hdead e He) as (t & c & Ht & Hc).
    destruct (Hphase e t Ht) as (t' & Ht' & Hne & Heq).
    destruct (decide (e = rid)) as [->|Hner].
    + destruct Hd as [Hd|[c' ->]]; [done|]. exists t', c'. split; [done | by apply Heq].
    + exists t', c. split; [done|]. by rewrite Hne.
Qed.

Lemma inv_quiet (dead : nat → Prop) (s s' : State) :
  quiet s s' → Inv dead s → Inv dead s'.
Proof.
  intros [Hcore Hact] Hinv. unfold core in Hcore. injection Hcore as Ht Hd Hl Hr.
  apply (inv_footprint dead s s' (length (tasks s)) (Settled Resolved)); try done.
  - rewrite Ht. symmetry. apply alter_absent. by apply lookup_ge_None_2.
  - right. by eexists.
  - by rewrite Hd.
  - intros e He. left. by rewrite <- Hd.
  - intros e He. left. rewrite Hl, Hr in He.
    destruct He as [He|He]; [left; by apply Hact | by right].
Qed.

(** A new call is appended to [tasks]. *)
Lemma inv_new_task (dead : nat → Prop) (s s' : State) (t : Task) :
  Inv dead s →
  tasks s' = tasks s ++ [t] →
  dom (elements s') = dom (elements s) →
  activeAudioElements s' ⊆ activeAudioElements s →
  listeners s' = listeners s → retries s' = retries s →
  Inv dead s'.
Proof.
  intros [Hsets Helem Hdead] Ht Hd Ha Hl Hr.
  assert (Hold : ∀ e t0, tasks s !! e = Some t0 → tasks s' !! e = Some t0).
  { intros e t0 H0. rewrite Ht, lookup_app_l; [done|]. by eapply lookup_lt_Some. }
  split.
  - intros e He. rewrite Hd. apply Hsets. rewrite Hl, Hr in He.
    destruct He as [He|He]; [left; by apply Ha | by right].
  - intros e He. rewrite Hd in He. destruct (Helem e He) as (Hnd & t0 & H0 & Hph).
    split; [done|]. exists t0. split; [by apply Hold | done].
  - intros e He. destruct (Hdead e He) as (t0 & c & H0 & Hc).
    exists t0, c. split; [by apply Hold | done].
Qed.


(** Proves that a straight-line handler is [quiet]. *)
Ltac quiet_now :=
  unfold quiet, core;
  cbn [tasks elements listeners retries activeAudioElements
       log logs revokeObjectURL active_delete update_element schedule_processAudioQueue
       count_request count_queued
       set_pollyClient set_ttsErrorCount set_lastErrorTime set_activeAudioElements
       set_audioQueue set_isProcessingQueue set_audioSettings set_performanceMetrics
       set_elements set_tasks set_queueTimers set_loopDelays set_fades set_listeners
       set_expiries set_retries set_volumeRestores set_hidden set_console set_sent
       set_revoked];
  rewrite ?dom_alter_L;
  split; [reflexivity | first [reflexivity | apply set_delete_subseteq | done]].

Lemma quiet_foldl {A : Type} (f : State → A → State) (l : list A) (s : State) :
  (∀ a x, quiet a (f a x)) → quiet s (foldl f s l).
Proof.
  intros Hf. revert s. induction l as [|x l IH]; intros s; cbn [foldl]; [apply quiet_refl|].
  eapply quiet_trans; [apply Hf | apply IH].
Qed.

Lemma quiet_recordTtsError (ty : string) (now : Z) (s : State) :
  quiet s (recordTtsError ty now s).
Proof. unfold recordTtsError. case_match; quiet_now. Qed.

Lemma quiet_classify_and_record (e : JsError) (now : Z) (s : State) :
  quiet s (snd (classify_and_record e now s)).
Proof.
  unfold classify_and_record.
  repeat case_match; cbn [snd];
    (eapply quiet_trans; [|apply quiet_recordTtsError]) || idtac; quiet_now.
Qed.

Lemma quiet_isTtsTemporarilyDisabled (now : Z) (s : State) :
  quiet s (snd (isTtsTemporarilyDisabled now s)).
Proof. unfold isTtsTemporarilyDisabled. repeat case_match; cbn [snd]; quiet_now. Qed.

Lemma quiet_fadeOutAudio (e : nat) (s : State) : quiet s (fadeOutAudio e s).
Proof. unfold fadeOutAudio. repeat case_match; quiet_now. Qed.

Lemma quiet_manageAudioConcurrency (s : State) : quiet s (manageAudioConcurrency s).
Proof.
  unfold manageAudioConcurrency.
  set (s1 := foldl _ _ _).
  assert (H1 : quiet s s1).
  { subst s1. apply quiet_foldl. intros a x. quiet_now. }
  repeat case_match; try done.
  eapply quiet_trans; [exact H1 | apply quiet_fadeOutAudio].
Qed.

Lemma quiet_queue_loop_exit (s : State) : quiet s (queue_loop_exit s).
Proof. unfold queue_loop_exit. case_match; quiet_now. Qed.

Lemma quiet_after_queue_item (s : State) : quiet s (after_queue_item s).
Proof. unfold after_queue_item. case_match; [apply quiet_queue_loop_exit | quiet_now]. Qed.

(** What [settle] changes: the phase of its call. *)
Lemma settle_footprint (rid : nat) (c : Completion) (s : State) :
  core (settle rid c s) =
    (alter (with_phase (Settled c)) rid (tasks s), dom (elements s), listeners s, retries s) ∧
  activeAudioElements (settle rid c s) = activeAudioElements s.
Proof.
  unfold settle. destruct (tasks s !! rid) as [t|] eqn:Ht.
  - set (s1 := set_phase rid (Settled c) s).
    assert (Hq : ∀ s2, quiet s1 s2 →
              core s2 = (alter (with_phase (Settled c)) rid (tasks s), dom (elements s),
                         listeners s, retries s) ∧
              activeAudioElements s2 ⊆ activeAudioElements s).
    { intros s2 [Hc Ha]. by rewrite Hc. }
    assert (Ha : ∀ s2, s2 = s1 ∨ s2 = log WARN "TTS_DIRECT_ERROR: Failed to process audio directly:" s1
                       ∨ s2 = after_queue_item s1 →
                 activeAudioElements s2 = activeAudioElements s).
    { intros s2 [->|[->| ->]]; try done.
      unfold after_queue_item, queue_loop_exit. by repeat case_match. }
    destruct (t_origin t); [destruct c|].
    + split; [by apply Hq, quiet_refl | apply Ha; by left].
    + split; [apply Hq; quiet_now | apply Ha; right; by left].
    + split; [apply Hq, quiet_after_queue_item | apply Ha; right; by right].
  - split; [|done]. unfold core. by rewrite alter_absent.
Qed.

Lemma inv_settle (dead : nat → Prop) (rid : nat) (c : Completion) (s : State) :
  Inv dead s → Inv dead (settle rid c s).
Proof.
  intros Hinv. destruct (settle_footprint rid c s) as [Hc Ha].
  unfold core in Hc. injection Hc as Ht Hd Hl Hr.
  apply (inv_footprint dead s _ rid (Settled c)); try done.
  - right. by eexists.
  - by rewrite Hd.
  - intros e He. left. by rewrite <- Hd.
  - intros e He. left. by rewrite <- Ha, <- Hl, <- Hr.
Qed.

(** Tasks and elements stay; members of the three sets come from the three
    sets. *)
Lemma inv_reshuffle (dead : nat → Prop) (s s' : State) :
  Inv dead s →
  tasks s' = tasks s → dom (elements s') = dom (elements s) →
  (∀ e, e ∈ activeAudioElements s' ∨ e ∈ listeners s' ∨ e ∈ retries s' →
        e ∈ activeAudioElements s ∨ e ∈ listeners s ∨ e ∈ retries s) →
  Inv dead s'.
Proof.
  intros Hinv Ht Hd Hsets.
  apply (inv_footprint dead s s' (length (tasks s)) (Settled Resolved)); try done.
  - rewrite Ht. symmetry. apply alter_absent. by apply lookup_ge_None_2.
  - right. by eexists.
  - by rewrite Hd.
  - intros e He. left. by rewrite <- Hd.
  - intros e He. left. by apply Hsets.
Qed.

Lemma inv_synthesize (dead : nat → Prop) (text : jsstring) (start now : Z)
    (origin : Origin) (s : State) :
  Inv dead s → Inv dead (synthesizeAndPlayAudio text start origin now s).
Proof.
  intros Hinv. unfold synthesizeAndPlayAudio. cbv zeta.
  destruct (maxTextLength <? length text)%nat;
    match goal with
    | |- context [set_tasks (tasks ?s1 ++ [?t]) ?s1'] =>
        set (s2 := set_tasks (tasks s1 ++ [t]) s1');
        assert (H2 : Inv dead s2)
          by (apply (inv_new_task dead s s2 t); done)
    end;
    (destruct (pollyClient s2);
     [ apply (inv_quiet dead s2); [quiet_now | done]
     | unfold catch_synthesis; apply inv_settle;
       apply (inv_quiet dead s2); [apply quiet_classify_and_record | done] ]).
Qed.

Lemma inv_speakText (dead : nat → Prop) (text : JsValue) (now : Z) (s : State) :
  Inv dead s → Inv dead (snd (speakText text now s)).
Proof.
  intros Hinv. unfold speakText.
  destruct text as [t|]; [|apply (inv_quiet dead s); [quiet_now | done]].
  destruct (invalid_text (JString t)); [apply (inv_quiet dead s); [quiet_now | done]|].
  destruct (negb _); [apply (inv_quiet dead s); [quiet_now | done]|].
  assert (H0 : Inv dead (count_request s)) by (apply (inv_quiet dead s); [quiet_now | done]).
  pose proof (quiet_isTtsTemporarilyDisabled now (count_request s)) as Hq.
  destruct (isTtsTemporarilyDisabled now (count_request s)) as [d s1]. cbn [snd] in Hq.
  assert (H1 : Inv dead s1) by (by apply (inv_quiet dead (count_request s))).
  destruct d; cbn [snd]; [apply (inv_quiet dead s1); [quiet_now | done]|].
  assert (H2 : Inv dead (manageAudioConcurrency s1)).
  { apply (inv_quiet dead s1); [apply quiet_manageAudioConcurrency | done]. }
  destruct (at_capacity _); cbn [snd].
  - apply (inv_quiet dead (manageAudioConcurrency s1)); [quiet_now | done].
  - by apply inv_synthesize.
Qed.

Lemma inv_queue_loop (dead : nat → Prop) (now : Z) (s : State) :
  Inv dead s → Inv dead (queue_loop now s).
Proof.
  intros Hinv. unfold queue_loop.
  destruct (audioQueue s) as [|item rest];
    [apply (inv_quiet dead s); [apply quiet_queue_loop_exit | done]|].
  destruct (at_capacity s);
    [apply (inv_quiet dead s); [apply quiet_queue_loop_exit | done]|].
  apply inv_synthesize. apply (inv_quiet dead s); [quiet_now | done].
Qed.

Lemma inv_processAudioQueue (dead : nat → Prop) (now : Z) (s : State) :
  Inv dead s → Inv dead (processAudioQueue now s).
Proof.
  intros Hinv. unfold processAudioQueue.
  destruct (isProcessingQueue s); [done|].
  destruct (audioQueue s); [done|].
  apply inv_queue_loop. apply (inv_quiet dead s); [quiet_now | done].
Qed.

(** What [play_catch] changes. *)
Lemma play_catch_footprint (rid : nat) (e : JsError) (s : State) :
  core (play_catch rid e s) =
    (alter (with_phase (Settled Resolved)) rid (tasks s), dom (elements s),
     (if String.eqb (err_name e) "NotAllowedError" then listeners s ++ [rid] else listeners s),
     retries s) ∧
  activeAudioElements (play_catch rid e s) = set_delete rid (activeAudioElements s).
Proof.
  unfold play_catch.
  match goal with |- context [settle rid Resolved ?s0] =>
    destruct (settle_footprint rid Resolved s0) as [Hc Ha] end.
  rewrite Hc, Ha. by repeat case_match.
Qed.

Lemma inv_play_catch (dead : nat → Prop) (rid : nat) (e : JsError) (s : State) :
  rid ∈ dom (elements s) → Inv dead s → Inv dead (play_catch rid e s).
Proof.
  intros Hrid Hinv. destruct (play_catch_footprint rid e s) as [Hc Ha].
  unfold core in Hc. injection Hc as Ht Hd Hl Hr.
  apply (inv_footprint dead s _ rid (Settled Resolved)); try done.
  - right. by eexists.
  - by rewrite Hd.
  - intros x Hx. left. by rewrite <- Hd.
  - intros x Hx. rewrite Ha, Hl, Hr, elem_of_set_delete in Hx. rewrite Hd.
    destruct Hx as [[_ Hx]|[Hx|Hx]]; [left; by left | | left; by right; right].
    destruct (String.eqb _ _); [|left; right; by left].
    apply elem_of_app in Hx as [Hx|Hx]; [left; right; by left|].
    apply list_elem_of_singleton in Hx as ->. by right.
Qed.

Lemma inv_play_started (dead : nat → Prop) (rid : nat) (now : Z) (s : State) :
  Inv dead s → Inv dead (play_started rid now s).
Proof.
  intros Hinv. unfold play_started. case_match; [|done].
  apply inv_settle. apply (inv_quiet dead s); [quiet_now | done].
Qed.

Lemma not_dead_unless_settled (dead : nat → Prop) (s : State) (rid : nat) (t : Task) :
  Inv dead s → tasks s !! rid = Some t → (∀ c, t_phase t ≠ Settled c) → ¬ dead rid.
Proof.
  intros Hinv Ht Hns Hd. destruct (inv_dead dead s Hinv rid Hd) as (t' & c & Ht' & Hc).
  rewrite Ht in Ht'. injection Ht' as <-. by eapply Hns.
Qed.

Lemma inv_on_race (dead : nat → Prop) (rid : nat) (o : RaceOutcome) (now : Z)
    (s : State) (t : Task) :
  tasks s !! rid = Some t → t_phase t = AwaitRace →
  Inv dead s → Inv dead (on_race rid o now s).
Proof.
  intros Ht Hph Hinv.
  assert (Hnd : ¬ dead rid).
  { apply (not_dead_unless_settled dead s rid t Hinv Ht). intros c. by rewrite Hph. }
  unfold on_race. destruct o as [e|[|stream]].
  - unfold catch_synthesis. apply inv_settle.
    apply (inv_quiet dead s); [apply quiet_classify_and_record | done].
  - apply inv_settle. apply (inv_quiet dead s); [quiet_now | done].
  - set (a := streamToUint8Array stream). destruct (as_result a) as [err|audioBytes].
    + apply inv_settle. apply (inv_quiet dead s); [quiet_now | done].
    + destruct (length audioBytes =? 0)%nat.
      * apply inv_settle. apply (inv_quiet dead s); [quiet_now | done].
      * cbn [audioSettings logs set_console].
        destruct (volume_setter (defaultVolume (audioSettings s))) as [thrown|volume].
        { unfold catch_synthesis. apply inv_settle.
          apply (inv_quiet dead s); [|done].
          eapply quiet_trans; [|apply quiet_classify_and_record]. quiet_now. }
        remember (active_add rid _) as s0 eqn:Hs0.
        assert (E0 : tasks s0 = tasks s ∧
                     (∃ a0, elements s0 = <[rid:=a0]> (elements s)) ∧
                     activeAudioElements s0 = set_add rid (activeAudioElements s) ∧
                     listeners s0 = listeners s ∧ retries s0 = retries s ∧
                     hidden s0 = hidden s).
        { rewrite Hs0. repeat split. by eexists. }
        clear Hs0. destruct E0 as (E1 & [a0 E2] & E3 & E4 & E5 & E6).
        unfold handleAutoplayOptimization. rewrite E6. destruct (hidden s).
        -- destruct (play_catch_footprint rid
                       (new_Error "NotAllowedError: Page not visible") s0) as [Hc Ha].
           unfold core in Hc. injection Hc as Hc1 Hc2 Hc3 Hc4.
           cbn [err_name new_Error String.eqb Ascii.eqb Bool.eqb] in Hc3.
           rewrite E1 in Hc1. rewrite E2, dom_insert_L in Hc2.
           rewrite E4 in Hc3. rewrite E5 in Hc4. rewrite E3 in Ha.
           apply (inv_footprint dead s _ rid (Settled Resolved)); try done.
           ++ right. by eexists.
           ++ rewrite Hc2. apply union_subseteq_r.
           ++ intros x. rewrite Hc2. intros Hx.
              apply elem_of_union in Hx as [Hx|Hx]; [|by left].
              apply elem_of_singleton in Hx as ->. right. by rewrite Ht.
           ++ intros x. rewrite Ha, Hc3, Hc4, Hc2.
              rewrite elem_of_set_delete, elem_of_set_add, elem_of_union, elem_of_singleton.
              tauto.
        -- assert (F0 : tasks (set_phase rid AwaitPlay (update_element rid (with_paused false) s0))
                          = alter (with_phase AwaitPlay) rid (tasks s) ∧
                        dom (elements (set_phase rid AwaitPlay
                                         (update_element rid (with_paused false) s0)))
                          = {[rid]} ∪ dom (elements s) ∧
                        activeAudioElements (set_phase rid AwaitPlay
                                         (update_element rid (with_paused false) s0))
                          = set_add rid (activeAudioElements s) ∧
                        listeners (set_phase rid AwaitPlay
                                         (update_element rid (with_paused false) s0))
                          = listeners s ∧
                        retries (set_phase rid AwaitPlay
                                         (update_element rid (with_paused false) s0))
                          = retries s).
           { cbn [tasks elements activeAudioElements listeners retries set_phase
                  update_element set_tasks set_elements].
             rewrite E1, E2, E3, E4, E5, dom_alter_L, dom_insert_L. done. }
           destruct F0 as (F1 & F2 & F3 & F4 & F5).
           apply (inv_footprint dead s _ rid AwaitPlay); try done.
           ++ by left.
           ++ rewrite F2. apply union_subseteq_r.
           ++ intros x. rewrite F2. intros Hx.
              apply elem_of_union in Hx as [Hx|Hx]; [|by left].
              apply elem_of_singleton in Hx as ->. right. by rewrite Ht.
           ++ intros x.
              rewrite F2, F3, F4, F5, elem_of_set_add, elem_of_union, elem_of_singleton.
              tauto.
Qed.

Lemma inv_on_play (dead : nat → Prop) (rid : nat) (o : option JsError) (now : Z)
    (s s' : State) :
  rid ∈ dom (elements s) → on_play rid o now s = Some s' →
  Inv dead s → Inv dead s'.
Proof.
  intros Hrid Hplay Hinv. unfold on_play in Hplay.
  destruct (tasks s !! rid) as [t|] eqn:Ht; [|done]. cbn [mbind option_bind] in Hplay.
  destruct (t_phase t) eqn:Hph; try done; destruct o as [e|].
  - destruct (String.eqb (err_name e) "NotAllowedError").
    + destruct (elements s !! rid) as [a|]; [|done]. cbn [mbind option_bind] in Hplay.
      injection Hplay as <-.
      apply (inv_footprint dead s _ rid (AwaitQuietPlay (volume a))); try done.
      * left. apply (not_dead_unless_settled dead s rid t Hinv Ht). intros c. by rewrite Hph.
      * cbn. by rewrite dom_alter_L.
      * intros x. cbn. rewrite dom_alter_L. by left.
      * intros x Hx. by left.
    + injection Hplay as <-. by apply inv_play_catch.
  - injection Hplay as <-. by apply inv_play_started.
  - injection Hplay as <-. apply inv_play_catch.
    + cbn. by rewrite dom_alter_L.
    + apply (inv_quiet dead s); [quiet_now | done].
  - injection Hplay as <-. apply inv_play_started.
    apply (inv_quiet dead s); [quiet_now | done].
Qed.

(** What the gesture handler changes: attached elements move to the retries. *)
Lemma gesture_footprint (l : list nat) (s : State) :
  let s' := foldl (λ acc e, playOnInteraction e acc) s l in
  tasks s' = tasks s ∧ dom (elements s') = dom (elements s) ∧
  activeAudioElements s' = activeAudioElements s ∧
  listeners s' ⊆ listeners s ∧
  (∀ e, e ∈ retries s' → e ∈ retries s ∨ e ∈ l).
Proof.
  revert s. induction l as [|x l IH]; intros s; cbn [foldl].
  - repeat split; try done. intros e He. by left.
  - destruct (IH (playOnInteraction x s)) as (Ht & Hd & Ha & Hl & Hr).
    cbv zeta. rewrite Ht, Hd, Ha. unfold playOnInteraction at 2 3 4. cbn.
    rewrite dom_alter_L. repeat split; try done.
    + intros e He. apply Hl in He. cbn in He. by apply set_delete_subseteq in He.
    + intros e He. apply Hr in He as [He|He]; [|right; by right].
      cbn in He. apply elem_of_app in He as [He|He]; [by left|].
      apply list_elem_of_singleton in He as ->. right. by left.
Qed.

Lemma inv_gesture (dead : nat → Prop) (s : State) : Inv dead s → Inv dead (gesture s).
Proof.
  intros Hinv. unfold gesture.
  destruct (gesture_footprint (listeners s) s) as (Ht & Hd & Ha & Hl & Hr).
  apply (inv_reshuffle dead s); try done.
  intros e [He|[He|He]].
  - left. by rewrite <- Ha.
  - right; left. by apply Hl.
  - apply Hr in He as [He|He]; [right; by right | right; by left].
Qed.

Lemma inv_on_retry (dead : nat → Prop) (e : nat) (started : bool) (s : State) :
  e ∈ retries s → Inv dead s → Inv dead (on_retry e started s).
Proof.
  intros He Hinv. unfold on_retry.
  apply (inv_reshuffle dead s); try (by destruct started).
  intros x. destruct started; cbn.
  - rewrite elem_of_set_add, elem_of_set_delete.
    intros [[->|Hx]|[Hx|[_ Hx]]]; tauto.
  - rewrite elem_of_set_delete. tauto.
Qed.

Lemma inv_on_expire (dead : nat → Prop) (e : nat) (s : State) :
  Inv dead s → Inv dead (on_expire e s).
Proof.
  intros Hinv. apply (inv_reshuffle dead s); try done.
  intros x. cbn. rewrite elem_of_set_delete. tauto.
Qed.

Lemma quiet_setAudioVolume (volume : JsArg) (s : State) :
  quiet s (snd (setAudioVolume volume s)).
Proof.
  split.
  - apply (setAudioVolume_preserves core); try done.
    intros x e f. unfold core. cbn. by rewrite dom_alter_L.
  - by rewrite (setAudioVolume_preserves activeAudioElements).
Qed.

Lemma quiet_stopAllAudio (s : State) : quiet s (stopAllAudio s).
Proof.
  unfold stopAllAudio.
  set (s1 := foldl _ _ _).
  assert (H1 : quiet s s1).
  { subst s1. eapply quiet_trans; [|apply quiet_foldl; intros a x; quiet_now]. quiet_now. }
  destruct H1 as [Hc Ha]. split; [exact Hc|]. cbn.
  intros x Hx. by apply elem_of_nil in Hx.
Qed.

Lemma quiet_on_pause (e : nat) (z : bool) (s : State) : quiet s (on_pause e z s).
Proof. unfold on_pause. case_match; quiet_now. Qed.

Lemma quiet_fade_tick (i : nat) (s s' : State) : fade_tick i s = Some s' → quiet s s'.
Proof.
  unfold fade_tick. intros H.
  destruct (fades s !! i) as [f|]; [|done]. cbn [mbind option_bind] in H.
  destruct (_ || _) in H; injection H as <-; quiet_now.
Qed.

Lemma quiet_initializePollyClient (cfg : AwsConfig) (s : State) :
  quiet s (initializePollyClient cfg s).
Proof. unfold initializePollyClient. repeat case_match; quiet_now. Qed.

(** Every turn of the event loop keeps the invariant. *)
Lemma inv_step (dead : nat → Prop) (now : Z) (ev : Event) (s s' : State) :
  step now ev s = Some s' → Inv dead s → Inv dead s'.
Proof.
  intros Hstep Hinv. destruct ev; cbn [step] in Hstep.
  - injection Hstep as <-. apply (inv_quiet dead s); [apply quiet_initializePollyClient | done].
  - injection Hstep as <-. by apply inv_speakText.
  - injection Hstep as <-. unfold getTtsStatus.
    pose proof (quiet_isTtsTemporarilyDisabled now s) as Hq.
    destruct (isTtsTemporarilyDisabled now s). by apply (inv_quiet dead s).
  - injection Hstep as <-. unfold isPollyAvailable. destruct (pollyClient s); [|done].
    pose proof (quiet_isTtsTemporarilyDisabled now s) as Hq.
    destruct (isTtsTemporarilyDisabled now s). by apply (inv_quiet dead s).
  - injection Hstep as <-. apply (inv_quiet dead s); [quiet_now | done].
  - injection Hstep as <-. apply (inv_quiet dead s); [quiet_now | done].
  - injection Hstep as <-. apply (inv_quiet dead s); [apply quiet_setAudioVolume | done].
  - injection Hstep as <-. apply (inv_quiet dead s); [apply quiet_stopAllAudio | done].
  - destruct (tasks s !! rid) as [t|] eqn:Ht; [|done]. cbn [mbind option_bind] in Hstep.
    destruct (t_phase t) eqn:Hph; try done. injection Hstep as <-.
    by apply (inv_on_race dead rid o now s t).
  - destruct (elements s !! rid) as [a|] eqn:Ha; [|done]. cbn [mbind option_bind] in Hstep.
    apply (inv_on_play dead rid o now s s'); try done.
    apply elem_of_dom. by eexists.
  - case_bool_decide as He; [|done]. injection Hstep as <-. by apply inv_on_retry.
  - destruct (queueTimers s); [done|]. injection Hstep as <-.
    apply inv_processAudioQueue. apply (inv_quiet dead s); [quiet_now | done].
  - destruct (loopDelays s); [done|]. injection Hstep as <-.
    apply inv_queue_loop. apply (inv_quiet dead s); [quiet_now | done].
  - apply (inv_quiet dead s); [by apply (quiet_fade_tick i) | done].
  - unfold on_volume_restore in Hstep.
    destruct (volumeRestores s !! i); [|done]. cbn [mbind option_bind] in Hstep.
    injection Hstep as <-. apply (inv_quiet dead s); [quiet_now | done].
  - case_bool_decide; [|done]. injection Hstep as <-. by apply inv_on_expire.
  - injection Hstep as <-. by apply inv_gesture.
  - injection Hstep as <-. apply (inv_quiet dead s); [quiet_now | done].
  - destruct (elements s !! e); [|done]. cbn [mbind option_bind] in Hstep.
    injection Hstep as <-. apply (inv_quiet dead s); [unfold on_ended; quiet_now | done].
  - destruct (elements s !! e); [|done]. cbn [mbind option_bind] in Hstep.
    injection Hstep as <-. apply (inv_quiet dead s); [unfold on_error; quiet_now | done].
  - destruct (elements s !! e); [|done]. cbn [mbind option_bind] in Hstep.
    injection Hstep as <-. apply (inv_quiet dead s); [apply quiet_on_pause | done].
Qed.

Lemma inv_run (dead : nat → Prop) (trace : list (Z * Event)) (s s' : State) :
  run trace s = Some s' → Inv dead s → Inv dead s'.
Proof.
  revert s. induction trace as [|[now ev] trace IH]; intros s Hrun Hinv; cbn [run] in Hrun.
  - by injection Hrun as <-.
  - destruct (step now ev s) as [s1|] eqn:Hstep; [|done]. cbn [mbind option_bind] in Hrun.
    apply (IH s1 Hrun). by apply (inv_step dead now ev s).
Qed.

Lemma inv_initial : Inv (λ _, False) initial.
Proof.
  split.
  - intros e [He|[He|He]]; by apply elem_of_nil in He.
  - intros e He. cbn in He. by rewrite dom_empty_L in He.
  - done.
Qed.

(** A call that settles while no element exists for it is dead from then on. *)
Lemma inv_settled_without_element (s s' : State) (rid : nat) (t : Task) (c : Completion) :
  Inv (λ _, False) s →
  tasks s !! rid = Some t → t_phase t = AwaitRace →
  core s' =
    (alter (with_phase (Settled c)) rid (tasks s), dom (elements s), listeners s, retries s) →
  activeAudioElements s' = activeAudioElements s →
  Inv (λ e, e = rid) s'.
Proof.
  intros [Hsets Helem _] Ht Hph Hc Ha. unfold core in Hc. injection Hc as Ht' Hd Hl Hr.
  split.
  - intros e He. rewrite Hd. apply Hsets. by rewrite <- Ha, <- Hl, <- Hr.
  - intros e He. rewrite Hd in He. destruct (Helem e He) as (_ & t0 & Ht0 & Hph0).
    assert (Hne : e ≠ rid) by (intros ->; congruence).
    split; [done|]. exists t0. by rewrite Ht', list_lookup_alter_ne.
  - intros e ->. exists (with_phase (Settled c) t), c.
    by rewrite Ht', list_lookup_alter_eq, Ht.
Qed.

Lemma read_loop_zero_bytes (stream : Stream) (fuel from : nat) :
  zero_bytes stream → rl_chunks (read_loop stream fuel from []) = [].
Proof.
  intros Hz. revert from. induction fuel as [|fuel IH]; intros from; cbn [read_loop]; [done|].
  destruct (stream from) as [[v|]| |] eqn:Hs;
    first [done | apply IH | rewrite (Hz _ _ Hs); cbn; apply IH].
Qed.

(** A stream without a byte makes the assembler throw. *)
Lemma zero_bytes_throws (stream : Stream) :
  zero_bytes stream → ∃ e, as_result (streamToUint8Array stream) = inl e.
Proof.
  intros Hz. unfold streamToUint8Array.
  destruct (rl_thrown _); [by eexists|].
  rewrite (read_loop_zero_bytes stream maxReads 0 Hz). cbn [length Nat.eqb]. by eexists.
Qed.

Lemma settle_resolved_rest (rid : nat) (s : State) :
  console (settle rid Resolved s) = console s ∧
  elements (settle rid Resolved s) = elements s ∧
  sent (settle rid Resolved s) = sent s.
Proof. unfold settle, after_queue_item, queue_loop_exit. by repeat case_match. Qed.

(** C9: in any state the game can reach, when the answer to a pending call
    carries a stream without a single byte, the call's promise resolves (the
    catch around the assembler returns normally), the stream error is logged,
    no failure is counted, no audio element is created, the active set is
    unchanged, and whatever happens afterwards, no element of that call is
    ever in the active set. *)
Theorem zero_byte_stream_never_plays (pre : list (Z * Event)) (s : State) (rid : nat)
    (t : Task) (stream : Stream) (now : Z) :
  run pre initial = Some s →
  tasks s !! rid = Some t → t_phase t = AwaitRace →
  zero_bytes stream →
  ∃ s', step now (EvRace rid (RaceFulfilled (AudioStream stream))) s = Some s' ∧
        tasks s' !! rid = Some (with_phase (Settled Resolved) t) ∧
        (ERROR, "TTS_STREAM_ERROR: Failed to process audio stream:") ∈ console s' ∧
        breaker s' = breaker s ∧
        elements s' = elements s ∧
        activeAudioElements s' = activeAudioElements s ∧
        (rid ∉ activeAudioElements s') ∧
        ∀ post s'', run post s' = Some s'' → rid ∉ activeAudioElements s''.
Proof.
  intros Hpre Ht Hph Hz.
  destruct (zero_bytes_throws stream Hz) as [err Herr].
  exists (on_race rid (RaceFulfilled (AudioStream stream)) now s).
  assert (Hinv : Inv (λ _, False) s) by (apply (inv_run _ pre initial s Hpre), inv_initial).
  split; [cbn [step]; by rewrite Ht; cbn; rewrite Hph|].
  unfold on_race. rewrite Herr.
  set (s0 := log ERROR _ (logs _ s)).
  destruct (settle_footprint rid Resolved s0) as [Hc Ha].
  destruct (settle_resolved_rest rid s0) as (Hcon & Hel & _).
  assert (Hdead : Inv (λ e, e = rid) (settle rid Resolved s0)).
  { by apply (inv_settled_without_element s _ rid t Resolved). }
  assert (Hout : ∀ s'', Inv (λ e, e = rid) s'' → rid ∉ activeAudioElements s'').
  { intros s'' Hi Hin.
    destruct (inv_elements _ _ Hi rid (inv_sets _ _ Hi rid (or_introl Hin))) as [Hnd _].
    by apply Hnd. }
  unfold core in Hc. injection Hc as Ht' _ _ _.
  repeat split.
  - by rewrite Ht', list_lookup_alter_eq, Ht.
  - rewrite Hcon. subst s0. cbn. apply elem_of_app. right. apply list_elem_of_here.
  - by rewrite settle_breaker.
  - by rewrite Hel.
  - by rewrite Ha.
  - by apply Hout.
  - intros post s'' Hrun. apply Hout. by apply (inv_run _ post _ s'' Hrun).
Qed.


(** The first call of the game, answered by an empty stream. *)
Lemma zero_byte_stream_never_plays_witness :
  ∃ s', step 200 (EvRace 0 (RaceFulfilled (AudioStream empty_stream)))
             (snd (speakText (JString (str "hello")) 10 ready)) = Some s' ∧
        activeAudioElements s' = [] ∧
        ∀ post s'', run post s' = Some s'' → 0%nat ∉ activeAudioElements s''.
Proof.
  assert (Hpre : run [(0, EvInitialize game_config); (0, EvConfigure game_settings);
                      (10, say "hello")]%Z initial
                 = Some (snd (speakText (JString (str "hello")) 10 ready)))
    by reflexivity.
  assert (Hz : zero_bytes empty_stream) by (intros i v H; discriminate H).
  destruct (zero_byte_stream_never_plays _ _ 0%nat
              (mkTask (str "hello") 10 Direct AwaitRace) empty_stream 200 Hpre
              eq_refl eq_refl Hz)
    as (s' & Hstep & _ & _ & _ & _ & Ha & _ & Hnever).
  exists s'. split; [exact Hstep|]. split; [exact Ha | exact Hnever].
Defined.

(** Of 4000 letters, the first 3000 are sent. *)
Lemma long_text_truncated_then_trimmed_witness :
  sent (synthesizeAndPlayAudio long_text 10 Direct 10 ready) = [(0%nat, replicate 3000 97%N)].
Proof.
  assert (H1 : (maxTextLength < length long_text)%nat) by (vm_compute; lia).
  assert (H2 : pollyClient ready = true) by reflexivity.
  destruct (long_text_truncated_then_trimmed long_text 10 10 Direct ready H1 H2)
    as (_ & _ & _ & _ & Hexact).
  rewrite Hexact.
  - vm_compute. reflexivity.
  - intros c Hc. vm_compute in Hc. injection Hc as <-. reflexivity.
  - intros c Hc. vm_compute in Hc. injection Hc as <-. reflexivity.
Defined.

(** C5, as stated, fails: of a text that starts with a space, the units sent
    are not its first 3000 units but those units without the space (2999
    units). *)
Lemma leading_space_is_not_sent :
  (maxTextLength < length padded_text)%nat ∧
  sent (snd (speakText (JString padded_text) 10 ready)) = [(0%nat, replicate 2999 97%N)] ∧
  replicate 2999 97%N ≠ substring0 maxTextLength padded_text.
Proof.
  split; [vm_compute; lia|]. split; [vm_compute; reflexivity|].
  intros H. apply (f_equal length) in H. vm_compute in H. discriminate H.
Qed.

(** * Further properties of the module *)

(** ** The stream assembler on whole streams *)

Lemma read_loop_prefix (stream : Stream) (n fuel from : nat) (chunks : list (list byte)) :
  (∀ i, (from ≤ i < from + n)%nat → ∃ value, stream i = ReadChunk value) →
  read_loop stream (n + fuel) from chunks =
    read_loop stream fuel (from + n) (chunks ++ kept_chunks stream from n).
Proof.
  revert from chunks. induction n as [|n IH]; intros from chunks Hinc.
  - cbn. by rewrite Nat.add_0_r, app_nil_r.
  - cbn [Nat.add read_loop kept_chunks].
    destruct (Hinc from) as [value Hv]; [lia|]. rewrite Hv.
    rewrite IH by (intros i Hi; apply Hinc; lia).
    replace (S from + n)%nat with (from + S n)%nat by lia.
    destruct value as [[|b v]|]; cbn; [done| |done].
    by rewrite <- app_assoc.
Qed.

Lemma stream_of_chunk (chunks : list (list byte)) (i : nat) :
  (i < length chunks)%nat → ∃ value, stream_of chunks i = ReadChunk value.
Proof.
  intros Hi. unfold stream_of.
  destruct (lookup_lt_is_Some_2 chunks i Hi) as [c ->]. by eexists.
Qed.

Lemma stream_of_done (chunks : list (list byte)) (i : nat) :
  (length chunks ≤ i)%nat → stream_of chunks i = ReadDone.
Proof. intros Hi. unfold stream_of. by rewrite lookup_ge_None_2. Qed.

Lemma kept_chunks_stream_of (chunks : list (list byte)) (from n : nat) :
  concat (kept_chunks (stream_of chunks) from n) = concat (take n (drop from chunks)).
Proof.
  revert from. induction n as [|n IH]; intros from; [done|].
  cbn [kept_chunks]. unfold stream_of at 1.
  destruct (chunks !! from) as [c|] eqn:Hc.
  - rewrite (drop_S _ _ _ Hc). cbn [take concat].
    destruct c as [|b c]; cbn; rewrite IH; done.
  - apply lookup_ge_None_1 in Hc. rewrite IH, !drop_ge by lia.
    by rewrite !take_nil.
Qed.

(** X1: the assembler returns the concatenation.  For a response that
    delivers a list of chunks and then ends, [streamToUint8Array] returns the
    bytes of the first 1000 chunks in order (all of them when there are fewer
    than 1000), or throws the "no data chunks" error when these hold no
    byte.  The bound warning is logged exactly when there are 999 chunks or
    more: the read that reports the end counts toward the bound, so a
    complete response of exactly 999 chunks is warned about as well. *)
Theorem assembler_concatenates_chunks (chunks : list (list byte)) :
  let a := streamToUint8Array (stream_of chunks) in
  as_result a =
    match concat (take maxReads chunks) with
    | [] => inl (new_Error "STREAM_ERROR: No data chunks received from stream")
    | _ :: _ => inr (concat (take maxReads chunks))
    end ∧
  ((WARN, "TTS_STREAM_WARNING: Maximum read attempts reached, stream may be incomplete")
     ∈ as_logs a ↔ (maxReads ≤ S (length chunks))%nat).
Proof.
  cbv zeta. unfold streamToUint8Array.
  set (n := Nat.min maxReads (length chunks)).
  assert (Hloop : ∃ rc logs,
            read_loop (stream_of chunks) maxReads 0 [] =
              mkReadLoop rc (kept_chunks (stream_of chunks) 0 n) logs None ∧
            ((maxReads <=? rc)%nat = true ↔ (maxReads ≤ S (length chunks))%nat) ∧
            (WARN, "TTS_STREAM_WARNING: Maximum read attempts reached, stream may be incomplete")
              ∉ logs).
  { assert (Hrl : read_loop (stream_of chunks) maxReads 0 [] =
                  read_loop (stream_of chunks) (maxReads - n) n
                    (kept_chunks (stream_of chunks) 0 n)).
    { transitivity (read_loop (stream_of chunks) (n + (maxReads - n)) 0 []);
        [f_equal; lia|].
      apply (read_loop_prefix (stream_of chunks) n (maxReads - n) 0 []).
      intros i Hi. apply stream_of_chunk. lia. }
    rewrite Hrl.
    destruct (maxReads - n)%nat as [|fuel] eqn:Hfuel.
    - exists n, []. cbn [read_loop]. split; [done|]. split.
      + rewrite Nat.leb_le. lia.
      + apply not_elem_of_nil.
    - exists (S n), [(LOG, "TTS_STREAM_SUCCESS: Stream processing completed")].
      cbn [read_loop]. rewrite stream_of_done by lia. split; [done|]. split.
      + rewrite Nat.leb_le. lia.
      + intros H. apply list_elem_of_singleton in H. discriminate H. }
  destruct Hloop as (rc & logs & -> & Hrc & Hlogs).
  cbn [rl_thrown rl_logs rl_readCount rl_chunks].
  pose proof (kept_chunks_nonempty (stream_of chunks) 0 n) as Hne.
  pose proof (kept_chunks_stream_of chunks 0 n) as Hcat. rewrite drop_0 in Hcat.
  assert (Htake : take n chunks = take maxReads chunks).
  { subst n. destruct (Nat.min_spec maxReads (length chunks)) as [[_ ->]|[Hle ->]]; [done|].
    by rewrite !take_ge by lia. }
  rewrite Htake in Hcat.
  assert (Hwarn : ∀ rest,
            (WARN, "TTS_STREAM_WARNING: Maximum read attempts reached, stream may be incomplete")
              ∉ rest →
            ((WARN, "TTS_STREAM_WARNING: Maximum read attempts reached, stream may be incomplete")
               ∈ (logs ++
                  (if (maxReads <=? rc)%nat
                   then [(WARN, "TTS_STREAM_WARNING: Maximum read attempts reached, stream may be incomplete")]
                   else [])) ++ rest
             ↔ (maxReads ≤ S (length chunks))%nat)).
  { intros rest Hrest. rewrite <- Hrc, !elem_of_app.
    destruct (maxReads <=? rc)%nat.
    - split; [done|]. intros _. left; right. apply list_elem_of_here.
    - split; [|done]. intros [[H|H]|H]; try done. by apply elem_of_nil in H. }
  destruct (kept_chunks (stream_of chunks) 0 n) as [|c cs] eqn:Hk.
  - cbn [length Nat.eqb as_result as_logs]. cbn in Hcat. rewrite <- Hcat. split; [done|].
    rewrite <- (app_nil_r (_ ++ _)). apply Hwarn, not_elem_of_nil.
  - cbn [length Nat.eqb]. rewrite totalLength_concat.
    pose proof (concat_nonempty (c :: cs) ltac:(done) Hne) as Hpos.
    destruct (0 + length (concat (c :: cs)) =? 0)%nat eqn:Hz;
      [apply Nat.eqb_eq in Hz; lia|].
    cbn [as_result as_logs]. rewrite <- Hcat.
    destruct (concat (c :: cs)) eqn:Hcc; [cbn in Hpos; lia|]. split; [done|].
    apply Hwarn. intros H. apply list_elem_of_singleton in H. discriminate H.
Qed.

(** X2: a failed read fails the whole assembly.  When a read rejects before
    the bound, after any number of delivered chunks, the assembler throws
    "STREAM_READ_ERROR: " followed by the message of the rejection: the
    chunks read so far are dropped, both error lines are logged, no bound
    warning is, and the reader is released. *)
Theorem read_error_discards_chunks (stream : Stream) (n : nat) (message : string) :
  (n < maxReads)%nat →
  incomplete_after n stream →
  stream n = ReadThrows message →
  streamToUint8Array stream =
    mkAssembled
      [(ERROR, "TTS_STREAM_ERROR: Error reading from stream:");
       (ERROR, "TTS_STREAM_ERROR: Stream processing failed:")]
      true
      (inl (new_Error (String.append "STREAM_READ_ERROR: " message))).
Proof.
  intros Hn Hinc Hthrow. unfold streamToUint8Array.
  assert (Hrl : read_loop stream maxReads 0 [] =
                read_loop stream (S (maxReads - S n)) n (kept_chunks stream 0 n)).
  { transitivity (read_loop stream (n + S (maxReads - S n)) 0 []); [f_equal; lia|].
    apply (read_loop_prefix stream n (S (maxReads - S n)) 0 []).
    intros i Hi. apply Hinc. lia. }
  rewrite Hrl. cbn [read_loop]. rewrite Hthrow. done.
Qed.

(** A stream that delivers two chunks and then breaks. *)
Lemma read_error_discards_chunks_witness :
  as_result
    (streamToUint8Array
       (λ i, match i with
             | 0%nat | 1%nat => ReadChunk (Some [x49; x44])
             | _ => ReadThrows "network lost"
             end))
  = inl (new_Error "STREAM_READ_ERROR: network lost").
Proof.
  rewrite (read_error_discards_chunks _ 2 "network lost").
  - reflexivity.
  - vm_compute. lia.
  - intros i Hi. destruct i as [|[|i]]; [by eexists | by eexists | lia].
  - reflexivity.
Defined.

(** ** Validation and the text that is sent *)

Lemma trimStart_nil (t : jsstring) : trimStart t = [] ↔ all_white t.
Proof.
  unfold all_white. induction t as [|c t IH]; cbn.
  - split; [constructor | done].
  - destruct (isWhiteSpace c) eqn:Hc.
    + rewrite IH. split; [by constructor | by inversion 1].
    + split; [done|]. inversion 1; congruence.
Qed.

Lemma trimStart_head (t : jsstring) (c : N) :
  head (trimStart t) = Some c → isWhiteSpace c = false.
Proof.
  induction t as [|x t IH]; cbn; [done|].
  destruct (isWhiteSpace x) eqn:Hx; [done|]. cbn. by intros [= <-].
Qed.

Lemma trimStart_suffix (t : jsstring) : ∃ k, t = k ++ trimStart t.
Proof.
  induction t as [|x t [k IH]]; cbn; [by exists []|].
  destruct (isWhiteSpace x); [|by exists []].
  exists (x :: k). cbn. by f_equal.
Qed.

Lemma trimEnd_prefix (t : jsstring) : ∃ k, t = trimEnd t ++ k.
Proof.
  unfold trimEnd. destruct (trimStart_suffix (reverse t)) as [k Hk].
  exists (reverse k). rewrite <- reverse_app, <- Hk. by rewrite reverse_involutive.
Qed.

Lemma trimEnd_last (t : jsstring) (c : N) :
  last (trimEnd t) = Some c → isWhiteSpace c = false.
Proof. unfold trimEnd. rewrite last_reverse. apply trimStart_head. Qed.

Lemma trimEnd_nil (t : jsstring) : trimEnd t = [] ↔ all_white t.
Proof.
  unfold trimEnd. split.
  - intros H. apply (f_equal reverse) in H. rewrite reverse_involutive in H.
    change (reverse []) with (@nil N) in H. apply trimStart_nil in H.
    unfold all_white in *. by rewrite Forall_reverse in H.
  - intros H. assert (Hr : all_white (reverse t)) by (unfold all_white; by rewrite Forall_reverse).
    apply trimStart_nil in Hr. by rewrite Hr.
Qed.

Lemma trim_nil (t : jsstring) : trim t = [] ↔ all_white t.
Proof.
  unfold trim. rewrite trimEnd_nil. split.
  - intros H. apply trimStart_nil.
    destruct (trimStart t) as [|c r] eqn:Ht; [done|].
    assert (Hc : isWhiteSpace c = false) by (apply (trimStart_head t); by rewrite Ht).
    inversion H; congruence.
  - intros H. apply trimStart_nil in H. rewrite H. constructor.
Qed.

Lemma trim_trimmed (t : jsstring) : trimmed (trim t).
Proof.
  unfold trim. split.
  - intros c Hc. destruct (trimEnd_prefix (trimStart t)) as [k Hk].
    apply (trimStart_head t). rewrite Hk.
    destruct (trimEnd (trimStart t)); [done | exact Hc].
  - apply trimEnd_last.
Qed.

Lemma trim_length (t : jsstring) : (length (trim t) ≤ length t)%nat.
Proof.
  unfold trim. destruct (trimEnd_prefix (trimStart t)) as [k Hk].
  destruct (trimStart_suffix t) as [k' Hk'].
  apply (f_equal length) in Hk, Hk'. rewrite length_app in Hk, Hk'. lia.
Qed.

(** X3: the input check of [speakText].  The call is rejected exactly for a
    value that is not a string and for a string made of white space only
    (the empty string included); a rejected call returns at once, counts as
    one request, and touches neither the network, the tasks, the queue, the
    active set nor the breaker. *)
Theorem blank_text_is_rejected (text : JsValue) (now : Z) (s : State) :
  (invalid_text text = true ↔ text = JOther ∨ ∃ t, text = JString t ∧ all_white t) ∧
  (invalid_text text = true →
     fst (speakText text now s) = Returned ∧
     totalRequests (performanceMetrics (snd (speakText text now s)))
       = S (totalRequests (performanceMetrics s)) ∧
     traffic (snd (speakText text now s)) = traffic s ∧
     activeAudioElements (snd (speakText text now s)) = activeAudioElements s ∧
     breaker (snd (speakText text now s)) = breaker s).
Proof.
  split.
  - destruct text as [t|]; cbn.
    + pose proof (trim_nil t) as Ht. destruct (trim t) eqn:Htr.
      * split; [intros _; right; exists t; split; [done | by apply Ht] | done].
      * split; [done|]. intros [H|(t' & [= <-] & Hw)]; [done|].
        apply Ht in Hw. done.
    + split; [by left | done].
  - intros Hinv. unfold speakText. destruct text as [t|]; [|done]. by rewrite Hinv.
Qed.

(** X4: what reaches the service.  Whenever [synthesizeAndPlayAudio] sends a
    request (the client is there), the text it sends has at most 3000 units
    and neither starts nor ends with white space.  It can be empty: a valid
    text whose first 3000 units are spaces is sent as the empty string. *)
Theorem sent_text_is_bounded_and_trimmed (text : jsstring) (start now : Z)
    (origin : Origin) (s : State) :
  pollyClient s = true →
  (∃ T, sent (synthesizeAndPlayAudio text start origin now s)
          = sent s ++ [(length (tasks s), T)] ∧
        (length T ≤ maxTextLength)%nat ∧ trimmed T) ∧
  invalid_text (JString spaces_then_letter) = false ∧
  sent (snd (speakText (JString spaces_then_letter) now ready)) = [(0%nat, [])].
Proof.
  intros Hclient. split; [|split; vm_compute; reflexivity].
  rewrite (synthesize_with_client _ _ _ _ _ Hclient). cbv zeta.
  eexists. split; [reflexivity|]. split; [|apply trim_trimmed].
  etransitivity; [apply trim_length|].
  destruct (Nat.ltb_spec maxTextLength (length text)); [|lia].
  unfold substring0. rewrite length_take. lia.
Qed.

Lemma sent_text_is_bounded_and_trimmed_witness :
  ∃ T, sent (synthesizeAndPlayAudio padded_text 10 Direct 10 ready) = [(0%nat, T)] ∧
       (length T ≤ maxTextLength)%nat.
Proof.
  destruct (sent_text_is_bounded_and_trimmed padded_text 10 10 Direct ready eq_refl)
    as [(T & HT & Hlen & _) _].
  exists T. split; [exact HT | exact Hlen].
Defined.

(** ** Settings written twice *)

(** X5: valid settings are stored as given, and validation is idempotent.
    [configureAudioSettings] called with all four settings inside their
    ranges stores exactly those numbers; and calling it again with an empty
    object changes no number, whatever the first call was given. *)
Theorem configure_keeps_valid_settings (a : AudioSettings) (p : PartialSettings) (s : State) :
  (in_range a →
   settings_eq (audioSettings (configureAudioSettings (all_of a) s)) a) ∧
  settings_eq
    (audioSettings (configureAudioSettings no_settings (configureAudioSettings p s)))
    (audioSettings (configureAudioSettings p s)).
Proof.
  split.
  - intros (H1 & H2 & H3). unfold settings_eq. cbn [configureAudioSettings configured
      audioSettings set_audioSettings log set_console all_of spread default ToNumber
      p_maxConcurrentAudio p_defaultVolume p_fadeOutDuration p_queueProcessingDelay
      maxConcurrentAudio defaultVolume fadeOutDuration queueProcessingDelay].
    repeat split; by apply clamp_inside.
  - unfold settings_eq. cbn [configureAudioSettings configured
      audioSettings set_audioSettings log set_console no_settings spread default ToNumber
      p_maxConcurrentAudio p_defaultVolume p_fadeOutDuration p_queueProcessingDelay
      maxConcurrentAudio defaultVolume fadeOutDuration queueProcessingDelay].
    repeat split; apply clamp_clamp; discriminate.
Qed.

(** ** Stopping everything *)

Lemma stop_fold_footprint (l : list nat) (s : State) :
  let s' := foldl (λ acc e, acc |> update_element e (with_paused true) |> revokeObjectURL e) s l in
  revoked s' = revoked s ++ l ∧
  (∀ e, elements s' !! e =
        if bool_decide (e ∈ l) then with_paused true <$> elements s !! e
        else elements s !! e) ∧
  traffic s' = traffic s ∧ breaker s' = breaker s ∧
  queueTimers s' = queueTimers s ∧ loopDelays s' = loopDelays s ∧
  performanceMetrics s' = performanceMetrics s ∧ listeners s' = listeners s ∧
  retries s' = retries s ∧ hidden s' = hidden s ∧ audioSettings s' = audioSettings s.
Proof.
  revert s. induction l as [|x l IH]; intros s; cbn [foldl].
  - cbv zeta. rewrite app_nil_r. repeat split.
  - destruct (IH (revokeObjectURL x (update_element x (with_paused true) s)))
      as (Hr & He & Ht & Hb & H1 & H2 & H3 & H4 & H5 & H6 & H7).
    cbv zeta. rewrite Hr, Ht, Hb, H1, H2, H3, H4, H5, H6, H7.
    split; [cbn; by rewrite <- app_assoc|]. split; [|done].
    intros e. rewrite He. cbn [elements revokeObjectURL set_revoked update_element set_elements].
    destruct (decide (e = x)) as [->|Hne].
    + rewrite lookup_alter_eq, (bool_decide_eq_true_2 (x ∈ x :: l)) by apply list_elem_of_here.
      case_bool_decide; [|done].
      destruct (elements s !! x); done.
    + rewrite lookup_alter_ne by done.
      case_bool_decide as H; case_bool_decide as H'; try done.
      * exfalso. apply H'. by apply list_elem_of_further.
      * exfalso. apply H. apply elem_of_cons in H' as [?|?]; done.
Qed.

(** X6: [stopAllAudio] releases everything, once.  After it the active set
    and the queue are empty and the drain flag is cleared; every element that
    was active has been paused and its blob URL revoked exactly once by this
    call, in the order of the set; elements that were not active are
    untouched.  A second call right after revokes nothing and changes
    neither set, queue nor elements. *)
Theorem stopAll_releases_everything_once (s : State) :
  let s1 := stopAllAudio s in
  let s2 := stopAllAudio s1 in
  activeAudioElements s1 = [] ∧ audioQueue s1 = [] ∧ isProcessingQueue s1 = false ∧
  revoked s1 = revoked s ++ activeAudioElements s ∧
  (∀ e, elements s1 !! e =
        if bool_decide (e ∈ activeAudioElements s)
        then with_paused true <$> elements s !! e
        else elements s !! e) ∧
  activeAudioElements s2 = [] ∧ audioQueue s2 = [] ∧ isProcessingQueue s2 = false ∧
  revoked s2 = revoked s1 ∧ elements s2 = elements s1.
Proof.
  cbv zeta. unfold stopAllAudio at 1 2 3 4 5.
  cbn [activeAudioElements audioQueue isProcessingQueue revoked elements log set_console
       set_activeAudioElements set_audioQueue set_isProcessingQueue].
  destruct (stop_fold_footprint (activeAudioElements s)
              (log LOG "TTS_AUDIO_CONTROL: Stopping all active audio" s))
    as (Hr & He & _).
  cbv zeta in Hr, He. split; [done|]. split; [done|]. split; [done|].
  split; [exact Hr|]. split; [exact He|].
  set (s1 := stopAllAudio s).
  assert (Ha : activeAudioElements s1 = []) by done.
  unfold stopAllAudio. rewrite Ha. done.
Qed.

(** What [stopAllAudio] leaves alone. *)
Lemma stopAll_frame (s : State) :
  traffic (stopAllAudio s) = ([], tasks s, sent s) ∧
  breaker (stopAllAudio s) = breaker s ∧
  queueTimers (stopAllAudio s) = queueTimers s ∧
  loopDelays (stopAllAudio s) = loopDelays s ∧
  performanceMetrics (stopAllAudio s) = performanceMetrics s ∧
  hidden (stopAllAudio s) = hidden s ∧
  audioSettings (stopAllAudio s) = audioSettings s ∧
  activeAudioElements (stopAllAudio s) = [].
Proof.
  destruct (stop_fold_footprint (activeAudioElements s)
              (log LOG "TTS_AUDIO_CONTROL: Stopping all active audio" s))
    as (_ & _ & Htr & Hb & Hq & Hl & Hm & _ & _ & Hh & Hs).
  cbv zeta in Htr, Hb, Hq, Hl, Hm, Hh, Hs. unfold traffic in Htr. injection Htr as _ Htk Hsn.
  unfold stopAllAudio, traffic, breaker in *.
  cbn [audioQueue tasks sent ttsErrorCount lastErrorTime queueTimers loopDelays
       performanceMetrics hidden audioSettings activeAudioElements log set_console
       set_activeAudioElements set_audioQueue set_isProcessingQueue] in *.
  injection Hb as Hb1 Hb2. by rewrite Htk, Hsn, Hb1, Hb2, Hq, Hl, Hm, Hh, Hs.
Qed.

(** The answer of a pending call assembles on a visible page: the element is
    created with the default volume, joins the active set and is played. *)
Lemma on_race_admits (s : State) (rid : nat) (stream : Stream) (bytes : list byte)
    (volume : Q) (now : Z) :
  as_result (streamToUint8Array stream) = inr bytes → bytes ≠ [] → hidden s = false →
  volume_setter (defaultVolume (audioSettings s)) = inr volume →
  let s' := on_race rid (RaceFulfilled (AudioStream stream)) now s in
  activeAudioElements s' = set_add rid (activeAudioElements s) ∧
  tasks s' = alter (with_phase AwaitPlay) rid (tasks s) ∧
  elements s' !! rid = Some (mkAudio volume false false false) ∧
  breaker s' = breaker s ∧ sent s' = sent s ∧ audioQueue s' = audioQueue s.
Proof.
  intros Hres Hbytes Hvis Hvol. cbv zeta. unfold on_race. rewrite Hres.
  destruct bytes as [|b bytes]; [done|]. cbn [length Nat.eqb].
  cbn [audioSettings logs set_console]. rewrite Hvol.
  unfold handleAutoplayOptimization.
  cbn [hidden logs set_console set_elements active_add set_activeAudioElements].
  rewrite Hvis.
  cbn [activeAudioElements tasks elements set_phase update_element set_tasks set_elements
       logs set_console active_add set_activeAudioElements audioSettings].
  repeat split. by rewrite lookup_alter_eq, lookup_insert_eq.
Qed.

(** The same answer when the default volume cannot be written to the new
    element: the setter throws inside the [try], and the call ends in the
    catch block without an element. *)
Lemma on_race_volume_refused (s : State) (rid : nat) (stream : Stream) (bytes : list byte)
    (thrown : JsError) (now : Z) :
  as_result (streamToUint8Array stream) = inr bytes → bytes ≠ [] →
  volume_setter (defaultVolume (audioSettings s)) = inl thrown →
  on_race rid (RaceFulfilled (AudioStream stream)) now s =
    catch_synthesis thrown rid now (logs (as_logs (streamToUint8Array stream)) s).
Proof.
  intros Hres Hbytes Hvol. unfold on_race. rewrite Hres.
  destruct bytes as [|b bytes]; [done|]. cbn [length Nat.eqb].
  cbn [audioSettings logs set_console]. by rewrite Hvol.
Qed.

(** X7: [stopAllAudio] cancels no request in flight.  The calls of
    [synthesizeAndPlayAudio] that wait for their answer, the requests already
    sent, the pending queue timers and the counters are left as they are; so
    when the answer of such a call arrives after the stop (a stream that
    assembles, on a visible page), its element is created and joins the
    emptied active set.  (When the default volume is not a number that the
    element accepts, the answer creates no element before or after a stop:
    the call ends in the catch block and the set stays empty.) *)
Theorem stopAll_keeps_requests_in_flight (s : State) (rid : nat) (t : Task)
    (stream : Stream) (bytes : list byte) (now : Z) :
  tasks s !! rid = Some t → t_phase t = AwaitRace →
  as_result (streamToUint8Array stream) = inr bytes → bytes ≠ [] →
  hidden s = false →
  tasks (stopAllAudio s) = tasks s ∧ sent (stopAllAudio s) = sent s ∧
  queueTimers (stopAllAudio s) = queueTimers s ∧
  performanceMetrics (stopAllAudio s) = performanceMetrics s ∧
  ∃ s', step now (EvRace rid (RaceFulfilled (AudioStream stream))) (stopAllAudio s) = Some s' ∧
        match volume_setter (defaultVolume (audioSettings s)) with
        | inr _ =>
            activeAudioElements s' = [rid] ∧
            (∃ t', tasks s' !! rid = Some t' ∧ t_phase t' = AwaitPlay)
        | inl _ =>
            activeAudioElements s' = [] ∧
            (∃ t', tasks s' !! rid = Some t' ∧ t_phase t' = Settled Resolved)
        end.
Proof.
  intros Ht Hph Hres Hbytes Hvis.
  destruct (stopAll_frame s) as (Htr & _ & Hq & _ & Hm & Hh & Hset & Ha).
  assert (Htk : tasks (stopAllAudio s) = tasks s)
    by exact (f_equal (λ x, snd (fst x)) Htr).
  assert (Hsn : sent (stopAllAudio s) = sent s) by exact (f_equal snd Htr).
  rewrite Hvis in Hh.
  repeat split; try done.
  eexists. split.
  { cbn [step]. rewrite Htk, Ht. cbn [mbind option_bind]. by rewrite Hph. }
  destruct (volume_setter (defaultVolume (audioSettings s))) as [thrown|volume] eqn:Hvol;
    rewrite <- Hset in Hvol.
  - rewrite (on_race_volume_refused _ _ _ _ _ _ Hres Hbytes Hvol).
    unfold catch_synthesis. split.
    + destruct (settle_footprint rid Resolved
                  (snd (classify_and_record thrown now
                          (logs (as_logs (streamToUint8Array stream)) (stopAllAudio s)))))
        as [_ ->].
      pose proof (proj2 (quiet_classify_and_record thrown now
                           (logs (as_logs (streamToUint8Array stream)) (stopAllAudio s))))
        as Hsub.
      cbn [activeAudioElements logs set_console] in Hsub. rewrite Ha in Hsub.
      match goal with |- activeAudioElements ?sx = [] =>
        destruct (activeAudioElements sx) as [|x l]; [done|] end.
      exfalso. specialize (Hsub x (list_elem_of_here x l)). by apply elem_of_nil in Hsub.
    + rewrite settle_tasks, classify_and_record_tasks.
      cbn [tasks logs set_console]. rewrite Htk, list_lookup_alter_eq, Ht. by eexists.
  - pose proof (on_race_admits (stopAllAudio s) rid stream bytes volume now
                  Hres Hbytes Hh Hvol) as Hadm.
    cbv zeta in Hadm. destruct Hadm as (Ha' & Ht' & _).
    rewrite Ha', Ht', Ha, Htk. split; [done|].
    rewrite list_lookup_alter_eq, Ht. by eexists.
Qed.

Lemma stopAll_keeps_requests_in_flight_witness :
  ∃ s', step 500 (mp3 0) (stopAllAudio (snd (speakText (JString (str "hello")) 10 ready)))
          = Some s' ∧
        activeAudioElements s' = [0%nat].
Proof.
  destruct (stopAll_keeps_requests_in_flight
              (snd (speakText (JString (str "hello")) 10 ready)) 0
              (mkTask (str "hello") 10 Direct AwaitRace) one_chunk [x49; x44; x33] 500
              eq_refl eq_refl eq_refl ltac:(discriminate) eq_refl)
    as (_ & _ & _ & _ & s' & Hstep & Hs').
  exists s'. split; [exact Hstep | exact (proj1 Hs')].
Defined.

(** ** The client: credentials and availability *)

Lemma settle_client (rid : nat) (c : Completion) (s : State) :
  pollyClient (settle rid c s) = pollyClient s.
Proof. unfold settle, after_queue_item, queue_loop_exit. by repeat case_match. Qed.

Lemma recordTtsError_client (ty : string) (now : Z) (s : State) :
  pollyClient (recordTtsError ty now s) = pollyClient s.
Proof. unfold recordTtsError. by case_match. Qed.

Lemma classify_credentials_client (e : JsError) (now : Z) (s : State) :
  fst (classify_and_record e now s) = "CREDENTIALS" →
  pollyClient (snd (classify_and_record e now s)) = false.
Proof.
  unfold classify_and_record.
  repeat case_match; cbn [fst snd]; try discriminate.
  intros _. by rewrite recordTtsError_client.
Qed.

(** Without a client [speakText] returns before anything else happens. *)
Lemma speak_without_client (text : JsValue) (now : Z) (s : State) :
  pollyClient s = false →
  fst (speakText text now s) = Returned ∧
  pollyClient (snd (speakText text now s)) = false ∧
  traffic (snd (speakText text now s)) = traffic s ∧
  breaker (snd (speakText text now s)) = breaker s ∧
  activeAudioElements (snd (speakText text now s)) = activeAudioElements s.
Proof.
  intros Hc. unfold speakText. destruct text as [t|]; [|done].
  destruct (invalid_text (JString t)); [done|].
  change (pollyClient (count_request s)) with (pollyClient s). by rewrite Hc.
Qed.

Lemma calls_without_client (calls : list (JsValue * Z)) (s : State) :
  pollyClient s = false →
  pollyClient (foldl call s calls) = false ∧
  traffic (foldl call s calls) = traffic s ∧
  breaker (foldl call s calls) = breaker s ∧
  activeAudioElements (foldl call s calls) = activeAudioElements s.
Proof.
  revert s. induction calls as [|[text now] calls IH]; intros s Hc; cbn [foldl]; [done|].
  destruct (speak_without_client text now s Hc) as (_ & H1 & H2 & H3 & H4).
  unfold call at 2 4 6 8. cbn [fst snd].
  destruct (IH _ H1) as (I1 & I2 & I3 & I4). by rewrite I1, I2, I3, I4, H2, H3, H4.
Qed.

(** X8: a credentials failure switches the narration off until the client is
    initialized again.  The catch block removes the client; from then on
    every call of [speakText], at any time, returns at once without a
    request, a task or a queue entry and without touching the breaker;
    [resetTtsErrors()] does not bring the client back; a call of
    [initializePollyClient()] with both keys present does. *)
Theorem credentials_failure_disables_client (e : JsError) (rid : nat) (now : Z) (s : State) :
  fst (classify_and_record e now s) = "CREDENTIALS" →
  let s1 := on_race rid (RaceRejected e) now s in
  pollyClient s1 = false ∧
  (∀ calls, let s2 := foldl call s1 calls in
            pollyClient s2 = false ∧ traffic s2 = traffic s1 ∧ breaker s2 = breaker s1 ∧
            ∀ text now', fst (speakText text now' s2) = Returned) ∧
  pollyClient (resetTtsErrors s1) = false ∧
  (∀ cfg, initializePollyClient_returns cfg = true →
          pollyClient (initializePollyClient cfg s1) = true).
Proof.
  intros Hk s1.
  assert (H1 : pollyClient s1 = false).
  { subst s1. cbn [on_race]. unfold catch_synthesis.
    rewrite settle_client. by apply classify_credentials_client. }
  split; [exact H1|]. split; [|split].
  - intros calls s2. destruct (calls_without_client calls s1 H1) as (I1 & I2 & I3 & _).
    repeat split; try done. intros text now'. by apply speak_without_client.
  - exact H1.
  - intros cfg Hcfg. unfold initializePollyClient_returns in Hcfg.
    apply andb_true_iff in Hcfg as [Ha Hb]. unfold initializePollyClient.
    destruct (blank (accessKeyId cfg)); [done|]. destruct (blank (secretAccessKey cfg)); [done|].
    by destruct (blank (region cfg)).
Qed.

Lemma credentials_failure_disables_client_witness :
  pollyClient (on_race 0 (RaceRejected CredentialsProviderError) 300
                 (snd (speakText (JString (str "hello")) 10 ready))) = false.
Proof.
  exact (proj1 (credentials_failure_disables_client CredentialsProviderError 0 300
                  (snd (speakText (JString (str "hello")) 10 ready)) eq_refl)).
Defined.

(** X9: what [initializePollyClient()] needs.  A client is created exactly
    when the access key and the secret key are both present and not made of
    white space only; a missing region does not prevent it.  A call that
    creates none leaves [pollyClient] as it was, so it does not remove a
    client created before.  The game writes its own audio settings only
    when the call returned a client; otherwise the module defaults stay. *)
Theorem initialize_needs_both_keys (cfg : AwsConfig) (s : State) :
  getPollyClient (initializePollyClient cfg s) =
    (if initializePollyClient_returns cfg then true else getPollyClient s) ∧
  (∀ x, blank x = true ↔ x = None ∨ ∃ v, x = Some v ∧ all_white v) ∧
  traffic (initializePollyClient cfg s) = traffic s ∧
  breaker (initializePollyClient cfg s) = breaker s ∧
  fst (game_start cfg s) = initializePollyClient_returns cfg ∧
  audioSettings (snd (game_start cfg s)) =
    (if initializePollyClient_returns cfg
     then configured (audioSettings s) game_settings else audioSettings s).
Proof.
  split; [|split; [|split; [|split; [|split]]]].
  - unfold getPollyClient, initializePollyClient, initializePollyClient_returns.
    destruct (blank (accessKeyId cfg)); [done|]. destruct (blank (secretAccessKey cfg)); [done|].
    by destruct (blank (region cfg)).
  - intros [v|]; cbn.
    + pose proof (trim_nil v) as Hv. destruct (trim v) eqn:Ht.
      * split; [intros _; right; exists v; split; [done | by apply Hv] | done].
      * split; [done|]. intros [H|(v' & [= <-] & Hw)]; [done|]. by apply Hv in Hw.
    + split; [by left | done].
  - unfold initializePollyClient. by repeat case_match.
  - unfold initializePollyClient. by repeat case_match.
  - done.
  - unfold game_start, initializePollyClient, initializePollyClient_returns. cbv zeta.
    destruct (blank (accessKeyId cfg)); [done|]. destruct (blank (secretAccessKey cfg)); [done|].
    by destruct (blank (region cfg)).
Qed.

(** ** The drain loop and the breaker *)



Lemma recordTtsError_active (ty : string) (now : Z) (s : State) :
  activeAudioElements (recordTtsError ty now s) = activeAudioElements s.
Proof. unfold recordTtsError. by case_match. Qed.

Lemma catch_null_client (now : Z) (s : State) :
  snd (classify_and_record null_client_TypeError now s) =
    s |> log WARN "TTS_UNKNOWN_ERROR: Unexpected error during text-to-speech:"
      |> recordTtsError "UNKNOWN" now.
Proof. reflexivity. Qed.

Lemma null_client_recorded (text1 : jsstring) (start now : Z) (origin : Origin) (s s1 : State) :
  traffic s1 = traffic s → breaker s1 = breaker s →
  activeAudioElements s1 = activeAudioElements s →
  traffic (recordTtsError "UNKNOWN" now
             (log WARN "TTS_UNKNOWN_ERROR: Unexpected error during text-to-speech:"
                (set_tasks (tasks s1 ++ [mkTask text1 start origin AwaitRace])
                   (log LOG "TTS_REQUEST: Synthesizing speech for text:" s1))))
    = (audioQueue s, tasks s ++ [mkTask text1 start origin AwaitRace], sent s) ∧
  breaker (recordTtsError "UNKNOWN" now
             (log WARN "TTS_UNKNOWN_ERROR: Unexpected error during text-to-speech:"
                (set_tasks (tasks s1 ++ [mkTask text1 start origin AwaitRace])
                   (log LOG "TTS_REQUEST: Synthesizing speech for text:" s1))))
    = (S (ttsErrorCount s), Some now) ∧
  activeAudioElements
    (recordTtsError "UNKNOWN" now
       (log WARN "TTS_UNKNOWN_ERROR: Unexpected error during text-to-speech:"
          (set_tasks (tasks s1 ++ [mkTask text1 start origin AwaitRace])
             (log LOG "TTS_REQUEST: Synthesizing speech for text:" s1))))
    = activeAudioElements s.
Proof.
  intros Htr Hbr Hact. split; [|split].
  - rewrite recordTtsError_traffic. unfold traffic in *.
    injection Htr as Hq Ht Hs. cbn. by rewrite Hq, Ht, Hs.
  - rewrite recordTtsError_breaker. unfold breaker in Hbr.
    injection Hbr as Hb1 Hb2. cbn. by rewrite Hb1.
  - rewrite recordTtsError_active. cbn. exact Hact.
Qed.

Lemma settle_last_task (s3 : State) (l : list Task) (t : Task) (q : list QueueItem)
    (sn : list (nat * jsstring)) :
  traffic s3 = (q, l ++ [t], sn) →
  tasks (settle (length l) Resolved s3) = l ++ [with_phase (Settled Resolved) t] ∧
  sent (settle (length l) Resolved s3) = sn ∧
  audioQueue (settle (length l) Resolved s3) = q ∧
  breaker (settle (length l) Resolved s3) = breaker s3 ∧
  activeAudioElements (settle (length l) Resolved s3) = activeAudioElements s3.
Proof.
  intros Htr. unfold traffic in Htr. injection Htr as Hq Ht Hs.
  destruct (settle_footprint (length l) Resolved s3) as [Hcore Ha].
  destruct (settle_resolved_rest (length l) s3) as (_ & _ & Hsent).
  assert (Htasks : tasks (settle (length l) Resolved s3)
                   = alter (with_phase (Settled Resolved)) (length l) (tasks s3))
    by exact (f_equal (λ x, fst (fst (fst x))) Hcore).
  rewrite Htasks, Hsent, settle_queue, settle_breaker, Ha, Ht, Hs, Hq.
  by rewrite alter_last.
Qed.

(** Without a client the first segment of [synthesizeAndPlayAudio] fails on
    [pollyClient.send] and the catch block records an unknown failure. *)
Lemma synthesize_without_client (text : jsstring) (start now : Z) (origin : Origin)
    (s : State) :
  pollyClient s = false →
  let s' := synthesizeAndPlayAudio text start origin now s in
  let text1 := if (maxTextLength <? length text)%nat
               then substring0 maxTextLength text else text in
  tasks s' = tasks s ++ [mkTask text1 start origin (Settled Resolved)] ∧
  sent s' = sent s ∧ audioQueue s' = audioQueue s ∧
  breaker s' = (S (ttsErrorCount s), Some now) ∧
  activeAudioElements s' = activeAudioElements s.
Proof.
  intros Hclient. cbv zeta. unfold synthesizeAndPlayAudio. cbv zeta.
  destruct (maxTextLength <? length text)%nat.
  - change (pollyClient (set_tasks _ _)) with (pollyClient s). rewrite Hclient.
    unfold catch_synthesis. rewrite catch_null_client.
    destruct (null_client_recorded (substring0 maxTextLength text) start now origin s
                (log WARN "TTS_INPUT_ERROR: Text too long. Truncating." s)
                eq_refl eq_refl eq_refl) as (H1 & H2 & H3).
    destruct (settle_last_task _ _ _ _ _ H1) as (G1 & G2 & G3 & G4 & G5).
    by rewrite G1, G2, G3, G4, G5, H2, H3.
  - change (pollyClient (set_tasks _ _)) with (pollyClient s). rewrite Hclient.
    unfold catch_synthesis. rewrite catch_null_client.
    destruct (null_client_recorded text start now origin s s eq_refl eq_refl eq_refl)
      as (H1 & H2 & H3).
    destruct (settle_last_task _ _ _ _ _ H1) as (G1 & G2 & G3 & G4 & G5).
    by rewrite G1, G2, G3, G4, G5, H2, H3.
Qed.



(** ** The call site in the game *)

Lemma breaker_check_passed (now : Z) (s s1 : State) :
  isTtsTemporarilyDisabled now s = (false, s1) →
  (ttsErrorCount s1 < MAX_ERROR_COUNT)%nat ∧ pollyClient s1 = pollyClient s.
Proof.
  unfold isTtsTemporarilyDisabled.
  destruct (Nat.ltb_spec (ttsErrorCount s) MAX_ERROR_COUNT) as [Hlt|Hge].
  - intros [= <-]. done.
  - destruct (lastErrorTime s) as [t|]; [|done].
    destruct (negb (t =? 0)%Z && (ERROR_RESET_TIME <? now - t)%Z); [|done].
    intros [= <-]. cbn. unfold MAX_ERROR_COUNT. split; [lia | done].
Qed.

Lemma breaker_check_failed (now : Z) (s s1 : State) :
  isTtsTemporarilyDisabled now s = (true, s1) → s1 = s.
Proof.
  unfold isTtsTemporarilyDisabled. repeat case_match; by intros [= <-].
Qed.

(** A valid call that finds a client and a closed breaker is queued or
    started, never returned. *)
Lemma speak_admitted (t : jsstring) (now : Z) (s : State) :
  invalid_text (JString t) = false → pollyClient s = true →
  (ttsErrorCount s < MAX_ERROR_COUNT)%nat →
  fst (speakText (JString t) now s) ≠ Returned.
Proof.
  intros Hv Hc Hb. unfold speakText. rewrite Hv.
  change (pollyClient (count_request s)) with (pollyClient s). rewrite Hc. cbn [negb].
  rewrite (breaker_closed (count_request s) now Hb).
  by destruct (at_capacity _).
Qed.

Lemma available_true (now : Z) (s s1 : State) :
  isPollyAvailable now s = (true, s1) →
  pollyClient s1 = true ∧ (ttsErrorCount s1 < MAX_ERROR_COUNT)%nat.
Proof.
  unfold isPollyAvailable. destruct (pollyClient s) eqn:Hc; [|done].
  destruct (isTtsTemporarilyDisabled now s) as [d s2] eqn:Hd.
  destruct d; [done|]. intros [= <-].
  destruct (breaker_check_passed now s s2 Hd) as [Hb Hc1]. split; [congruence | done].
Qed.

Lemma available_false (now : Z) (s s1 : State) :
  isPollyAvailable now s = (false, s1) → s1 = s.
Proof.
  unfold isPollyAvailable. destruct (pollyClient s) eqn:Hc; [|by intros [= <-]].
  destruct (isTtsTemporarilyDisabled now s) as [d s2] eqn:Hd.
  destruct d; [|done]. intros [= <-]. by apply (breaker_check_failed now s).
Qed.

(** What a second availability check at a later reading of the clock can
    do after a first one has answered no: nothing, or the reset of a breaker
    whose cooldown has ended by then. *)
Lemma available_again (later : Z) (s : State) :
  traffic (snd (isPollyAvailable later s)) = traffic s ∧
  performanceMetrics (snd (isPollyAvailable later s)) = performanceMetrics s ∧
  activeAudioElements (snd (isPollyAvailable later s)) = activeAudioElements s ∧
  (snd (isPollyAvailable later s) = s ∨
   breaker (snd (isPollyAvailable later s)) = (0%nat, None) ∧
   (MAX_ERROR_COUNT ≤ ttsErrorCount s)%nat ∧
   ∃ t0, lastErrorTime s = Some t0 ∧ (ERROR_RESET_TIME < later - t0)%Z).
Proof.
  unfold isPollyAvailable. destruct (pollyClient s); [|by repeat split; try left].
  unfold isTtsTemporarilyDisabled.
  destruct (ttsErrorCount s <? MAX_ERROR_COUNT)%nat eqn:Hn; [by repeat split; try left|].
  apply Nat.ltb_ge in Hn.
  destruct (lastErrorTime s) as [t0|] eqn:Ht; [|by repeat split; try left].
  destruct (negb (t0 =? 0)%Z && (ERROR_RESET_TIME <? later - t0)%Z) eqn:Hc;
    [|by repeat split; try left].
  apply andb_true_iff in Hc as [_ Hc]. apply Z.ltb_lt in Hc.
  cbn [snd negb]. repeat split. right. split; [done|]. split; [done|]. by exists t0.
Qed.

(** X12: the game never makes a call that [speakText] would refuse.  In
    [spawnThought] the call is guarded by [isPollyAvailable()]: when the guard
    holds, a valid message passes the client and breaker checks of
    [speakText], whenever that call reads the clock, and is started or
    queued.  When the guard does not hold, [speakText] is not called: nothing
    is sent, queued or counted.  The [else if] asks [isPollyAvailable()] a
    second time, at a later reading of the clock: the module state is as
    before, unless the cooldown of the open breaker has ended between the two
    readings, in which case this second check resets the breaker (with the
    same reading the state is exactly as before).  Negative thoughts and an
    uninitialized game call nothing. *)
Theorem guarded_call_is_never_refused (isPositive pollyInitialized : bool) (t : jsstring)
    (now later : Z) (s : State) :
  invalid_text (JString t) = false →
  let r := spawnThought_speech isPositive pollyInitialized (JString t) now later s in
  (isPositive && pollyInitialized && fst (isPollyAvailable now s) = true →
     ∃ res, fst r = Some res ∧ res ≠ Returned) ∧
  (isPositive && pollyInitialized && fst (isPollyAvailable now s) = false →
     fst r = None ∧
     traffic (snd r) = traffic s ∧
     performanceMetrics (snd r) = performanceMetrics s ∧
     activeAudioElements (snd r) = activeAudioElements s ∧
     (snd r = s ∨
      breaker (snd r) = (0%nat, None) ∧
      (MAX_ERROR_COUNT ≤ ttsErrorCount s)%nat ∧
      ∃ t0, lastErrorTime s = Some t0 ∧ (ERROR_RESET_TIME < later - t0)%Z) ∧
     (later = now → snd r = s)).
Proof.
  intros Hv. cbv zeta. unfold spawnThought_speech.
  destruct (isPositive && pollyInitialized); cbn [andb];
    [|split; [done | intros _; repeat split; by try left]].
  destruct (isPollyAvailable now s) as [av s1] eqn:Hav. cbn [fst].
  destruct av.
  - split; [|done]. intros _.
    destruct (available_true now s s1 Hav) as [Hc Hb].
    pose proof (speak_admitted t later s1 Hv Hc Hb) as Hne.
    destruct (speakText (JString t) later s1) as [res s2]. by exists res.
  - split; [done|]. intros _. split; [done|]. cbn [snd].
    pose proof (available_false now s s1 Hav) as ->.
    destruct (available_again later s) as (H1 & H2 & H3 & H4).
    repeat (split; [done|]). intros ->. by rewrite Hav.
Qed.

(** A positive thought while the game is ready is started, whatever the
    clock says a millisecond later. *)
Lemma guarded_call_is_never_refused_witness :
  fst (spawnThought_speech true true (JString (str "You belong here")) 10 11 ready)
    = Some (Awaiting 0).
Proof.
  pose proof (guarded_call_is_never_refused true true (str "You belong here") 10 11 ready
                eq_refl) as H.
  cbv zeta in H. destruct H as [H _]. destruct (H eq_refl) as (res & Hres & _).
  rewrite Hres. vm_compute in Hres. congruence.
Defined.

(** ** The volume control *)






(** ** Cleaning the active set *)

Lemma remove_fold_footprint (l : list nat) (s : State) :
  let s' := foldl (λ acc e, acc |> active_delete e |> revokeObjectURL e) s l in
  activeAudioElements s' = filter (λ x, x ∉ l) (activeAudioElements s) ∧
  revoked s' = revoked s ++ l ∧ elements s' = elements s ∧ fades s' = fades s ∧
  audioSettings s' = audioSettings s.
Proof.
  revert s. induction l as [|x l IH]; intros s; cbn [foldl].
  - cbv zeta. rewrite app_nil_r. repeat split.
    induction (activeAudioElements s) as [|y m IHm]; [done|].
    rewrite filter_cons, decide_True by apply not_elem_of_nil. by f_equal.
  - destruct (IH (revokeObjectURL x (active_delete x s))) as (Ha & Hr & He & Hf & Hs).
    cbv zeta. rewrite Ha, Hr, He, Hf, Hs.
    split; [|split; [cbn; by rewrite <- app_assoc | done]].
    cbn [activeAudioElements revokeObjectURL set_revoked active_delete set_activeAudioElements].
    unfold set_delete. rewrite list_filter_filter.
    apply list_filter_iff. intros y. rewrite not_elem_of_cons. tauto.
Qed.

Lemma filter_unfinished (s : State) (l m : list nat) :
  (∀ x, x ∈ l → x ∈ m) →
  filter (λ x, x ∉ filter (λ e, finished s e = true) m) l =
  filter (λ e, finished s e = false) l.
Proof.
  induction l as [|x l IH]; intros Hsub; [done|].
  rewrite !filter_cons, IH by (intros y Hy; apply Hsub; by apply list_elem_of_further).
  assert (Hx : x ∈ m) by (apply Hsub, list_elem_of_here).
  destruct (finished s x) eqn:Hf.
  - rewrite decide_False, (decide_False (P := true = false)); [done | done |].
    intros Hn. apply Hn. by apply list_elem_of_filter.
  - rewrite decide_True, (decide_True (P := false = false)); [done | done |].
    intros [Hn _]%list_elem_of_filter. congruence.
Qed.

(** X14: the cleanup of [manageAudioConcurrency] removes from the active set
    exactly the elements that have ended, failed or are paused, and revokes
    the URL of each of them once, in the order of the set; no element is
    changed.  It never removes a playing element: when the set is still at
    the limit afterwards it only starts a fade-out of the oldest playing
    element from that element's volume, and the set is still at the limit when
    it returns. *)
Theorem cleanup_removes_exactly_the_finished (s : State) :
  let s' := manageAudioConcurrency s in
  let kept := filter (λ e, finished s e = false) (activeAudioElements s) in
  activeAudioElements s' = kept ∧
  revoked s' = revoked s ++ filter (λ e, finished s e = true) (activeAudioElements s) ∧
  elements s' = elements s ∧
  audioSettings s' = audioSettings s ∧
  fades s' =
    (if at_capacity s' then
       match kept with
       | oldest :: _ =>
           match elements s !! oldest with
           | Some a => fades s ++ [mkFade oldest (volume a) 0]
           | None => fades s
           end
       | [] => fades s
       end
     else fades s).
Proof.
  cbv zeta. unfold manageAudioConcurrency. cbv zeta.
  destruct (remove_fold_footprint
              (filter (λ e, finished s e = true) (activeAudioElements s)) s)
    as (Ha & Hr & He & Hf & Hs).
  cbv zeta in Ha, Hr, He, Hf, Hs.
  rewrite (filter_unfinished s _ (activeAudioElements s)) in Ha by done.
  set (s1 := foldl _ s _) in *.
  assert (Hfade : ∀ e, activeAudioElements (fadeOutAudio e s1) = activeAudioElements s1 ∧
                       revoked (fadeOutAudio e s1) = revoked s1 ∧
                       elements (fadeOutAudio e s1) = elements s1 ∧
                       audioSettings (fadeOutAudio e s1) = audioSettings s1 ∧
                       at_capacity (fadeOutAudio e s1) = at_capacity s1).
  { intros e. unfold fadeOutAudio. by repeat case_match. }
  remember (filter (λ e, finished s e = false) (activeAudioElements s)) as kept eqn:Hk.
  destruct (at_capacity s1) eqn:Hc; cbv beta iota; [|by rewrite Hc].
  rewrite Ha. destruct kept as [|oldest rest]; [by rewrite Hc|].
  destruct (Hfade oldest) as (-> & -> & -> & -> & ->). rewrite ?Hc.
  repeat (split; [done|]).
  assert (Hfin : finished s oldest = false).
  { assert (Hin : oldest ∈ filter (λ e, finished s e = false) (activeAudioElements s)).
    { rewrite <- Hk. apply list_elem_of_here. }
    by apply list_elem_of_filter in Hin as [? _]. }
  unfold fadeOutAudio. rewrite He. unfold finished in Hfin.
  destruct (elements s !! oldest) as [a|] eqn:Hel; [|done].
  apply orb_false_elim in Hfin as [_ Hp]. rewrite Hp. cbn. by rewrite Hf.
Qed.
Lemma cleanup_all_playing (s : State) :
  (∀ e, e ∈ activeAudioElements s → finished s e = false) →
  manageAudioConcurrency s =
    if at_capacity s then
      match activeAudioElements s with
      | oldest :: _ => fadeOutAudio oldest s
      | [] => s
      end
    else s.
Proof.
  intros Hall. unfold manageAudioConcurrency. cbv zeta.
  assert (Hnil : filter (λ e, finished s e = true) (activeAudioElements s) = []).
  { induction (activeAudioElements s) as [|x l IH]; [done|].
    rewrite filter_cons, decide_False.
    - apply IH. intros e He. apply Hall. by apply list_elem_of_further.
    - rewrite (Hall x) by apply list_elem_of_here. done. }
  rewrite Hnil. done.
Qed.

Lemma breaker_closed_check (now : Z) (s : State) :
  (ttsErrorCount s < MAX_ERROR_COUNT)%nat → isTtsTemporarilyDisabled now s = (false, s).
Proof.
  intros H. unfold isTtsTemporarilyDisabled.
  by rewrite (proj2 (Nat.ltb_lt _ _) H).
Qed.

(** X15: a call that finds the active set full of playing elements does not
    replace any of them.  [speakText] appends the text to the queue, starts a
    fade-out of the oldest element from its current volume and schedules a
    drain; the active set, the calls in flight and the requests sent stay as
    they are, and no URL is revoked. *)
Theorem full_set_queues_and_fades_oldest (t : jsstring) (now : Z) (s : State)
    (oldest : nat) (rest : list nat) (a : AudioElement) :
  invalid_text (JString t) = false →
  pollyClient s = true →
  (ttsErrorCount s < MAX_ERROR_COUNT)%nat →
  at_capacity s = true →
  activeAudioElements s = oldest :: rest →
  (∀ e, e ∈ activeAudioElements s → finished s e = false) →
  elements s !! oldest = Some a →
  fst (speakText (JString t) now s) = Queued ∧
  audioQueue (snd (speakText (JString t) now s)) = audioQueue s ++ [mkItem t] ∧
  fades (snd (speakText (JString t) now s)) = fades s ++ [mkFade oldest (volume a) 0] ∧
  activeAudioElements (snd (speakText (JString t) now s)) = activeAudioElements s ∧
  elements (snd (speakText (JString t) now s)) = elements s ∧
  tasks (snd (speakText (JString t) now s)) = tasks s ∧
  sent (snd (speakText (JString t) now s)) = sent s ∧
  revoked (snd (speakText (JString t) now s)) = revoked s ∧
  queueTimers (snd (speakText (JString t) now s)) = S (queueTimers s) ∧
  queuedRequests (performanceMetrics (snd (speakText (JString t) now s))) =
    (queuedRequests (performanceMetrics s) + 1)%Z.
Proof.
  intros Hv Hc Hb Hcap Hact Hall Hel.
  assert (Hfin : finished s oldest = false).
  { apply Hall. rewrite Hact. apply list_elem_of_here. }
  assert (Hm : manageAudioConcurrency (count_request s) =
               set_fades (fades s ++ [mkFade oldest (volume a) 0]) (count_request s)).
  { rewrite cleanup_all_playing by exact Hall.
    change (at_capacity (count_request s)) with (at_capacity s). rewrite Hcap.
    change (activeAudioElements (count_request s)) with (activeAudioElements s).
    rewrite Hact. unfold fadeOutAudio.
    change (elements (count_request s)) with (elements s). rewrite Hel.
    unfold finished in Hfin. rewrite Hel in Hfin.
    apply orb_false_elim in Hfin as [_ ->]. done. }
  unfold speakText. rewrite Hv.
  change (pollyClient (count_request s)) with (pollyClient s). rewrite Hc. cbn [negb].
  rewrite breaker_closed_check by exact Hb. rewrite Hm.
  change (at_capacity (set_fades _ (count_request s))) with (at_capacity s). rewrite Hcap.
  cbn. done.
Qed.

(** With the game's limit of two and A and B playing, a third thought is
    queued and A starts to fade. *)
Lemma full_set_queues_and_fades_oldest_witness :
  fst (speakText (JString (str "C")) 2000
         (default ready (run (take 6 two_playing_then_C) ready))) = Queued.
Proof.
  refine (proj1 (full_set_queues_and_fades_oldest (str "C") 2000
            (default ready (run (take 6 two_playing_then_C) ready))
            0%nat [1%nat] (mkAudio (6 # 10) false false false) _ _ _ _ _ _ _)).
  - reflexivity.
  - reflexivity.
  - vm_compute. lia.
  - reflexivity.
  - reflexivity.
  - intros e He. vm_compute in He.
    apply elem_of_cons in He as [->|He]; [reflexivity|].
    apply list_elem_of_singleton in He as ->. reflexivity.
  - reflexivity.
Defined.

(** ** Fading out *)

Lemma delete_insert_same {A : Type} (l : list A) (i : nat) (x : A) :
  delete i (<[i := x]> l) = delete i l.
Proof. revert i. induction l as [|y l IH]; intros [|i]; cbn; [done .. |]. by f_equal. Qed.

(** One tick either is the last one of its interval or only moves the
    element's volume and the step counter. *)
Lemma fade_tick_cases (i : nat) (s : State) (f : Fade) :
  fades s !! i = Some f →
  ∃ s', fade_tick i s = Some s' ∧ queueTimers s' = queueTimers s ∧
    ((fades s' = delete i (fades s) ∧
      activeAudioElements s' = set_delete (f_element f) (activeAudioElements s) ∧
      revoked s' = revoked s ++ [f_element f] ∧
      (∀ a, elements s' !! f_element f = Some a → paused a = true)) ∨
     ((S (f_currentStep f) < fadeSteps)%nat ∧
      fades s' =
        <[i := mkFade (f_element f) (f_originalVolume f) (S (f_currentStep f))]> (fades s) ∧
      activeAudioElements s' = activeAudioElements s ∧
      revoked s' = revoked s)).
Proof.
  intros Hf. unfold fade_tick. rewrite Hf. cbn [mbind option_bind]. cbv zeta.
  destruct (fadeSteps <=? S (f_currentStep f))%nat eqn:Hlast; cbn [orb].
  - eexists. split; [done|]. split; [done|]. left.
    cbn. repeat split. intros a. rewrite lookup_alter_eq.
    destruct (alter _ _ _ !! _); [|done]. cbn. by intros [= <-].
  - destruct (Qle_bool _ 0).
    + eexists. split; [done|]. split; [done|]. left.
      cbn. repeat split. intros a. rewrite lookup_alter_eq.
      destruct (alter _ _ _ !! _); [|done]. cbn. by intros [= <-].
    + eexists. split; [done|]. split; [done|]. right.
      apply Nat.leb_gt in Hlast. done.
Qed.

Lemma fade_ends (i m : nat) :
  ∀ (s : State) (f : Fade),
  fades s !! i = Some f →
  (fadeSteps - f_currentStep f ≤ m)%nat →
  ∃ n s', (1 ≤ n)%nat ∧ (n ≤ Nat.max 1 m)%nat ∧
    fade_ticks n i s = Some s' ∧
    fades s' = delete i (fades s) ∧
    activeAudioElements s' = set_delete (f_element f) (activeAudioElements s) ∧
    revoked s' = revoked s ++ [f_element f] ∧
    (∀ a, elements s' !! f_element f = Some a → paused a = true) ∧
    queueTimers s' = queueTimers s.
Proof.
  induction m as [|m IH]; intros s f Hf Hm;
    destruct (fade_tick_cases i s f Hf) as (s1 & Htick & Hq & [Hend|Hon]).
  - exists 1%nat, s1. cbn [fade_ticks]. rewrite Htick. cbn.
    destruct Hend as (? & ? & ? & ?). repeat split; try done; lia.
  - destruct Hon as (Hlt & _). unfold fadeSteps in *. lia.
  - exists 1%nat, s1. cbn [fade_ticks]. rewrite Htick. cbn.
    destruct Hend as (? & ? & ? & ?). repeat split; try done; lia.
  - destruct Hon as (Hlt & Hfs & Ha & Hr).
    assert (Hi : (i < length (fades s))%nat) by (by eapply lookup_lt_Some).
    destruct (IH s1 (mkFade (f_element f) (f_originalVolume f) (S (f_currentStep f))))
      as (n & s' & Hn1 & Hn2 & Hticks & Hfs' & Ha' & Hr' & Hp & Hq').
    { rewrite Hfs. by apply list_lookup_insert_eq. }
    { cbn. unfold fadeSteps in *. lia. }
    exists (S n), s'. cbn [fade_ticks]. rewrite Htick. cbn [mbind option_bind].
    cbn [f_element] in *.
    split; [lia|]. split; [unfold fadeSteps in *; lia|]. split; [done|].
    rewrite Hfs', Hfs, delete_insert_same, Ha', Ha, Hr', Hr, Hq', Hq. done.
Qed.

(** X16: a fade-out always ends, after at most twenty ticks of its interval
    (fewer when the volume reaches zero earlier), whatever the volume and the
    configured duration.  At its last tick the element is paused and removed
    from the active set and its URL is revoked; the interval is cleared.  The
    interval callback schedules no drain of the queue. *)
Theorem fade_out_ends_within_twenty_ticks (i : nat) (s : State) (f : Fade) :
  fades s !! i = Some f →
  ∃ n s', (1 ≤ n)%nat ∧ (n ≤ Nat.max 1 (fadeSteps - f_currentStep f))%nat ∧
    fade_ticks n i s = Some s' ∧
    fades s' = delete i (fades s) ∧
    (f_element f ∉ activeAudioElements s') ∧
    (∀ e, e ≠ f_element f → (e ∈ activeAudioElements s' ↔ e ∈ activeAudioElements s)) ∧
    revoked s' = revoked s ++ [f_element f] ∧
    (∀ a, elements s' !! f_element f = Some a → paused a = true) ∧
    queueTimers s' = queueTimers s.
Proof.
  intros Hf.
  destruct (fade_ends i (fadeSteps - f_currentStep f) s f Hf (le_n _))
    as (n & s' & Hn1 & Hn2 & Hticks & Hfs & Ha & Hr & Hp & Hq).
  exists n, s'. repeat (split; [done|]). rewrite Ha.
  split; [|split; [|done]].
  - rewrite elem_of_set_delete. tauto.
  - intros e He. rewrite elem_of_set_delete. tauto.
Qed.

(** The fade of A that the third thought started ends. *)
Lemma fade_out_ends_within_twenty_ticks_witness :
  ∃ n s', (1 ≤ n)%nat ∧ (n ≤ 20)%nat ∧
    fade_ticks n 0 (default ready (run two_playing_then_C ready)) = Some s' ∧
    0%nat ∉ activeAudioElements s'.
Proof.
  destruct (fade_out_ends_within_twenty_ticks 0
              (default ready (run two_playing_then_C ready))
              (mkFade 0 (6 # 10) 0) eq_refl)
    as (n & s' & Hn1 & Hn2 & Hticks & _ & Ha & _).
  exists n, s'. done.
Defined.

(** ** Recovery after a user gesture *)

Lemma filter_out_all (l m : list nat) :
  (∀ x, x ∈ m → x ∈ l) → filter (λ x, x ∉ l) m = [].
Proof.
  induction m as [|y m IH]; intros Hsub; [done|].
  rewrite filter_cons, decide_False.
  - apply IH. intros x Hx. apply Hsub. by apply list_elem_of_further.
  - intros Hn. apply Hn, Hsub, list_elem_of_here.
Qed.

Lemma gesture_fold (l : list nat) (s : State) :
  let s' := foldl (λ acc e, playOnInteraction e acc) s l in
  listeners s' = filter (λ x, x ∉ l) (listeners s) ∧
  retries s' = retries s ++ l ∧
  expiries s' = expiries s ∧ revoked s' = revoked s ∧
  activeAudioElements s' = activeAudioElements s ∧
  (∀ e, elements s' !! e =
        if bool_decide (e ∈ l) then with_paused false <$> elements s !! e
        else elements s !! e).
Proof.
  revert s. induction l as [|x l IH]; intros s; cbn [foldl].
  - cbv zeta. rewrite app_nil_r. repeat split.
    induction (listeners s) as [|y m IHm]; [done|].
    rewrite filter_cons, decide_True by apply not_elem_of_nil. by f_equal.
  - destruct (IH (playOnInteraction x s)) as (Hl & Hr & Hx & Hv & Ha & He).
    cbv zeta. rewrite Hl, Hr, Hx, Hv, Ha.
    split; [|split; [cbn; by rewrite <- app_assoc | repeat (split; [done|])]].
    + cbn [listeners playOnInteraction set_listeners].
      unfold set_delete. rewrite list_filter_filter.
      apply list_filter_iff. intros y. rewrite not_elem_of_cons. tauto.
    + intros e. rewrite He.
      cbn [elements playOnInteraction set_listeners set_retries update_element set_elements].
      destruct (decide (e = x)) as [->|Hne].
      * rewrite lookup_alter_eq, (bool_decide_eq_true_2 (x ∈ x :: l)) by apply list_elem_of_here.
        case_bool_decide; [|done].
        destruct (elements s !! x); done.
      * rewrite lookup_alter_ne by done.
        case_bool_decide as H; case_bool_decide as H'; try done.
        -- exfalso. apply H'. by apply list_elem_of_further.
        -- exfalso. apply H. apply elem_of_cons in H' as [?|?]; done.
Qed.

(** X17: the recovery listeners are one-shot.  A click, key press or touch
    retries [play()] on every element that waits for a gesture, in the order
    in which they were blocked, and detaches all of them; a second gesture
    right after changes nothing.  The gesture does not put the elements into
    the active set (that happens when a retry succeeds), revokes nothing and
    does not cancel the 30 s timers of the elements. *)
Theorem gesture_retries_each_waiting_element_once (s : State) :
  listeners (gesture s) = [] ∧
  retries (gesture s) = retries s ++ listeners s ∧
  (∀ e, elements (gesture s) !! e =
        if bool_decide (e ∈ listeners s) then with_paused false <$> elements s !! e
        else elements s !! e) ∧
  activeAudioElements (gesture s) = activeAudioElements s ∧
  expiries (gesture s) = expiries s ∧
  revoked (gesture s) = revoked s ∧
  gesture (gesture s) = gesture s.
Proof.
  destruct (gesture_fold (listeners s) s) as (Hl & Hr & Hx & Hv & Ha & He).
  cbv zeta in Hl, Hr, Hx, Hv, Ha, He. fold (gesture s) in Hl, Hr, Hx, Hv, Ha, He.
  rewrite filter_out_all in Hl by done.
  repeat (split; [done|]).
  unfold gesture at 1. by rewrite Hl.
Qed.

(** ** Elements that wait for a gesture *)

Lemma rw_refl (s : State) : revokes_what_waits s s.
Proof. split; [done | by left]. Qed.

Lemma rw_trans (s1 s2 s3 : State) :
  revokes_what_waits s1 s2 → revokes_what_waits s2 s3 → revokes_what_waits s1 s3.
Proof.
  intros [H1 H2] [H3 H4]. split; [by auto|].
  intros e He. destruct (H4 e He) as [Hw|Hr]; [|by right].
  destruct (H2 e Hw) as [Hw'|Hr]; [by left | right; by apply H3].
Qed.

(** A handler that leaves the two waiting lists as they are, or shrinks
    them, and only appends to the revocations. *)
Lemma rw_frame (s s' : State) (l : list nat) :
  listeners s' ⊆ listeners s → retries s' ⊆ retries s →
  revoked s' = revoked s ++ l →
  revokes_what_waits s s'.
Proof.
  intros Hl Hr Hv. split.
  - intros e He. rewrite Hv. apply elem_of_app. by left.
  - intros e [He|He]; left; [left; by apply Hl | right; by apply Hr].
Qed.

Lemma rw_quiet (s s' : State) (l : list nat) :
  quiet s s' → revoked s' = revoked s ++ l → revokes_what_waits s s'.
Proof.
  intros [Hc _] Hv. unfold core in Hc. injection Hc as _ _ Hl Hr.
  apply (rw_frame s s' l); [by rewrite Hl | by rewrite Hr | done].
Qed.

Lemma rw_quiet0 (s s' : State) :
  quiet s s' → revoked s' = revoked s → revokes_what_waits s s'.
Proof. intros Hq Hv. apply (rw_quiet s s' []); [done | by rewrite app_nil_r]. Qed.

Lemma settle_revoked (rid : nat) (c : Completion) (s : State) :
  revoked (settle rid c s) = revoked s.
Proof. unfold settle, after_queue_item, queue_loop_exit. by repeat case_match. Qed.

Lemma recordTtsError_revoked (ty : string) (now : Z) (s : State) :
  revoked (recordTtsError ty now s) = revoked s.
Proof. unfold recordTtsError. by case_match. Qed.

Lemma classify_and_record_revoked (e : JsError) (now : Z) (s : State) :
  revoked (snd (classify_and_record e now s)) = revoked s.
Proof.
  unfold classify_and_record.
  repeat case_match; cbn [snd]; rewrite ?recordTtsError_revoked; done.
Qed.

Lemma isTtsTemporarilyDisabled_revoked (now : Z) (s : State) :
  revoked (snd (isTtsTemporarilyDisabled now s)) = revoked s.
Proof. unfold isTtsTemporarilyDisabled. by repeat case_match. Qed.

Lemma rw_settle (rid : nat) (c : Completion) (s : State) :
  revokes_what_waits s (settle rid c s).
Proof.
  destruct (settle_footprint rid c s) as [Hc _]. unfold core in Hc.
  injection Hc as _ _ Hl Hr.
  apply (rw_frame _ _ []); [by rewrite Hl | by rewrite Hr |].
  by rewrite settle_revoked, app_nil_r.
Qed.

Lemma rw_synthesize (text : jsstring) (start now : Z) (origin : Origin) (s : State) :
  revokes_what_waits s (synthesizeAndPlayAudio text start origin now s).
Proof.
  unfold synthesizeAndPlayAudio. cbv zeta.
  destruct (maxTextLength <? length text)%nat;
    cbn [pollyClient set_tasks log set_console tasks];
    (destruct (pollyClient s);
     [ apply (rw_frame _ _ []); [done | done | by rewrite app_nil_r]
     | unfold catch_synthesis;
       eapply rw_trans; [|apply rw_settle];
       (eapply rw_trans;
         [|apply rw_quiet0;
            [apply quiet_classify_and_record | apply classify_and_record_revoked]]);
       apply (rw_frame _ _ []); [done | done | by rewrite app_nil_r] ]).
Qed.

Lemma manageAudioConcurrency_revoked (s : State) :
  ∃ l, revoked (manageAudioConcurrency s) = revoked s ++ l.
Proof.
  unfold manageAudioConcurrency. cbv zeta.
  match goal with |- context [foldl ?f s ?l] =>
    destruct (remove_fold_footprint l s) as (_ & Hr & _); cbv zeta in Hr;
    set (s1 := foldl f s l) in * end.
  assert (Hf : ∀ e, revoked (fadeOutAudio e s1) = revoked s1).
  { intros e. unfold fadeOutAudio. by repeat case_match. }
  eexists. repeat case_match; rewrite ?Hf; exact Hr.
Qed.

Lemma rw_speakText (text : JsValue) (now : Z) (s : State) :
  revokes_what_waits s (snd (speakText text now s)).
Proof.
  unfold speakText.
  destruct text as [t|]; [|apply rw_quiet0; [quiet_now | done]].
  destruct (invalid_text (JString t)); [apply rw_quiet0; [quiet_now | done]|].
  destruct (negb _); [apply rw_quiet0; [quiet_now | done]|].
  pose proof (quiet_isTtsTemporarilyDisabled now (count_request s)) as Hq.
  pose proof (isTtsTemporarilyDisabled_revoked now (count_request s)) as Hv.
  destruct (isTtsTemporarilyDisabled now (count_request s)) as [d s1].
  cbn [snd] in Hq, Hv.
  assert (H1 : revokes_what_waits s s1).
  { apply rw_quiet0; [|done]. eapply quiet_trans; [|exact Hq]. quiet_now. }
  destruct d; cbn [snd].
  { eapply rw_trans; [exact H1|]. apply rw_quiet0; [quiet_now | done]. }
  destruct (manageAudioConcurrency_revoked s1) as [l Hl].
  assert (H2 : revokes_what_waits s1 (manageAudioConcurrency s1)).
  { apply (rw_quiet _ _ l); [apply quiet_manageAudioConcurrency | done]. }
  eapply rw_trans; [exact H1|]. eapply rw_trans; [exact H2|].
  destruct (at_capacity _); cbn [snd].
  - apply rw_quiet0; [quiet_now | done].
  - apply rw_synthesize.
Qed.

Lemma rw_queue_loop (now : Z) (s : State) : revokes_what_waits s (queue_loop now s).
Proof.
  assert (Hexit : revokes_what_waits s (queue_loop_exit s)).
  { apply rw_quiet0; [apply quiet_queue_loop_exit|].
    unfold queue_loop_exit. by case_match. }
  unfold queue_loop. destruct (audioQueue s) as [|item rest]; [done|].
  destruct (at_capacity s); [done|].
  eapply rw_trans; [|apply rw_synthesize]. apply rw_quiet0; [quiet_now | done].
Qed.

Lemma rw_processAudioQueue (now : Z) (s : State) :
  revokes_what_waits s (processAudioQueue now s).
Proof.
  unfold processAudioQueue.
  destruct (isProcessingQueue s); [apply rw_refl|].
  destruct (audioQueue s); [apply rw_refl|].
  eapply rw_trans; [|apply rw_queue_loop]. apply rw_quiet0; [quiet_now | done].
Qed.

(** The catch block of a refused [play()]: the element is attached to the
    gesture listeners only together with the revocation of its URL. *)
Lemma rw_play_catch (rid : nat) (e : JsError) (s : State) :
  revokes_what_waits s (play_catch rid e s).
Proof.
  destruct (play_catch_footprint rid e s) as [Hc _]. unfold core in Hc.
  injection Hc as _ _ Hl Hr.
  assert (Hv : revoked (play_catch rid e s) = revoked s ++ [rid]).
  { unfold play_catch. rewrite settle_revoked. by repeat case_match. }
  split.
  - intros x Hx. rewrite Hv. apply elem_of_app. by left.
  - intros x. rewrite Hl, Hr, Hv. rewrite elem_of_app, list_elem_of_singleton.
    destruct (String.eqb _ _); [rewrite elem_of_app, list_elem_of_singleton|]; tauto.
Qed.

Lemma rw_play_started (rid : nat) (now : Z) (s : State) :
  revokes_what_waits s (play_started rid now s).
Proof.
  unfold play_started. case_match; [|apply rw_refl].
  eapply rw_trans; [|apply rw_settle]. apply rw_quiet0; [quiet_now | done].
Qed.

Lemma rw_on_race (rid : nat) (o : RaceOutcome) (now : Z) (s : State) :
  revokes_what_waits s (on_race rid o now s).
Proof.
  unfold on_race. destruct o as [e|[|stream]].
  - unfold catch_synthesis. eapply rw_trans; [|apply rw_settle].
    apply rw_quiet0; [apply quiet_classify_and_record | apply classify_and_record_revoked].
  - eapply rw_trans; [|apply rw_settle]. apply rw_quiet0; [quiet_now | done].
  - set (a := streamToUint8Array stream). destruct (as_result a) as [err|audioBytes].
    + eapply rw_trans; [|apply rw_settle]. apply rw_quiet0; [quiet_now | done].
    + destruct (length audioBytes =? 0)%nat.
      * eapply rw_trans; [|apply rw_settle]. apply rw_quiet0; [quiet_now | done].
      * destruct (volume_setter _) as [thrown|volume].
        { unfold catch_synthesis. eapply rw_trans; [|apply rw_settle].
          eapply rw_trans;
            [|apply rw_quiet0;
               [apply quiet_classify_and_record | apply classify_and_record_revoked]].
          apply rw_quiet0; [quiet_now | done]. }
        match goal with |- revokes_what_waits s (handleAutoplayOptimization rid ?s0) =>
          assert (H0 : revokes_what_waits s s0)
            by (apply (rw_frame _ _ []); [done | done | by rewrite app_nil_r]);
          eapply rw_trans; [exact H0|]; generalize s0; intros s1
        end.
        unfold handleAutoplayOptimization. destruct (hidden s1); [apply rw_play_catch|].
        apply (rw_frame _ _ []); [done | done | by rewrite app_nil_r].
Qed.

Lemma rw_on_play (rid : nat) (o : option JsError) (now : Z) (s s' : State) :
  on_play rid o now s = Some s' → revokes_what_waits s s'.
Proof.
  unfold on_play. intros H.
  destruct (tasks s !! rid) as [t|]; [|done]. cbn [mbind option_bind] in H.
  destruct (t_phase t), o as [e|]; try done.
  - destruct (String.eqb _ _).
    + destruct (elements s !! rid); [|done]. cbn [mbind option_bind] in H.
      injection H as <-. apply (rw_frame _ _ []); [done | done | by rewrite app_nil_r].
    + injection H as <-. apply rw_play_catch.
  - injection H as <-. apply rw_play_started.
  - injection H as <-. eapply rw_trans; [|apply rw_play_catch].
    apply (rw_frame _ _ []); [done | done | by rewrite app_nil_r].
  - injection H as <-. eapply rw_trans; [|apply rw_play_started].
    apply (rw_frame _ _ []); [done | done | by rewrite app_nil_r].
Qed.

Lemma rw_gesture (s : State) : revokes_what_waits s (gesture s).
Proof.
  destruct (gesture_fold (listeners s) s) as (Hl & Hr & _ & Hv & _).
  cbv zeta in Hl, Hr, Hv. fold (gesture s) in Hl, Hr, Hv.
  split; [by rewrite Hv|].
  intros e. rewrite Hl, Hr, elem_of_app, list_elem_of_filter. tauto.
Qed.

Lemma rw_stopAllAudio (s : State) : revokes_what_waits s (stopAllAudio s).
Proof.
  unfold stopAllAudio.
  match goal with |- context [foldl ?f ?s0 ?l] =>
    destruct (stop_fold_footprint l s0) as (Hr & _ & _ & _ & _ & _ & _ & Hl & Hy & _);
    cbv zeta in Hr, Hl, Hy; set (s1 := foldl f s0 l) in * end.
  apply (rw_frame _ _ (activeAudioElements s)); cbn; [by rewrite Hl | by rewrite Hy | done].
Qed.

Lemma rw_fade_tick (i : nat) (s s' : State) :
  fade_tick i s = Some s' → revokes_what_waits s s'.
Proof.
  intros H. pose proof (quiet_fade_tick i s s' H) as Hq.
  unfold fade_tick in H.
  destruct (fades s !! i) as [f|]; [|done]. cbn [mbind option_bind] in H.
  destruct (_ || _) in H; injection H as <-.
  - by apply (rw_quiet _ _ [f_element f]).
  - by apply rw_quiet0.
Qed.

Lemma rw_on_retry (e : nat) (ok : bool) (s : State) :
  revokes_what_waits s (on_retry e ok s).
Proof.
  unfold on_retry. destruct ok.
  - apply (rw_frame _ _ []); cbn; [done | apply set_delete_subseteq | by rewrite app_nil_r].
  - apply (rw_frame _ _ [e]); cbn; [done | apply set_delete_subseteq | done].
Qed.

(** Every turn of the event loop. *)
Lemma rw_step (now : Z) (ev : Event) (s s' : State) :
  step now ev s = Some s' → revokes_what_waits s s'.
Proof.
  intros Hstep. destruct ev; cbn [step] in Hstep.
  - injection Hstep as <-. apply rw_quiet0; [apply quiet_initializePollyClient|].
    unfold initializePollyClient. by repeat case_match.
  - injection Hstep as <-. apply rw_speakText.
  - injection Hstep as <-. unfold getTtsStatus.
    pose proof (quiet_isTtsTemporarilyDisabled now s) as Hq.
    pose proof (isTtsTemporarilyDisabled_revoked now s) as Hv.
    destruct (isTtsTemporarilyDisabled now s). by apply rw_quiet0.
  - injection Hstep as <-. unfold isPollyAvailable.
    destruct (pollyClient s); [|apply rw_refl].
    pose proof (quiet_isTtsTemporarilyDisabled now s) as Hq.
    pose proof (isTtsTemporarilyDisabled_revoked now s) as Hv.
    destruct (isTtsTemporarilyDisabled now s). by apply rw_quiet0.
  - injection Hstep as <-. apply rw_quiet0; [quiet_now | done].
  - injection Hstep as <-. apply rw_quiet0; [quiet_now | done].
  - injection Hstep as <-. apply rw_quiet0; [apply quiet_setAudioVolume|].
    by apply (setAudioVolume_preserves revoked).
  - injection Hstep as <-. apply rw_stopAllAudio.
  - destruct (tasks s !! rid) as [t|]; [|done]. cbn [mbind option_bind] in Hstep.
    destruct (t_phase t); try done. injection Hstep as <-. apply rw_on_race.
  - destruct (elements s !! rid); [|done]. cbn [mbind option_bind] in Hstep.
    by apply (rw_on_play rid o now).
  - case_bool_decide; [|done]. injection Hstep as <-. apply rw_on_retry.
  - destruct (queueTimers s); [done|]. injection Hstep as <-.
    eapply rw_trans; [|apply rw_processAudioQueue]. apply rw_quiet0; [quiet_now | done].
  - destruct (loopDelays s); [done|]. injection Hstep as <-.
    eapply rw_trans; [|apply rw_queue_loop]. apply rw_quiet0; [quiet_now | done].
  - by apply (rw_fade_tick i).
  - unfold on_volume_restore in Hstep.
    destruct (volumeRestores s !! i); [|done]. cbn [mbind option_bind] in Hstep.
    injection Hstep as <-. apply rw_quiet0; [quiet_now | done].
  - case_bool_decide; [|done]. injection Hstep as <-.
    apply (rw_frame _ _ [e]); cbn; [apply set_delete_subseteq | done | done].
  - injection Hstep as <-. apply rw_gesture.
  - injection Hstep as <-. apply rw_quiet0; [quiet_now | done].
  - destruct (elements s !! e); [|done]. cbn [mbind option_bind] in Hstep.
    injection Hstep as <-. apply (rw_quiet _ _ [e]); [unfold on_ended; quiet_now | done].
  - destruct (elements s !! e); [|done]. cbn [mbind option_bind] in Hstep.
    injection Hstep as <-. apply (rw_quiet _ _ [e]); [unfold on_error; quiet_now | done].
  - destruct (elements s !! e); [|done]. cbn [mbind option_bind] in Hstep.
    injection Hstep as <-. unfold on_pause. case_match.
    + apply (rw_quiet _ _ [e]); [quiet_now | done].
    + apply rw_quiet0; [quiet_now | done].
Qed.

Lemma rw_run (trace : list (Z * Event)) (s s' : State) :
  run trace s = Some s' → revokes_what_waits s s'.
Proof.
  revert s. induction trace as [|[now ev] trace IH]; intros s Hrun; cbn [run] in Hrun.
  - injection Hrun as <-. apply rw_refl.
  - destruct (step now ev s) as [s1|] eqn:Hstep; [|done]. cbn [mbind option_bind] in Hrun.
    eapply rw_trans; [by apply (rw_step now ev) | by apply IH].
Qed.

(** X18: delayed playback always runs on a revoked URL.  When [play()] is
    refused by the autoplay policy, the catch block attaches the element to
    the gesture listeners and, a few lines later, revokes its blob URL.  So in
    every state that the module reaches from a state without waiting
    elements, each element that waits for a gesture and each element whose
    retry is pending has already had its URL revoked; and when such a retry
    succeeds the element enters the active set, still revoked. *)
Theorem delayed_playback_runs_on_revoked_url (trace : list (Z * Event)) (s0 s : State) :
  listeners s0 = [] → retries s0 = [] →
  run trace s0 = Some s →
  (∀ e, e ∈ listeners s ∨ e ∈ retries s → e ∈ revoked s) ∧
  (∀ e, e ∈ retries s →
        e ∈ activeAudioElements (on_retry e true s) ∧ e ∈ revoked (on_retry e true s)).
Proof.
  intros Hl Hr Hrun. destruct (rw_run trace s0 s Hrun) as [_ H].
  assert (Hw : ∀ e, e ∈ listeners s ∨ e ∈ retries s → e ∈ revoked s).
  { intros e He. destruct (H e He) as [Hold|]; [|done].
    rewrite Hl, Hr in Hold. destruct Hold as [Hold|Hold]; by apply elem_of_nil in Hold. }
  split; [exact Hw|].
  intros e He. unfold on_retry. cbn. split.
  - apply elem_of_set_add. by left.
  - apply Hw. by right.
Qed.

(** A, B and C were refused and the user has clicked: the three retries are
    pending and the three URLs are gone. *)
Lemma delayed_playback_runs_on_revoked_url_witness :
  retries (default ready (run (take 13 blocked_then_clicked) ready)) = [0; 1; 2]%nat ∧
  0%nat ∈ revoked (default ready (run (take 13 blocked_then_clicked) ready)).
Proof.
  split; [reflexivity|].
  refine (proj1 (delayed_playback_runs_on_revoked_url (take 13 blocked_then_clicked) ready
            (default ready (run (take 13 blocked_then_clicked) ready))
            eq_refl eq_refl _) 0%nat _).
  - vm_compute. reflexivity.
  - right. vm_compute. apply list_elem_of_here.
Defined.

(** ** What moves the failure counter *)

Lemma breaker_check_cases (now : Z) (s : State) :
  pollyClient (snd (isTtsTemporarilyDisabled now s)) = pollyClient s ∧
  (breaker (snd (isTtsTemporarilyDisabled now s)) = breaker s ∨
   breaker (snd (isTtsTemporarilyDisabled now s)) = (0%nat, None) ∧
   (MAX_ERROR_COUNT ≤ ttsErrorCount s)%nat ∧
   ∃ t, lastErrorTime s = Some t ∧ (ERROR_RESET_TIME < now - t)%Z).
Proof.
  unfold isTtsTemporarilyDisabled.
  destruct (ttsErrorCount s <? MAX_ERROR_COUNT)%nat eqn:Hn; [by split; [|left]|].
  apply Nat.ltb_ge in Hn.
  destruct (lastErrorTime s) as [t|] eqn:Ht; [|by split; [|left]].
  destruct (negb (t =? 0)%Z && (ERROR_RESET_TIME <? now - t)%Z) eqn:Hc; [|by split; [|left]].
  apply andb_true_iff in Hc as [_ Hc]. apply Z.ltb_lt in Hc.
  split; [done|]. right. split; [done|]. split; [done|]. by exists t.
Qed.

Lemma manageAudioConcurrency_breaker (s : State) :
  breaker (manageAudioConcurrency s) = breaker s ∧
  pollyClient (manageAudioConcurrency s) = pollyClient s.
Proof.
  unfold manageAudioConcurrency. cbv zeta.
  set (s1 := foldl _ _ _).
  assert (H1 : breaker s1 = breaker s ∧ pollyClient s1 = pollyClient s).
  { subst s1. split; by apply foldl_preserves. }
  assert (Hf : ∀ e, breaker (fadeOutAudio e s1) = breaker s1 ∧
                    pollyClient (fadeOutAudio e s1) = pollyClient s1).
  { intros e. unfold fadeOutAudio. by repeat case_match. }
  repeat case_match; try done.
  destruct (Hf n) as [-> ->]. done.
Qed.

Lemma speakText_breaker (text : JsValue) (now : Z) (s : State) :
  breaker (snd (speakText text now s)) = breaker s ∨
  breaker (snd (speakText text now s)) = (0%nat, None) ∧
  (MAX_ERROR_COUNT ≤ ttsErrorCount s)%nat ∧
  ∃ t, lastErrorTime s = Some t ∧ (ERROR_RESET_TIME < now - t)%Z.
Proof.
  unfold speakText.
  destruct text as [t|]; [|by left].
  destruct (invalid_text (JString t)); [by left|].
  destruct (pollyClient (count_request s)) eqn:Hc; cbn [negb]; [|by left].
  destruct (breaker_check_cases now (count_request s)) as [Hc1 Hb].
  destruct (isTtsTemporarilyDisabled now (count_request s)) as [d s1].
  cbn [snd] in Hc1, Hb.
  change (breaker (count_request s)) with (breaker s) in Hb.
  change (ttsErrorCount (count_request s)) with (ttsErrorCount s) in Hb.
  change (lastErrorTime (count_request s)) with (lastErrorTime s) in Hb.
  destruct d; cbn [snd].
  { exact Hb. }
  destruct (manageAudioConcurrency_breaker s1) as [Hm Hmc].
  assert (Hres : ∀ s2, breaker s2 = breaker (manageAudioConcurrency s1) →
            breaker s2 = breaker s ∨
            breaker s2 = (0%nat, None) ∧ (MAX_ERROR_COUNT ≤ ttsErrorCount s)%nat ∧
            ∃ t, lastErrorTime s = Some t ∧ (ERROR_RESET_TIME < now - t)%Z).
  { intros s2 ->. by rewrite Hm. }
  destruct (at_capacity _); cbn [snd]; apply Hres; [done|].
  apply synthesize_breaker_with_client. congruence.
Qed.

Lemma queue_loop_breaker (now : Z) (s : State) :
  breaker (queue_loop now s) = breaker s ∨
  breaker (queue_loop now s) = (S (ttsErrorCount s), Some now) ∧ pollyClient s = false.
Proof.
  unfold queue_loop. destruct (audioQueue s) as [|item rest];
    [left; apply queue_loop_exit_breaker|].
  destruct (at_capacity s); [left; apply queue_loop_exit_breaker|].
  destruct (pollyClient s) eqn:Hc.
  - left. by rewrite synthesize_breaker_with_client.
  - right. split; [|done].
    match goal with |- context [synthesizeAndPlayAudio ?t ?a ?o ?n ?s0] =>
      destruct (synthesize_without_client t a n o s0 Hc) as (_ & _ & _ & Hb & _) end.
    exact Hb.
Qed.

Lemma processAudioQueue_breaker (now : Z) (s : State) :
  breaker (processAudioQueue now s) = breaker s ∨
  breaker (processAudioQueue now s) = (S (ttsErrorCount s), Some now) ∧ pollyClient s = false.
Proof.
  unfold processAudioQueue. destruct (isProcessingQueue s); [by left|].
  destruct (audioQueue s) eqn:Hq; [by left|].
  apply (queue_loop_breaker now (set_isProcessingQueue true s)).
Qed.

Lemma play_catch_breaker (rid : nat) (e : JsError) (s : State) :
  breaker (play_catch rid e s) = breaker s.
Proof. unfold play_catch. rewrite settle_breaker. by repeat case_match. Qed.

Lemma play_started_breaker (rid : nat) (now : Z) (s : State) :
  breaker (play_started rid now s) = breaker s.
Proof. unfold play_started. case_match; [|done]. by rewrite settle_breaker. Qed.

Lemma on_play_breaker (rid : nat) (o : option JsError) (now : Z) (s s' : State) :
  on_play rid o now s = Some s' → breaker s' = breaker s.
Proof.
  unfold on_play. intros H.
  destruct (tasks s !! rid) as [t|]; [|done]. cbn [mbind option_bind] in H.
  destruct (t_phase t), o as [e|]; try done.
  - destruct (String.eqb _ _).
    + destruct (elements s !! rid); by simplify_eq/=.
    + simplify_eq. apply play_catch_breaker.
  - simplify_eq. apply play_started_breaker.
  - simplify_eq. by rewrite play_catch_breaker.
  - simplify_eq. by rewrite play_started_breaker.
Qed.

(** What the volume setter throws is classified as an unknown failure. *)
Lemma volume_setter_thrown (x : JsNumber) (thrown : JsError) (now : Z) (s : State) :
  volume_setter x = inl thrown → fst (classify_and_record thrown now s) = "UNKNOWN".
Proof.
  destruct x as [| |q|]; cbn [volume_setter]; try (by intros [= <-]).
  destruct (_ && _); [done|]. by intros [= <-].
Qed.

Lemma on_race_breaker (rid : nat) (o : RaceOutcome) (now : Z) (s : State) :
  breaker (on_race rid o now s) = breaker s ∨
  breaker (on_race rid o now s) = (S (ttsErrorCount s), Some now) ∧
  ((∃ e, o = RaceRejected e) ∨
   (∃ stream thrown, o = RaceFulfilled (AudioStream stream) ∧
                     volume_setter (defaultVolume (audioSettings s)) = inl thrown)).
Proof.
  unfold on_race. destruct o as [e|[|stream]].
  - unfold catch_synthesis. rewrite settle_breaker, classify_and_record_breaker.
    destruct (String.eqb _ _); [by left | right; split; [done | left; by exists e]].
  - left. by rewrite settle_breaker.
  - destruct (as_result _) as [err|audioBytes]; [left; by rewrite settle_breaker|].
    destruct (length audioBytes =? 0)%nat; [left; by rewrite settle_breaker|].
    cbn [audioSettings logs set_console].
    destruct (volume_setter (defaultVolume (audioSettings s))) as [thrown|volume] eqn:Hvol.
    + right. unfold catch_synthesis.
      rewrite settle_breaker, classify_and_record_breaker,
        (volume_setter_thrown _ _ _ _ Hvol).
      split; [done|]. right. by exists stream, thrown.
    + left. unfold handleAutoplayOptimization.
      repeat case_match; rewrite ?settle_breaker, ?play_catch_breaker; done.
Qed.

(** X19: what moves the failure counter.  In one turn of the event loop the
    pair of failure count and last failure time stays as it is, or one failure
    is added and stamped with the current time, or the pair is reset to zero
    and null.  A failure is added only when the awaited request is rejected,
    when its answer arrives but the default volume is not a number that the
    new element accepts (the setter throws inside the [try]), or when a drain
    finds no client.  The pair is reset only by
    [resetTtsErrors], or by the breaker check inside [speakText],
    [getTtsStatus] and [isPollyAvailable] once the breaker is open and the
    cooldown is over.  Nothing else touches it: a playback that starts or
    fails, an ended stream and [stopAllAudio] leave the count alone, so the
    failures that open the breaker need not be consecutive. *)
Theorem failure_count_moves_by_one_or_resets (now : Z) (ev : Event) (s s' : State) :
  step now ev s = Some s' →
  breaker s' = breaker s ∨
  (breaker s' = (S (ttsErrorCount s), Some now) ∧
   ((∃ rid e, ev = EvRace rid (RaceRejected e)) ∨
    (∃ rid stream thrown,
       ev = EvRace rid (RaceFulfilled (AudioStream stream)) ∧
       volume_setter (defaultVolume (audioSettings s)) = inl thrown) ∨
    ((ev = EvQueueTimer ∨ ev = EvLoopDelay) ∧ pollyClient s = false))) ∨
  (breaker s' = (0%nat, None) ∧
   (ev = EvResetErrors ∨
    (((∃ text, ev = EvSpeak text) ∨ ev = EvGetStatus ∨ ev = EvIsAvailable) ∧
     (MAX_ERROR_COUNT ≤ ttsErrorCount s)%nat ∧
     ∃ t, lastErrorTime s = Some t ∧ (ERROR_RESET_TIME < now - t)%Z))).
Proof.
  intros Hstep. destruct ev; cbn [step] in Hstep.
  - (* initialize *) left. simplify_eq. unfold initializePollyClient. by repeat case_match.
  - (* speak *) simplify_eq. destruct (speakText_breaker text now s) as [H|(H1 & H2)]; [by left|].
    right; right. split; [done|]. right. split; [left; by eexists | done].
  - (* status *) simplify_eq. unfold getTtsStatus.
    destruct (breaker_check_cases now s) as [_ [H|(H1 & H2)]];
      destruct (isTtsTemporarilyDisabled now s); cbn [snd] in *; [by left|].
    right; right. split; [done|]. right. split; [right; by left | done].
  - (* available *) simplify_eq. unfold isPollyAvailable.
    destruct (pollyClient s); [|by left].
    destruct (breaker_check_cases now s) as [_ [H|(H1 & H2)]];
      destruct (isTtsTemporarilyDisabled now s); cbn [snd] in *; [by left|].
    right; right. split; [done|]. right. split; [right; by right | done].
  - (* reset *) right; right. simplify_eq. split; [done | by left].
  - (* configure *) left. by simplify_eq.
  - (* volume *) left. simplify_eq. by apply (setAudioVolume_preserves breaker).
  - (* stop *) left. simplify_eq. by destruct (stopAll_frame s) as (_ & H & _).
  - (* race *) destruct (tasks s !! rid) as [t|]; [|done]. cbn in Hstep.
    destruct (t_phase t); simplify_eq.
    destruct (on_race_breaker rid o now s)
      as [H|(H & [(e & ->)|(stream & thrown & -> & Hvol)])]; [by left| |].
    + right; left. split; [done|]. left. by eexists _, _.
    + right; left. split; [done|]. right; left. by exists rid, stream, thrown.
  - (* play *) left. destruct (elements s !! rid); [|done]. cbn in Hstep.
    by apply on_play_breaker in Hstep.
  - (* retry *) left. case_match; simplify_eq. unfold on_retry. by case_match.
  - (* queue timer *)
    destruct (queueTimers s) as [|n] eqn:Hn; simplify_eq.
    destruct (processAudioQueue_breaker now (set_queueTimers n s)) as [H|(H & Hc)]; [by left|].
    right; left. split; [done|]. right; right. split; [by left | done].
  - (* loop delay *)
    destruct (loopDelays s) as [|n] eqn:Hn; simplify_eq.
    destruct (queue_loop_breaker now (set_loopDelays n s)) as [H|(H & Hc)]; [by left|].
    right; left. split; [done|]. right; right. split; [by right | done].
  - (* fade tick *) left. unfold fade_tick in Hstep.
    destruct (fades s !! i) as [f|]; [|done]. cbn [mbind option_bind] in Hstep.
    destruct (_ || _) in Hstep; by simplify_eq.
  - (* volume restore *) left. unfold on_volume_restore in Hstep.
    destruct (volumeRestores s !! i); by simplify_eq/=.
  - (* expire *) left. case_match; by simplify_eq.
  - (* gesture *) left. simplify_eq. unfold gesture. by apply foldl_preserves.
  - (* visibility *) left. by simplify_eq.
  - (* ended *) left. destruct (elements s !! e); by simplify_eq/=.
  - (* error *) left. destruct (elements s !! e); by simplify_eq/=.
  - (* paused *) left. destruct (elements s !! e); simplify_eq/=.
    unfold on_pause. by case_match.
Qed.

(** A playback that starts leaves the count of the failures before it. *)
Lemma failure_count_moves_by_one_or_resets_witness :
  breaker (default ready (run [(210, EvPlay 0 None)]%Z
            (fail (default ready (run (take 2 two_playing_then_C) ready))
                  (API_TIMEOUT, 100%Z)))) = (1%nat, Some 100%Z).
Proof.
  destruct (failure_count_moves_by_one_or_resets 210 (EvPlay 0 None)
              (fail (default ready (run (take 2 two_playing_then_C) ready))
                    (API_TIMEOUT, 100%Z))
              (default ready (run [(210, EvPlay 0 None)]%Z
                 (fail (default ready (run (take 2 two_playing_then_C) ready))
                       (API_TIMEOUT, 100%Z))))
              ltac:(vm_compute; reflexivity)) as [H|[[_ H]|[_ H]]].
  - rewrite H. vm_compute. reflexivity.
  - exfalso. destruct H as [(rid & e & H)|[(rid & st & th & H & _)|[[H|H] _]]]; discriminate H.
  - exfalso. destruct H as [H|[[[text H]|[H|H]] _]]; discriminate H.
Defined.

(** ** The queued-requests counter *)

Lemma gap_of_backlog (s s' : State) : backlog s' = backlog s → queue_gap s' = queue_gap s.
Proof. unfold backlog, queue_gap. by intros [= -> ->]. Qed.

Lemma settle_backlog (rid : nat) (c : Completion) (s : State) :
  backlog (settle rid c s) = backlog s.
Proof. unfold settle, after_queue_item, queue_loop_exit. by repeat case_match. Qed.

Lemma recordTtsError_backlog (ty : string) (now : Z) (s : State) :
  backlog (recordTtsError ty now s) = backlog s.
Proof. unfold recordTtsError. by case_match. Qed.

Lemma classify_and_record_backlog (e : JsError) (now : Z) (s : State) :
  backlog (snd (classify_and_record e now s)) = backlog s.
Proof.
  unfold classify_and_record.
  repeat case_match; cbn [snd]; rewrite ?recordTtsError_backlog; done.
Qed.

Lemma isTtsTemporarilyDisabled_backlog (now : Z) (s : State) :
  backlog (snd (isTtsTemporarilyDisabled now s)) = backlog s.
Proof. unfold isTtsTemporarilyDisabled. by repeat case_match. Qed.

Lemma manageAudioConcurrency_backlog (s : State) :
  backlog (manageAudioConcurrency s) = backlog s.
Proof.
  unfold manageAudioConcurrency. cbv zeta.
  set (s1 := foldl _ _ _).
  assert (H1 : backlog s1 = backlog s) by (subst s1; by apply foldl_preserves).
  assert (Hf : ∀ e, backlog (fadeOutAudio e s1) = backlog s1).
  { intros e. unfold fadeOutAudio. by repeat case_match. }
  repeat case_match; rewrite ?Hf; done.
Qed.

Lemma synthesize_backlog (text : jsstring) (start now : Z) (origin : Origin) (s : State) :
  backlog (synthesizeAndPlayAudio text start origin now s) = backlog s.
Proof.
  unfold synthesizeAndPlayAudio. cbv zeta.
  destruct (maxTextLength <? length text)%nat;
    cbn [pollyClient set_tasks log set_console tasks];
    (destruct (pollyClient s);
     [ done
     | unfold catch_synthesis;
       by rewrite settle_backlog, classify_and_record_backlog ]).
Qed.

Lemma speakText_gap (text : JsValue) (now : Z) (s : State) :
  queue_gap (snd (speakText text now s)) = queue_gap s.
Proof.
  unfold speakText.
  destruct text as [t|]; [|done].
  destruct (invalid_text (JString t)); [done|].
  destruct (negb _); [done|].
  pose proof (isTtsTemporarilyDisabled_backlog now (count_request s)) as H1.
  destruct (isTtsTemporarilyDisabled now (count_request s)) as [d s1]. cbn [snd] in H1.
  change (backlog (count_request s)) with (backlog s) in H1.
  destruct d; cbn [snd]; [by apply gap_of_backlog|].
  pose proof (manageAudioConcurrency_backlog s1) as H2. rewrite H1 in H2.
  destruct (at_capacity _); cbn [snd].
  - unfold backlog in H2. injection H2 as Hq Hl.
    unfold queue_gap. cbn. rewrite Hq, Hl, length_app. cbn. lia.
  - apply gap_of_backlog. by rewrite synthesize_backlog.
Qed.

Lemma queue_loop_gap (now : Z) (s : State) : queue_gap (queue_loop now s) = queue_gap s.
Proof.
  assert (Hexit : queue_gap (queue_loop_exit s) = queue_gap s).
  { unfold queue_loop_exit. by case_match. }
  unfold queue_loop. destruct (audioQueue s) as [|item rest] eqn:Hq; [done|].
  destruct (at_capacity s); [done|].
  unfold queue_gap at 1.
  match goal with |- context [synthesizeAndPlayAudio ?t ?a ?o ?n ?s0] =>
    pose proof (synthesize_backlog t a n o s0) as H end.
  unfold backlog in H. injection H as -> ->.
  unfold queue_gap. cbn. rewrite Hq. cbn [length]. lia.
Qed.

Lemma processAudioQueue_gap (now : Z) (s : State) :
  queue_gap (processAudioQueue now s) = queue_gap s.
Proof.
  unfold processAudioQueue. destruct (isProcessingQueue s); [done|].
  destruct (audioQueue s) eqn:Hq; [done|].
  by rewrite queue_loop_gap.
Qed.

Lemma play_catch_backlog (rid : nat) (e : JsError) (s : State) :
  backlog (play_catch rid e s) = backlog s.
Proof. unfold play_catch. rewrite settle_backlog. by repeat case_match. Qed.

Lemma play_started_backlog (rid : nat) (now : Z) (s : State) :
  backlog (play_started rid now s) = backlog s.
Proof. unfold play_started. case_match; [|done]. by rewrite settle_backlog. Qed.

Lemma on_race_backlog (rid : nat) (o : RaceOutcome) (now : Z) (s : State) :
  backlog (on_race rid o now s) = backlog s.
Proof.
  unfold on_race, catch_synthesis, handleAutoplayOptimization.
  repeat case_match;
    rewrite ?settle_backlog, ?play_catch_backlog, ?classify_and_record_backlog; done.
Qed.

Lemma on_play_backlog (rid : nat) (o : option JsError) (now : Z) (s s' : State) :
  on_play rid o now s = Some s' → backlog s' = backlog s.
Proof.
  unfold on_play. intros H.
  destruct (tasks s !! rid) as [t|]; [|done]. cbn [mbind option_bind] in H.
  destruct (t_phase t), o as [e|]; try done.
  - destruct (String.eqb _ _).
    + destruct (elements s !! rid); by simplify_eq/=.
    + simplify_eq. apply play_catch_backlog.
  - simplify_eq. apply play_started_backlog.
  - simplify_eq. by rewrite play_catch_backlog.
  - simplify_eq. by rewrite play_started_backlog.
Qed.

(** One turn of the event loop: the counter follows the queue, except that
    [stopAllAudio] empties the queue and leaves the counter. *)
Lemma gap_step (now : Z) (ev : Event) (s s' : State) :
  step now ev s = Some s' →
  queue_gap s' =
    (queue_gap s +
     match ev with EvStopAll => Z.of_nat (length (audioQueue s)) | _ => 0 end)%Z.
Proof.
  intros Hstep. destruct ev; cbn [step] in Hstep; rewrite ?Z.add_0_r.
  - simplify_eq. unfold initializePollyClient. by repeat case_match.
  - simplify_eq. apply speakText_gap.
  - simplify_eq. unfold getTtsStatus.
    pose proof (isTtsTemporarilyDisabled_backlog now s) as H.
    destruct (isTtsTemporarilyDisabled now s). by apply gap_of_backlog.
  - simplify_eq. unfold isPollyAvailable. destruct (pollyClient s); [|done].
    pose proof (isTtsTemporarilyDisabled_backlog now s) as H.
    destruct (isTtsTemporarilyDisabled now s). by apply gap_of_backlog.
  - by simplify_eq.
  - by simplify_eq.
  - simplify_eq. by apply gap_of_backlog, (setAudioVolume_preserves backlog).
  - simplify_eq. destruct (stopAll_frame s) as (Ht & _ & _ & _ & Hm & _).
    pose proof (f_equal (λ x, fst (fst x)) Ht) as Hq. cbn [traffic fst] in Hq.
    unfold queue_gap. rewrite Hq, Hm. cbn [length]. lia.
  - destruct (tasks s !! rid) as [t|]; [|done]. cbn in Hstep.
    destruct (t_phase t); simplify_eq. apply gap_of_backlog, on_race_backlog.
  - destruct (elements s !! rid); [|done]. cbn in Hstep.
    by apply gap_of_backlog, (on_play_backlog rid o now).
  - case_match; simplify_eq. unfold on_retry. by case_match.
  - destruct (queueTimers s) as [|n] eqn:Hn; simplify_eq.
    by rewrite processAudioQueue_gap.
  - destruct (loopDelays s) as [|n] eqn:Hn; simplify_eq.
    by rewrite queue_loop_gap.
  - unfold fade_tick in Hstep.
    destruct (fades s !! i) as [f|]; [|done]. cbn [mbind option_bind] in Hstep.
    destruct (_ || _) in Hstep; by simplify_eq.
  - unfold on_volume_restore in Hstep.
    destruct (volumeRestores s !! i); by simplify_eq/=.
  - case_match; by simplify_eq.
  - simplify_eq. apply gap_of_backlog. unfold gesture. by apply foldl_preserves.
  - by simplify_eq.
  - destruct (elements s !! e); by simplify_eq/=.
  - destruct (elements s !! e); by simplify_eq/=.
  - destruct (elements s !! e); simplify_eq/=.
    unfold on_pause. by case_match.
Qed.

Lemma dropped_nonneg (trace : list (Z * Event)) (s : State) : (0 ≤ dropped trace s)%Z.
Proof.
  revert s. induction trace as [|[now ev] trace IH]; intros s; cbn [dropped]; [done|].
  destruct (step now ev s) as [s1|]; [|done].
  specialize (IH s1). destruct ev; lia.
Qed.

(** X20: the queued-requests counter drifts at [stopAllAudio], and only
    there.  [speakText] counts an entry when it queues it and the drain loop
    discounts it when it takes it, so over any run the counter moves with the
    length of the queue; but [stopAllAudio] empties the queue without
    touching the counter.  After a run, [performanceMetrics.queuedRequests]
    is ahead of [audioQueue.length] by what it was ahead at the start plus the
    number of entries that the calls of [stopAllAudio] dropped, and nothing
    brings it back: the two backlog figures of [getAudioStatus] disagree
    from then on. *)
Theorem queued_counter_drifts_at_stop (trace : list (Z * Event)) (s s' : State) :
  run trace s = Some s' →
  (queuedRequests (as_performanceMetrics (getAudioStatus s'))
     - Z.of_nat (queuedAudioCount (getAudioStatus s')) =
   queue_gap s + dropped trace s)%Z ∧
  (queue_gap s ≤ queue_gap s')%Z.
Proof.
  intros Hrun.
  assert (H : queue_gap s' = (queue_gap s + dropped trace s)%Z).
  { revert s Hrun. induction trace as [|[now ev] trace IH]; intros s Hrun;
      cbn [run dropped] in *.
    - injection Hrun as <-. lia.
    - destruct (step now ev s) as [s1|] eqn:Hstep; [|done]. cbn [mbind option_bind] in Hrun.
      rewrite (IH s1 Hrun), (gap_step now ev s s1 Hstep). lia. }
  split; [exact H|]. pose proof (dropped_nonneg trace s). lia.
Qed.

(** The game is stopped while C waits in the queue: the queue is empty, the
    counter still says one. *)
Lemma queued_counter_drifts_at_stop_witness :
  ∃ s', run (two_playing_then_C ++ [(2500%Z, EvStopAll)]) ready = Some s' ∧
        audioQueue s' = [] ∧ queuedRequests (performanceMetrics s') = 1%Z.
Proof.
  eexists. split; [vm_compute; reflexivity|]. split; [reflexivity|].
  pose proof (proj1 (queued_counter_drifts_at_stop
                       (two_playing_then_C ++ [(2500%Z, EvStopAll)]) ready _
                       ltac:(vm_compute; reflexivity))) as H.
  vm_compute in H. vm_compute. exact H.
Defined.

(** ** The two attempts of [handleAutoplayOptimization] *)

Lemma settle_media (rid : nat) (c : Completion) (s : State) :
  elements (settle rid c s) = elements s ∧
  volumeRestores (settle rid c s) = volumeRestores s ∧
  performanceMetrics (settle rid c s) = performanceMetrics s.
Proof. unfold settle, after_queue_item, queue_loop_exit. by repeat case_match. Qed.

Lemma play_started_media (rid : nat) (now : Z) (s : State) :
  elements (play_started rid now s) = elements s ∧
  volumeRestores (play_started rid now s) = volumeRestores s.
Proof.
  unfold play_started. case_match; [|done].
  match goal with |- context [settle rid Resolved ?s0] =>
    destruct (settle_media rid Resolved s0) as (-> & -> & _) end.
  done.
Qed.

Lemma play_catch_media (rid : nat) (e : JsError) (s : State) :
  elements (play_catch rid e s) = elements s ∧
  volumeRestores (play_catch rid e s) = volumeRestores s ∧
  performanceMetrics (play_catch rid e s) = performanceMetrics s.
Proof.
  unfold play_catch.
  match goal with |- context [settle rid Resolved ?s0] =>
    destruct (settle_media rid Resolved s0) as (-> & -> & ->) end.
  by repeat case_match.
Qed.

Lemma with_volume_back (v : Q) (a : AudioElement) :
  with_volume (volume a) (with_volume v a) = a.
Proof. by destruct a. Qed.

(** X21: the second attempt at a lowered volume never leaves the element
    quiet.  When the first [play()] is refused by the autoplay policy, the
    volume is set to 0.1 and [play()] is tried again.  If that attempt starts,
    a timer is left that puts the volume back to the value the element had;
    if it is refused too, the volume is put back at once, the element leaves
    the active set and the refusal counts neither as a success nor as a
    failure of the breaker. *)
Theorem second_attempt_restores_volume (rid : nat) (t : Task) (a : AudioElement)
    (e : JsError) (now1 now2 : Z) (s : State) :
  tasks s !! rid = Some t → t_phase t = AwaitPlay →
  elements s !! rid = Some a →
  err_name e = "NotAllowedError" →
  ∃ s1, on_play rid (Some e) now1 s = Some s1 ∧
    elements s1 !! rid = Some (with_volume (1 # 10) a) ∧
    (∃ s2 s3, on_play rid None now2 s1 = Some s2 ∧
       elements s2 !! rid = Some (with_volume (1 # 10) a) ∧
       volumeRestores s2 = volumeRestores s ++ [(rid, volume a)] ∧
       on_volume_restore (length (volumeRestores s)) s2 = Some s3 ∧
       elements s3 !! rid = Some a ∧
       volumeRestores s3 = volumeRestores s) ∧
    (∀ e2, ∃ s2, on_play rid (Some e2) now2 s1 = Some s2 ∧
       elements s2 !! rid = Some a ∧
       (rid ∉ activeAudioElements s2) ∧
       volumeRestores s2 = volumeRestores s ∧
       performanceMetrics s2 = performanceMetrics s ∧
       breaker s2 = breaker s).
Proof.
  intros Ht Hph Ha He.
  set (s1 := s |> update_element rid (with_volume (1 # 10))
               |> set_phase rid (AwaitQuietPlay (volume a))).
  assert (H1 : on_play rid (Some e) now1 s = Some s1).
  { unfold on_play. rewrite Ht. cbn [mbind option_bind]. rewrite Hph, He.
    cbn [String.eqb Ascii.eqb Bool.eqb]. rewrite Ha. done. }
  assert (Ht1 : tasks s1 !! rid = Some (with_phase (AwaitQuietPlay (volume a)) t)).
  { subst s1. cbn. by rewrite list_lookup_alter_eq, Ht. }
  assert (Ha1 : elements s1 !! rid = Some (with_volume (1 # 10) a)).
  { subst s1. cbn. by rewrite lookup_alter_eq, Ha. }
  assert (Hv1 : volumeRestores s1 = volumeRestores s) by done.
  assert (Hm1 : performanceMetrics s1 = performanceMetrics s) by done.
  assert (Hb1 : breaker s1 = breaker s) by done.
  assert (Hact1 : activeAudioElements s1 = activeAudioElements s) by done.
  exists s1. split; [exact H1|]. split; [exact Ha1|].
  clearbody s1. split.
  - set (s2 := s1 |> set_volumeRestores (volumeRestores s1 ++ [(rid, volume a)])
                  |> play_started rid now2).
    assert (H2 : on_play rid None now2 s1 = Some s2).
    { unfold on_play. rewrite Ht1. done. }
    destruct (play_started_media rid now2
                (set_volumeRestores (volumeRestores s1 ++ [(rid, volume a)]) s1))
      as [He2 Hv2].
    fold s2 in He2, Hv2. cbn [elements volumeRestores set_volumeRestores] in He2, Hv2.
    clearbody s2.
    exists s2. eexists. split; [exact H2|].
    split; [by rewrite He2|]. split; [by rewrite Hv2, Hv1|].
    unfold on_volume_restore. rewrite Hv2, Hv1.
    rewrite lookup_app_r, Nat.sub_diag by done. cbn [lookup list_lookup mbind option_bind].
    split; [done|]. cbn. rewrite lookup_alter_eq, He2, Ha1. cbn.
    split; [by rewrite with_volume_back|].
    rewrite delete_middle. by rewrite app_nil_r.
  - intros e2.
    set (s2 := s1 |> update_element rid (with_volume (volume a)) |> play_catch rid e2).
    assert (H2 : on_play rid (Some e2) now2 s1 = Some s2).
    { unfold on_play. rewrite Ht1. done. }
    destruct (play_catch_media rid e2 (update_element rid (with_volume (volume a)) s1))
      as (He2 & Hv2 & Hm2).
    pose proof (play_catch_breaker rid e2 (update_element rid (with_volume (volume a)) s1))
      as Hb2.
    destruct (play_catch_footprint rid e2 (update_element rid (with_volume (volume a)) s1))
      as [_ Hact2].
    fold s2 in He2, Hv2, Hm2, Hb2, Hact2.
    cbn [elements volumeRestores performanceMetrics update_element set_elements
         activeAudioElements] in He2, Hv2, Hm2, Hact2.
    change (breaker (update_element rid (with_volume (volume a)) s1))
      with (breaker s1) in Hb2.
    clearbody s2. exists s2. split; [exact H2|].
    split; [|split; [|split; [congruence | split; congruence]]].
    + rewrite He2, lookup_alter_eq, Ha1. cbn. by rewrite with_volume_back.
    + rewrite Hact2, elem_of_set_delete. tauto.
Qed.

(** A's first [play()] is refused; the second attempt starts and the timer
    restores the volume 0.6 of the game. *)
Lemma second_attempt_restores_volume_witness :
  ∃ s1, on_play 0 (Some NotAllowedError) 210
          (default ready (run (take 2 two_playing_then_C) ready)) = Some s1 ∧
        elements s1 !! 0%nat = Some (mkAudio (1 # 10) false false false).
Proof.
  destruct (second_attempt_restores_volume 0
              (mkTask (str "A") 10 Direct AwaitPlay)
              (mkAudio (6 # 10) false false false) NotAllowedError 210 220
              (default ready (run (take 2 two_playing_then_C) ready))
              eq_refl eq_refl eq_refl eq_refl) as (s1 & H1 & Ha1 & _).
  exists s1. split; [exact H1 | exact Ha1].
Defined.

(** ** What adds to the active set *)

Lemma active_quiet (s s' : State) :
  quiet s s' → activeAudioElements s' ⊆ activeAudioElements s.
Proof. by intros [_ H]. Qed.

Lemma active_settle (rid : nat) (c : Completion) (s : State) :
  activeAudioElements (settle rid c s) = activeAudioElements s.
Proof. by destruct (settle_footprint rid c s) as [_ H]. Qed.

Lemma active_synthesize (text : jsstring) (start now : Z) (origin : Origin) (s : State) :
  activeAudioElements (synthesizeAndPlayAudio text start origin now s)
    ⊆ activeAudioElements s.
Proof.
  unfold synthesizeAndPlayAudio. cbv zeta.
  destruct (maxTextLength <? length text)%nat;
    cbn [pollyClient set_tasks log set_console tasks];
    (destruct (pollyClient s);
     [ done
     | unfold catch_synthesis; rewrite active_settle;
       etransitivity; [apply active_quiet, quiet_classify_and_record | done] ]).
Qed.

Lemma active_speakText (text : JsValue) (now : Z) (s : State) :
  activeAudioElements (snd (speakText text now s)) ⊆ activeAudioElements s.
Proof.
  unfold speakText.
  destruct text as [t|]; [|done].
  destruct (invalid_text (JString t)); [done|].
  destruct (negb _); [done|].
  pose proof (active_quiet _ _ (quiet_isTtsTemporarilyDisabled now (count_request s))) as H1.
  destruct (isTtsTemporarilyDisabled now (count_request s)) as [d s1]. cbn [snd] in H1.
  destruct d; cbn [snd]; [exact H1|].
  pose proof (active_quiet _ _ (quiet_manageAudioConcurrency s1)) as H2.
  destruct (at_capacity _); cbn [snd].
  - etransitivity; [exact H2 | exact H1].
  - etransitivity; [apply active_synthesize|]. etransitivity; [exact H2 | exact H1].
Qed.

Lemma active_queue_loop (now : Z) (s : State) :
  activeAudioElements (queue_loop now s) ⊆ activeAudioElements s.
Proof.
  unfold queue_loop. destruct (audioQueue s) as [|item rest];
    [apply active_quiet, quiet_queue_loop_exit|].
  destruct (at_capacity s); [apply active_quiet, quiet_queue_loop_exit|].
  etransitivity; [apply active_synthesize | done].
Qed.

Lemma active_processAudioQueue (now : Z) (s : State) :
  activeAudioElements (processAudioQueue now s) ⊆ activeAudioElements s.
Proof.
  unfold processAudioQueue. destruct (isProcessingQueue s); [done|].
  destruct (audioQueue s) eqn:Hq; [done|].
  etransitivity; [apply active_queue_loop | done].
Qed.

Lemma active_play_catch (rid : nat) (e : JsError) (s : State) :
  activeAudioElements (play_catch rid e s) ⊆ activeAudioElements s.
Proof.
  destruct (play_catch_footprint rid e s) as [_ ->]. apply set_delete_subseteq.
Qed.

Lemma active_play_started (rid : nat) (now : Z) (s : State) :
  activeAudioElements (play_started rid now s) = activeAudioElements s.
Proof. unfold play_started. case_match; [|done]. by rewrite active_settle. Qed.

Lemma active_on_race (rid : nat) (o : RaceOutcome) (now : Z) (s : State) :
  ∀ e, e ∈ activeAudioElements (on_race rid o now s) →
       e ∈ activeAudioElements s ∨ e = rid ∧ ∃ stream, o = RaceFulfilled (AudioStream stream).
Proof.
  intros e. unfold on_race. destruct o as [err|[|stream]].
  - unfold catch_synthesis. rewrite active_settle. intros He. left.
    by apply (active_quiet _ _ (quiet_classify_and_record err now s)).
  - rewrite active_settle. by left.
  - set (a := streamToUint8Array stream). destruct (as_result a) as [err|audioBytes].
    + rewrite active_settle. by left.
    + destruct (length audioBytes =? 0)%nat; [rewrite active_settle; by left|].
      destruct (volume_setter _) as [thrown|volume].
      { unfold catch_synthesis. rewrite active_settle. intros He. left.
        by apply (active_quiet _ _ (quiet_classify_and_record thrown now _)) in He. }
      unfold handleAutoplayOptimization.
      match goal with |- context [hidden ?s0] => destruct (hidden s0) end.
      * intros He. apply active_play_catch in He. cbn in He.
        apply elem_of_set_add in He as [->|He]; [right; split; [done | by eexists] | by left].
      * cbn. intros He.
        apply elem_of_set_add in He as [->|He]; [right; split; [done | by eexists] | by left].
Qed.

Lemma active_on_play (rid : nat) (o : option JsError) (now : Z) (s s' : State) :
  on_play rid o now s = Some s' → activeAudioElements s' ⊆ activeAudioElements s.
Proof.
  unfold on_play. intros H.
  destruct (tasks s !! rid) as [t|]; [|done]. cbn [mbind option_bind] in H.
  destruct (t_phase t), o as [e|]; try done.
  - destruct (String.eqb _ _).
    + destruct (elements s !! rid); by simplify_eq/=.
    + simplify_eq. apply active_play_catch.
  - simplify_eq. by rewrite active_play_started.
  - simplify_eq. etransitivity; [apply active_play_catch | done].
  - simplify_eq. by rewrite active_play_started.
Qed.

(** X22: what adds to the active set.  In one turn of the event loop an
    element enters [activeAudioElements] only when the answer of its own
    request arrives with a stream, or when its retry after a gesture
    succeeds.  A call of [speakText], a timer, the drain loop and the media
    events never add one. *)
Theorem active_set_grows_on_answer_or_retry (now : Z) (ev : Event) (s s' : State) :
  step now ev s = Some s' →
  ∀ e, e ∈ activeAudioElements s' →
    e ∈ activeAudioElements s ∨
    (∃ stream, ev = EvRace e (RaceFulfilled (AudioStream stream))) ∨
    ev = EvRetry e true.
Proof.
  intros Hstep x Hx.
  assert (Hsub : ∀ s0, activeAudioElements s0 ⊆ activeAudioElements s →
                       x ∈ activeAudioElements s0 → x ∈ activeAudioElements s)
    by (intros s0 H0 H1; by apply H0).
  destruct ev; cbn [step] in Hstep.
  - left. simplify_eq. revert Hx. apply Hsub, active_quiet, quiet_initializePollyClient.
  - left. simplify_eq. revert Hx. apply Hsub, active_speakText.
  - left. simplify_eq. revert Hx. unfold getTtsStatus.
    pose proof (active_quiet _ _ (quiet_isTtsTemporarilyDisabled now s)) as H.
    destruct (isTtsTemporarilyDisabled now s). by apply Hsub.
  - left. simplify_eq. revert Hx. unfold isPollyAvailable. destruct (pollyClient s); [|done].
    pose proof (active_quiet _ _ (quiet_isTtsTemporarilyDisabled now s)) as H.
    destruct (isTtsTemporarilyDisabled now s). by apply Hsub.
  - left. by simplify_eq.
  - left. by simplify_eq.
  - left. simplify_eq. revert Hx. apply Hsub, active_quiet, quiet_setAudioVolume.
  - left. simplify_eq. revert Hx. apply Hsub, active_quiet, quiet_stopAllAudio.
  - destruct (tasks s !! rid) as [t|]; [|done]. cbn in Hstep.
    destruct (t_phase t); simplify_eq.
    destruct (active_on_race rid o now s x Hx) as [H|(-> & stream & ->)]; [by left|].
    right; left. by exists stream.
  - left. destruct (elements s !! rid); [|done]. cbn in Hstep.
    revert Hx. by apply Hsub, (active_on_play rid o now).
  - case_bool_decide; [|done]. simplify_eq. revert Hx. unfold on_retry.
    case_match; cbn; [|by left].
    intros [->|Hx]%elem_of_set_add; [right; by right | by left].
  - left. destruct (queueTimers s) as [|n] eqn:Hn; simplify_eq.
    revert Hx. apply Hsub. etransitivity; [apply active_processAudioQueue | done].
  - left. destruct (loopDelays s) as [|n] eqn:Hn; simplify_eq.
    revert Hx. apply Hsub. etransitivity; [apply active_queue_loop | done].
  - left. revert Hx. by apply Hsub, active_quiet, (quiet_fade_tick i).
  - left. unfold on_volume_restore in Hstep.
    destruct (volumeRestores s !! i); by simplify_eq/=.
  - left. case_match; by simplify_eq.
  - left. simplify_eq. revert Hx.
    destruct (gesture_fold (listeners s) s) as (_ & _ & _ & _ & Ha & _).
    cbv zeta in Ha. fold (gesture s) in Ha. by rewrite Ha.
  - left. by simplify_eq.
  - left. destruct (elements s !! e); simplify_eq/=.
    by apply elem_of_set_delete in Hx as [_ ?].
  - left. destruct (elements s !! e); simplify_eq/=.
    by apply elem_of_set_delete in Hx as [_ ?].
  - left. destruct (elements s !! e); simplify_eq/=.
    revert Hx. apply Hsub, active_quiet, quiet_on_pause.
Qed.

(** The third answer arrives while A and B are playing: C enters the set
    through its own answer. *)
Lemma active_set_grows_on_answer_or_retry_witness :
  activeAudioElements (default ready (run (take 7 three_calls_back_to_back) ready))
    = [0; 1]%nat ∧
  activeAudioElements (default ready (run (take 8 three_calls_back_to_back) ready))
    = [0; 1; 2]%nat ∧
  ∃ stream, mp3 2 = EvRace 2 (RaceFulfilled (AudioStream stream)).
Proof.
  split; [reflexivity|]. split; [reflexivity|].
  destruct (active_set_grows_on_answer_or_retry 240 (mp3 2)
              (default ready (run (take 7 three_calls_back_to_back) ready))
              (default ready (run (take 8 three_calls_back_to_back) ready))
              ltac:(vm_compute; reflexivity) 2%nat
              ltac:(vm_compute; apply list_elem_of_further, list_elem_of_further, list_elem_of_here))
    as [H|[H|H]].
  - exfalso. vm_compute in H.
    apply elem_of_cons in H as [H|H]; [discriminate|].
    apply list_elem_of_singleton in H. discriminate.
  - exact H.
  - discriminate H.
Defined.

(** ** Requests and successes *)

Lemma in_flight_app (l : list Task) (t : Task) :
  (in_flight (l ++ [t]) ≤ S (in_flight l))%nat.
Proof.
  unfold in_flight. rewrite filter_app, length_app, filter_cons, filter_nil.
  destruct (decide _); cbn; lia.
Qed.

Lemma in_flight_cons (t : Task) (l : list Task) :
  in_flight (t :: l) = ((if unsettled t then 1 else 0) + in_flight l)%nat.
Proof.
  unfold in_flight. rewrite filter_cons.
  destruct (unsettled t) eqn:Hu.
  - by rewrite decide_True.
  - by rewrite decide_False.
Qed.

(** A call that settles leaves the calls in flight. *)
Lemma in_flight_settled (l : list Task) (i : nat) (c : Completion) :
  (in_flight (alter (with_phase (Settled c)) i l) ≤ in_flight l)%nat ∧
  (∀ t, l !! i = Some t → unsettled t = true →
        S (in_flight (alter (with_phase (Settled c)) i l)) = in_flight l).
Proof.
  revert i. induction l as [|x l IH]; intros i; [by split|].
  destruct i as [|i].
  - change (alter (with_phase (Settled c)) 0 (x :: l)) with (with_phase (Settled c) x :: l).
    rewrite !in_flight_cons. cbn. split; [destruct (unsettled x); lia|].
    intros t [= <-] Hu. rewrite Hu. lia.
  - change (alter (with_phase (Settled c)) (S i) (x :: l))
      with (x :: alter (with_phase (Settled c)) i l).
    rewrite !in_flight_cons. destruct (IH i) as [H1 H2].
    split; [destruct (unsettled x); lia|]. intros t Ht Hu. cbn in Ht.
    specialize (H2 t Ht Hu). clear -H2. destruct (unsettled x); lia.
Qed.

(** A call in flight that moves on to another await stays in flight. *)
Lemma in_flight_moved (l : list Task) (i : nat) (p : Phase) (t : Task) :
  l !! i = Some t → unsettled t = true →
  (in_flight (alter (with_phase p) i l) ≤ in_flight l)%nat.
Proof.
  revert i. induction l as [|x l IH]; intros i Ht Hu; [done|].
  destruct i as [|i].
  - change (alter (with_phase p) 0 (x :: l)) with (with_phase p x :: l).
    rewrite !in_flight_cons. cbn in Ht. injection Ht as ->. rewrite Hu.
    clear. destruct (unsettled _); lia.
  - change (alter (with_phase p) (S i) (x :: l)) with (x :: alter (with_phase p) i l).
    rewrite !in_flight_cons. cbn in Ht. specialize (IH i Ht Hu).
    clear -IH. destruct (unsettled x); lia.
Qed.

Lemma unsuccessful_books (s s' : State) : books s' = books s → unsuccessful s' = unsuccessful s.
Proof. unfold books, unsuccessful. by intros [= -> -> ->]. Qed.

Lemma settle_books (rid : nat) (c : Completion) (s : State) :
  books (settle rid c s) =
    (performanceMetrics s, alter (with_phase (Settled c)) rid (tasks s), audioQueue s).
Proof.
  unfold books. rewrite settle_tasks, settle_queue.
  by destruct (settle_media rid c s) as (_ & _ & ->).
Qed.

Lemma settle_unsuccessful (rid : nat) (c : Completion) (s : State) :
  (unsuccessful s ≤ unsuccessful (settle rid c s))%Z ∧
  (∀ t, tasks s !! rid = Some t → unsettled t = true →
        unsuccessful (settle rid c s) = unsuccessful s + 1)%Z.
Proof.
  pose proof (settle_books rid c s) as H. unfold books in H. injection H as Hm Ht Hq.
  destruct (in_flight_settled (tasks s) rid c) as [H1 H2].
  unfold unsuccessful. rewrite Hm, Ht, Hq. split; [lia|].
  intros t Hl Hu. specialize (H2 t Hl Hu). lia.
Qed.

Lemma recordTtsError_books (ty : string) (now : Z) (s : State) :
  books (recordTtsError ty now s) = books s.
Proof. unfold recordTtsError. by case_match. Qed.

Lemma classify_and_record_books (e : JsError) (now : Z) (s : State) :
  books (snd (classify_and_record e now s)) = books s.
Proof.
  unfold classify_and_record.
  repeat case_match; cbn [snd]; rewrite ?recordTtsError_books; done.
Qed.

Lemma isTtsTemporarilyDisabled_books (now : Z) (s : State) :
  books (snd (isTtsTemporarilyDisabled now s)) = books s.
Proof. unfold isTtsTemporarilyDisabled. by repeat case_match. Qed.

Lemma manageAudioConcurrency_books (s : State) :
  books (manageAudioConcurrency s) = books s.
Proof.
  unfold manageAudioConcurrency. cbv zeta.
  set (s1 := foldl _ _ _).
  assert (H1 : books s1 = books s) by (subst s1; by apply foldl_preserves).
  assert (Hf : ∀ e, books (fadeOutAudio e s1) = books s1).
  { intros e. unfold fadeOutAudio. by repeat case_match. }
  repeat case_match; rewrite ?Hf; done.
Qed.

(** A call that starts takes one request out of the uncounted ones, and gives
    it back if it fails at once. *)
Lemma synthesize_unsuccessful (text : jsstring) (start now : Z) (origin : Origin) (s : State) :
  (unsuccessful s - 1 ≤ unsuccessful (synthesizeAndPlayAudio text start origin now s))%Z.
Proof.
  unfold synthesizeAndPlayAudio. cbv zeta.
  set (text1 := if (maxTextLength <? length text)%nat
                then substring0 maxTextLength text else text).
  assert (Hnew : ∀ s2, books s2 =
                    (performanceMetrics s,
                     tasks s ++ [mkTask text1 start origin AwaitRace], audioQueue s) →
                  (unsuccessful s - 1 ≤ unsuccessful s2)%Z).
  { intros s2 H. unfold books in H. injection H as Hm Ht Hq.
    unfold unsuccessful. rewrite Hm, Ht, Hq.
    pose proof (in_flight_app (tasks s) (mkTask text1 start origin AwaitRace)). lia. }
  destruct (maxTextLength <? length text)%nat;
    cbn [pollyClient set_tasks log set_console tasks];
    (destruct (pollyClient s);
     [ by apply Hnew
     | unfold catch_synthesis;
       etransitivity; [|apply settle_unsuccessful];
       rewrite (unsuccessful_books _ _ (classify_and_record_books _ _ _));
       by apply Hnew ]).
Qed.

Lemma count_request_unsuccessful (s : State) :
  unsuccessful (count_request s) = (unsuccessful s + 1)%Z.
Proof. unfold unsuccessful. cbn. lia. Qed.

Lemma log_unsuccessful (l : Level) (m : string) (s : State) :
  unsuccessful (log l m s) = unsuccessful s.
Proof. reflexivity. Qed.

Lemma speakText_unsuccessful (text : JsValue) (now : Z) (s : State) :
  (unsuccessful s ≤ unsuccessful (snd (speakText text now s)))%Z.
Proof.
  pose proof (count_request_unsuccessful s) as H0.
  unfold speakText.
  destruct text as [t|]; [|cbn [snd]; rewrite log_unsuccessful; lia].
  destruct (invalid_text (JString t));
    [cbn [snd]; rewrite log_unsuccessful; lia|].
  destruct (negb _);
    [cbn [snd]; rewrite log_unsuccessful; lia|].
  pose proof (isTtsTemporarilyDisabled_books now (count_request s)) as H1.
  destruct (isTtsTemporarilyDisabled now (count_request s)) as [d s1]. cbn [snd] in H1.
  apply unsuccessful_books in H1.
  destruct d; cbn [snd];
    [rewrite log_unsuccessful; lia|].
  pose proof (unsuccessful_books _ _ (manageAudioConcurrency_books s1)) as H2.
  destruct (at_capacity _); cbn [snd].
  - match goal with |- (_ ≤ unsuccessful ?s3)%Z =>
      assert (H3 : unsuccessful s3 = (unsuccessful (manageAudioConcurrency s1) - 1)%Z) end.
    { unfold unsuccessful. cbn. rewrite length_app. cbn. lia. }
    lia.
  - pose proof (synthesize_unsuccessful t now now Direct (manageAudioConcurrency s1)). lia.
Qed.

Lemma queue_loop_unsuccessful (now : Z) (s : State) :
  (unsuccessful s ≤ unsuccessful (queue_loop now s))%Z.
Proof.
  assert (Hexit : unsuccessful (queue_loop_exit s) = unsuccessful s).
  { unfold queue_loop_exit. by case_match. }
  unfold queue_loop. destruct (audioQueue s) as [|item rest] eqn:Hq; [lia|].
  destruct (at_capacity s); [lia|].
  match goal with |- context [synthesizeAndPlayAudio ?t ?a ?o ?n ?s0] =>
    pose proof (synthesize_unsuccessful t a n o s0) as H;
    assert (H0 : unsuccessful s0 = (unsuccessful s + 1)%Z) end.
  { unfold unsuccessful. cbn. rewrite Hq. cbn [length]. lia. }
  lia.
Qed.

Lemma processAudioQueue_unsuccessful (now : Z) (s : State) :
  (unsuccessful s ≤ unsuccessful (processAudioQueue now s))%Z.
Proof.
  unfold processAudioQueue. destruct (isProcessingQueue s); [lia|].
  destruct (audioQueue s) eqn:Hq; [lia|].
  etransitivity; [|apply queue_loop_unsuccessful]. done.
Qed.

Lemma play_catch_unsuccessful (rid : nat) (e : JsError) (s : State) :
  (unsuccessful s ≤ unsuccessful (play_catch rid e s))%Z.
Proof.
  unfold play_catch. etransitivity; [|apply settle_unsuccessful].
  by repeat case_match.
Qed.

(** A playback that starts is counted once: the call was in flight and is
    settled with it. *)
Lemma play_started_unsuccessful (rid : nat) (now : Z) (s : State) (t : Task) :
  tasks s !! rid = Some t → unsettled t = true →
  unsuccessful (play_started rid now s) = unsuccessful s.
Proof.
  intros Ht Hu. unfold play_started. rewrite Ht.
  match goal with |- unsuccessful (settle rid Resolved ?s0) = _ =>
    destruct (settle_unsuccessful rid Resolved s0) as [_ H];
    rewrite (H t Ht Hu) end.
  unfold unsuccessful. cbn. lia.
Qed.

Lemma on_race_unsuccessful (rid : nat) (o : RaceOutcome) (now : Z) (s : State) (t : Task) :
  tasks s !! rid = Some t → t_phase t = AwaitRace →
  (unsuccessful s ≤ unsuccessful (on_race rid o now s))%Z.
Proof.
  intros Ht Hph.
  assert (Hu : unsettled t = true) by (unfold unsettled; by rewrite Hph).
  unfold on_race. destruct o as [err|[|stream]].
  - unfold catch_synthesis. etransitivity; [|apply settle_unsuccessful].
    by rewrite (unsuccessful_books _ _ (classify_and_record_books _ _ _)).
  - etransitivity; [|apply settle_unsuccessful]. done.
  - set (a := streamToUint8Array stream). destruct (as_result a) as [err0|audioBytes].
    + etransitivity; [|apply settle_unsuccessful]. done.
    + destruct (length audioBytes =? 0)%nat.
      * etransitivity; [|apply settle_unsuccessful]. done.
      * unfold handleAutoplayOptimization.
        destruct (volume_setter _) as [thrown|volume].
        { unfold catch_synthesis. etransitivity; [|apply settle_unsuccessful].
          by rewrite (unsuccessful_books _ _ (classify_and_record_books _ _ _)). }
        match goal with |- context [hidden ?s0] => destruct (hidden s0) end.
        -- etransitivity; [|apply play_catch_unsuccessful]. done.
        -- unfold unsuccessful. cbn.
           pose proof (in_flight_moved (tasks s) rid AwaitPlay t Ht Hu). lia.
Qed.

Lemma on_play_unsuccessful (rid : nat) (o : option JsError) (now : Z) (s s' : State) :
  on_play rid o now s = Some s' → (unsuccessful s ≤ unsuccessful s')%Z.
Proof.
  unfold on_play. intros H.
  destruct (tasks s !! rid) as [t|] eqn:Ht; [|done]. cbn [mbind option_bind] in H.
  destruct (t_phase t) eqn:Hph, o as [e|]; try done;
    (assert (Hu : unsettled t = true) by (unfold unsettled; by rewrite Hph)).
  - destruct (String.eqb _ _).
    + destruct (elements s !! rid) as [a|]; [|done]. cbn [mbind option_bind] in H.
      injection H as <-. unfold unsuccessful. cbn.
      pose proof (in_flight_moved (tasks s) rid (AwaitQuietPlay (volume a)) t Ht Hu). lia.
    + injection H as <-. apply play_catch_unsuccessful.
  - injection H as <-. by rewrite (play_started_unsuccessful rid now s t).
  - injection H as <-. etransitivity; [|apply play_catch_unsuccessful]. done.
  - injection H as <-.
    by rewrite (play_started_unsuccessful rid now _ t).
Qed.

Lemma step_unsuccessful (now : Z) (ev : Event) (s s' : State) :
  step now ev s = Some s' → (unsuccessful s ≤ unsuccessful s')%Z.
Proof.
  intros Hstep.
  assert (Hsame : ∀ s0, books s0 = books s → (unsuccessful s ≤ unsuccessful s0)%Z).
  { intros s0 H. rewrite (unsuccessful_books _ _ H). lia. }
  destruct ev; cbn [step] in Hstep.
  - simplify_eq. apply Hsame. unfold initializePollyClient. by repeat case_match.
  - simplify_eq. apply speakText_unsuccessful.
  - simplify_eq. unfold getTtsStatus.
    pose proof (isTtsTemporarilyDisabled_books now s) as H.
    destruct (isTtsTemporarilyDisabled now s). by apply Hsame.
  - simplify_eq. unfold isPollyAvailable. destruct (pollyClient s); [|by apply Hsame].
    pose proof (isTtsTemporarilyDisabled_books now s) as H.
    destruct (isTtsTemporarilyDisabled now s). by apply Hsame.
  - simplify_eq. by apply Hsame.
  - simplify_eq. by apply Hsame.
  - simplify_eq. by apply Hsame, (setAudioVolume_preserves books).
  - simplify_eq. destruct (stopAll_frame s) as (Ht & _ & _ & _ & Hm & _).
    pose proof (f_equal (λ x, fst (fst x)) Ht) as Hq.
    pose proof (f_equal (λ x, snd (fst x)) Ht) as Htk. cbn [traffic fst snd] in Hq, Htk.
    unfold unsuccessful. rewrite Hq, Hm, Htk. cbn [length]. lia.
  - destruct (tasks s !! rid) as [t|] eqn:Ht; [|done]. cbn in Hstep.
    destruct (t_phase t) eqn:Hph; simplify_eq. by apply (on_race_unsuccessful rid o now s t).
  - destruct (elements s !! rid); [|done]. cbn in Hstep.
    by apply (on_play_unsuccessful rid o now).
  - case_match; simplify_eq. apply Hsame. unfold on_retry. by case_match.
  - destruct (queueTimers s) as [|n] eqn:Hn; simplify_eq.
    etransitivity; [|apply processAudioQueue_unsuccessful]. done.
  - destruct (loopDelays s) as [|n] eqn:Hn; simplify_eq.
    etransitivity; [|apply queue_loop_unsuccessful]. done.
  - apply Hsame. unfold fade_tick in Hstep.
    destruct (fades s !! i) as [f|]; [|done]. cbn [mbind option_bind] in Hstep.
    destruct (_ || _) in Hstep; by simplify_eq.
  - apply Hsame. unfold on_volume_restore in Hstep.
    destruct (volumeRestores s !! i); by simplify_eq/=.
  - apply Hsame. case_match; by simplify_eq.
  - simplify_eq. apply Hsame. unfold gesture. by apply foldl_preserves.
  - simplify_eq. by apply Hsame.
  - apply Hsame. destruct (elements s !! e); by simplify_eq/=.
  - apply Hsame. destruct (elements s !! e); by simplify_eq/=.
  - apply Hsame. destruct (elements s !! e); simplify_eq/=.
    unfold on_pause. by case_match.
Qed.

(** X23: the counters add up.  Every request is counted once, when
    [speakText] is called, and a playback that starts is counted once, when
    its call returns.  So in every state that the module reaches from its
    initial state, the successes, the calls still in flight and the entries
    waiting in the queue together never exceed [totalRequests]; in
    particular [successfulRequests] is at most [totalRequests]. *)
Theorem successes_never_exceed_requests (trace : list (Z * Event)) (s : State) :
  run trace initial = Some s →
  (successfulRequests (performanceMetrics s) + in_flight (tasks s) + length (audioQueue s)
     ≤ totalRequests (performanceMetrics s))%nat ∧
  (successfulRequests (performanceMetrics s) ≤ totalRequests (performanceMetrics s))%nat.
Proof.
  intros Hrun.
  assert (H : (unsuccessful initial ≤ unsuccessful s)%Z).
  { revert Hrun. generalize initial. induction trace as [|[now ev] trace IH]; intros s0 Hrun;
      cbn [run] in Hrun.
    - injection Hrun as <-. lia.
    - destruct (step now ev s0) as [s1|] eqn:Hstep; [|done]. cbn [mbind option_bind] in Hrun.
      etransitivity; [by apply (step_unsuccessful now ev s0 s1) | by apply IH]. }
  change (unsuccessful initial) with 0%Z in H. unfold unsuccessful in H. lia.
Qed.

(** The game with A and B playing and C queued: three requests, two
    successes, one entry in the queue. *)
Lemma successes_never_exceed_requests_witness :
  ∃ s, run ([(0, EvInitialize game_config); (0, EvConfigure game_settings)]%Z
              ++ two_playing_then_C) initial = Some s ∧
       (successfulRequests (performanceMetrics s) ≤ totalRequests (performanceMetrics s))%nat.
Proof.
  eexists. split; [vm_compute; reflexivity|].
  refine (proj2 (successes_never_exceed_requests
            ([(0, EvInitialize game_config); (0, EvConfigure game_settings)]%Z
               ++ two_playing_then_C) _ _)).
  vm_compute. reflexivity.
Defined.

(** ** Admission and the order of the queue *)

(** The cleanup keeps the playing elements and the settings. *)
Lemma cleanup_keeps_playing (s : State) :
  activeAudioElements (manageAudioConcurrency s) =
    filter (λ e, finished s e = false) (activeAudioElements s) ∧
  audioSettings (manageAudioConcurrency s) = audioSettings s.
Proof.
  unfold manageAudioConcurrency. cbv zeta.
  destruct (remove_fold_footprint
              (filter (λ e, finished s e = true) (activeAudioElements s)) s)
    as (Ha & _ & _ & _ & Hs).
  cbv zeta in Ha, Hs.
  rewrite (filter_unfinished s _ (activeAudioElements s)) in Ha by done.
  set (s1 := foldl _ s _) in *.
  assert (Hfade : ∀ e, activeAudioElements (fadeOutAudio e s1) = activeAudioElements s1 ∧
                       audioSettings (fadeOutAudio e s1) = audioSettings s1).
  { intros e. unfold fadeOutAudio. by repeat case_match. }
  rewrite <- Ha, <- Hs. clear Ha Hs.
  destruct (at_capacity s1); [|done].
  destruct (activeAudioElements s1) as [|oldest rest] eqn:Hact; [done|].
  destruct (Hfade oldest) as [-> ->]. done.
Qed.

(** How [speakText] decides between the queue and a direct start, for a
    valid text with the client present and the breaker closed: by the number
    of active elements that are still playing, and by nothing else. *)
Lemma speak_admission (t : jsstring) (now : Z) (s : State) :
  invalid_text (JString t) = false → pollyClient s = true →
  (ttsErrorCount s < MAX_ERROR_COUNT)%nat →
  let playing := filter (λ e, finished s e = false) (activeAudioElements s) in
  let text1 := if (maxTextLength <? length t)%nat then substring0 maxTextLength t else t in
  if size_ge (length playing) (maxConcurrentAudio (audioSettings s)) then
    fst (speakText (JString t) now s) = Queued ∧
    audioQueue (snd (speakText (JString t) now s)) = audioQueue s ++ [mkItem t] ∧
    tasks (snd (speakText (JString t) now s)) = tasks s ∧
    sent (snd (speakText (JString t) now s)) = sent s
  else
    fst (speakText (JString t) now s) = Awaiting (length (tasks s)) ∧
    audioQueue (snd (speakText (JString t) now s)) = audioQueue s ∧
    tasks (snd (speakText (JString t) now s)) =
      tasks s ++ [mkTask text1 now Direct AwaitRace] ∧
    sent (snd (speakText (JString t) now s)) = sent s ++ [(length (tasks s), trim text1)].
Proof.
  intros Hv Hc Hb. cbv zeta.
  destruct (cleanup_keeps_playing (count_request s)) as [Ha Hs].
  pose proof (manageAudioConcurrency_traffic (count_request s)) as Htr.
  destruct (manageAudioConcurrency_breaker (count_request s)) as [_ Hcl].
  change (traffic (count_request s)) with (traffic s) in Htr.
  change (pollyClient (count_request s)) with (pollyClient s) in Hcl.
  change (audioSettings (count_request s)) with (audioSettings s) in Hs.
  change (activeAudioElements (count_request s)) with (activeAudioElements s) in Ha.
  change (filter (λ e, finished (count_request s) e = false) (activeAudioElements s))
    with (filter (λ e, finished s e = false) (activeAudioElements s)) in Ha.
  assert (Hq : audioQueue (manageAudioConcurrency (count_request s)) = audioQueue s)
    by exact (f_equal (λ x, fst (fst x)) Htr).
  assert (Ht : tasks (manageAudioConcurrency (count_request s)) = tasks s)
    by exact (f_equal (λ x, snd (fst x)) Htr).
  assert (Hsn : sent (manageAudioConcurrency (count_request s)) = sent s)
    by exact (f_equal snd Htr).
  unfold speakText. rewrite Hv.
  change (pollyClient (count_request s)) with (pollyClient s). rewrite Hc. cbn [negb].
  rewrite breaker_closed_check by exact Hb.
  assert (Hcap : at_capacity (manageAudioConcurrency (count_request s)) =
                 size_ge (length (filter (λ e, finished s e = false) (activeAudioElements s)))
                         (maxConcurrentAudio (audioSettings s)))
    by (unfold at_capacity; by rewrite Ha, Hs).
  rewrite Hcap. clear Hcap.
  destruct (size_ge _ _); cbn [fst snd].
  - unfold count_queued.
    cbn [audioQueue tasks sent log set_console set_performanceMetrics
         set_audioQueue schedule_processAudioQueue set_queueTimers].
    by rewrite ?Hq, ?Ht, ?Hsn.
  - rewrite synthesize_with_client by (by rewrite Hcl). cbv zeta.
    destruct (maxTextLength <? length t)%nat;
      cbn [audioQueue tasks sent log set_console set_tasks set_sent];
      by rewrite ?Hq, ?Ht, ?Hsn.
Qed.

(** C4, as amended: entries of [audioQueue] are admitted in enqueue order,
    but a later call can be admitted before them.  In one turn of the event
    loop the queue stays as it is, or a call of [speakText] appends its text
    at the end without sending anything, or the drain loop removes the head
    and starts the synthesis of exactly that entry, or [stopAllAudio] empties
    it.  A valid call (client present, breaker closed) is queued exactly when
    at least [maxConcurrentAudio] elements of the active set are still
    playing (neither ended, failed nor paused) when it is made; when fewer
    are, it is admitted directly, whatever the queue holds.  With the limit
    at 2 and A and B playing, C is queued, and after A has ended the queue
    timer sends C. *)
Theorem queue_drains_in_order :
  (∀ now ev s s', step now ev s = Some s' →
     audioQueue s' = audioQueue s ∨
     (∃ t, ev = EvSpeak (JString t) ∧ audioQueue s' = audioQueue s ++ [mkItem t] ∧
           tasks s' = tasks s ∧ sent s' = sent s) ∨
     (∃ item phase, (ev = EvQueueTimer ∨ ev = EvLoopDelay) ∧
           audioQueue s = item :: audioQueue s' ∧
           tasks s' =
             tasks s ++ [mkTask (if (maxTextLength <? length (q_text item))%nat
                                 then substring0 maxTextLength (q_text item)
                                 else q_text item)
                                now FromQueue phase]) ∨
     (ev = EvStopAll ∧ audioQueue s' = [])) ∧
  (∀ t now s,
     invalid_text (JString t) = false → pollyClient s = true →
     (ttsErrorCount s < MAX_ERROR_COUNT)%nat →
     size_ge (length (filter (λ e, finished s e = false) (activeAudioElements s)))
             (maxConcurrentAudio (audioSettings s)) = true →
     fst (speakText (JString t) now s) = Queued ∧
     audioQueue (snd (speakText (JString t) now s)) = audioQueue s ++ [mkItem t] ∧
     tasks (snd (speakText (JString t) now s)) = tasks s ∧
     sent (snd (speakText (JString t) now s)) = sent s) ∧
  (∀ t now s,
     invalid_text (JString t) = false → pollyClient s = true →
     (ttsErrorCount s < MAX_ERROR_COUNT)%nat →
     size_ge (length (filter (λ e, finished s e = false) (activeAudioElements s)))
             (maxConcurrentAudio (audioSettings s)) = false →
     fst (speakText (JString t) now s) = Awaiting (length (tasks s)) ∧
     audioQueue (snd (speakText (JString t) now s)) = audioQueue s ∧
     sent (snd (speakText (JString t) now s)) =
       sent s ++ [(length (tasks s),
                   trim (if (maxTextLength <? length t)%nat
                         then substring0 maxTextLength t else t))]) ∧
  (∃ s, run two_playing_then_C ready = Some s ∧
        maxConcurrentAudio (audioSettings s) = 2%Q ∧
        activeAudioElements s = [0; 1]%nat ∧
        finished s 0 = false ∧ finished s 1 = false ∧
        audioQueue s = [mkItem (str "C")] ∧
        sent s = [(0%nat, str "A"); (1%nat, str "B")]) ∧
  (∃ s, run A_ends_then_drain ready = Some s ∧
        audioQueue s = [] ∧
        sent s = [(0%nat, str "A"); (1%nat, str "B"); (2%nat, str "C")]).
Proof.
  split; [|split; [|split; [|split; eexists; (split; [vm_compute; reflexivity|]); repeat split]]].
  2:{ intros t now s Hv Hc Hb Hfull.
      pose proof (speak_admission t now s Hv Hc Hb) as H. cbv zeta in H.
      by rewrite Hfull in H. }
  2:{ intros t now s Hv Hc Hb Hfree.
      pose proof (speak_admission t now s Hv Hc Hb) as H. cbv zeta in H.
      rewrite Hfree in H. destruct H as (H1 & H2 & _ & H4). done. }
  intros now ev s s' Hstep.
  destruct ev; cbn [step] in Hstep.
  - (* initialize *) left. simplify_eq. unfold initializePollyClient. by repeat case_match.
  - (* speak *) simplify_eq. destruct (speakText_queue text now s) as [H|H]; [by left|].
    right; left. destruct H as (t & -> & H). by exists t.
  - (* status *) left. simplify_eq. unfold getTtsStatus.
    pose proof (isTtsTemporarilyDisabled_traffic now s) as H.
    destruct (isTtsTemporarilyDisabled now s). cbn [snd] in *. by injection H.
  - (* available *) left. simplify_eq. unfold isPollyAvailable.
    pose proof (isTtsTemporarilyDisabled_traffic now s) as H.
    destruct (pollyClient s); [|done].
    destruct (isTtsTemporarilyDisabled now s). cbn [snd] in *. by injection H.
  - (* reset *) left. by simplify_eq.
  - (* configure *) left. by simplify_eq.
  - (* volume *) left. simplify_eq. by apply (setAudioVolume_preserves audioQueue).
  - (* stop *) right; right; right. by simplify_eq.
  - (* race *) left. destruct (tasks s !! rid) as [t|]; [|done]. cbn in Hstep.
    destruct (t_phase t); simplify_eq. apply on_race_queue.
  - (* play *) left. destruct (elements s !! rid); [|done]. cbn in Hstep.
    by apply on_play_queue in Hstep.
  - (* retry *) left. case_match; simplify_eq. unfold on_retry. by case_match.
  - (* queue timer *)
    destruct (queueTimers s) as [|n] eqn:Hn; simplify_eq.
    unfold processAudioQueue. cbn [isProcessingQueue set_queueTimers audioQueue].
    destruct (isProcessingQueue s); [by left|].
    destruct (audioQueue s) as [|item rest] eqn:Hq; [left; by cbn|].
    match goal with |- context [queue_loop now ?s0] =>
      destruct (queue_loop_takes_head now s0) as [H|(item' & phase & H1 & H2)] end.
    + left. rewrite H. by cbn.
    + right; right; left. exists item', phase. cbn in H1, H2.
      split; [by left|]. split; [congruence | done].
  - (* loop delay *)
    destruct (loopDelays s) as [|n] eqn:Hn; simplify_eq.
    match goal with |- context [queue_loop now ?s0] =>
      destruct (queue_loop_takes_head now s0) as [H|(item' & phase & H1 & H2)] end.
    + left. rewrite H. by cbn.
    + right; right; left. exists item', phase. cbn in H1, H2.
      split; [by right|]. done.
  - (* fade tick *) left. by apply fade_tick_queue in Hstep.
  - (* volume restore *) left. unfold on_volume_restore in Hstep.
    destruct (volumeRestores s !! i); by simplify_eq/=.
  - (* expire *) left. case_match; by simplify_eq.
  - (* gesture *) left. simplify_eq. unfold gesture. by apply foldl_preserves.
  - (* visibility *) left. by simplify_eq.
  - (* ended *) left. destruct (elements s !! e); by simplify_eq/=.
  - (* error *) left. destruct (elements s !! e); by simplify_eq/=.
  - (* paused *) left. destruct (elements s !! e); simplify_eq/=.
    unfold on_pause. by case_match.
Qed.
